(** * FaultMap node ranking: a shallow embedding of [ranking/formatmatrices.py]
    and [ranking/noderank.py].

    Numbers.  The Python code computes with IEEE doubles.  Here a number is an
    exact rational ([Q]); equalities between computed scores are therefore
    stated with [==] ([Qeq]).  A division whose divisor is zero has no
    rational value: Python's float division raises [ZeroDivisionError] and
    numpy's yields inf/nan; both are the outcome [Raise NonFinite] below.

    Containers.  A Python [dict] and a networkx [DiGraph] are modelled with
    insertion-ordered association lists: a key that is assigned again keeps
    its position and gets the new value.  The order in which a graph lists
    its nodes is thus the order in which they were added; the hash order of
    a Python 2 dictionary is not modelled.

    Libraries.  [np.linalg.eig], [abs] on complex numbers and the two
    networkx centralities are parameters of [calc_simple_rank]; the other
    numpy and networkx operations the code uses are defined here. *)

From Stdlib Require Import String Ascii List QArith Qabs Lia Bool Arith.
From Stdlib Require Import DecimalString Decimal DecimalNat Permutation Sorted Lqa.
Import ListNotations.

Set Implicit Arguments.

(** ** Outcomes of a Python call *)

Inductive exn : Type :=
| IndexError
| KeyError
| ValueError
| LinAlgError
| NetworkXError
| NonFinite.

Inductive result (A : Type) : Type :=
| Ok (a : A)
| Raise (e : exn).

Arguments Ok {A} a.
Arguments Raise {A} e.

Definition bind {A B : Type} (c : result A) (k : A -> result B) : result B :=
  match c with
  | Ok a => k a
  | Raise e => Raise e
  end.

Notation "x <- c ;; k" := (bind c (fun x => k))
  (at level 61, c at next level, right associativity).
Notation "' pat <- c ;; k" := (bind c (fun x => match x with pat => k end))
  (at level 61, pat pattern, c at next level, right associativity).

(** [for x in l: s = body(s, x)], stopping at the first exception. *)
Fixpoint for_each {S A : Type} (l : list A) (body : S -> A -> result S) (s : S)
  : result S :=
  match l with
  | [] => Ok s
  | x :: l' => s' <- body s x ;; for_each l' body s'
  end.

Definition raises {A : Type} (c : result A) : Prop := exists e, c = Raise e.

(** [enumerate(l)] *)
Definition enumerate {A : Type} (l : list A) : list (nat * A) :=
  combine (seq 0 (length l)) l.

(** [str(n)] for a non-negative integer: its decimal numeral. *)
Definition str (n : nat) : string := NilEmpty.string_of_uint (Nat.to_uint n).

(** Python's builtin [sum]: left to right, starting from 0. *)
Definition sum (l : list Q) : Q := fold_left Qplus l 0.

(** ** Python dictionaries with string keys *)

Module PyDict.

Definition dict (V : Type) : Type := list (string * V).

Fixpoint get {V : Type} (d : dict V) (k : string) : option V :=
  match d with
  | [] => None
  | (k', v) :: d' => if String.eqb k' k then Some v else get d' k
  end.

(** [d[k] = v] *)
Fixpoint set {V : Type} (d : dict V) (k : string) (v : V) : dict V :=
  match d with
  | [] => [(k, v)]
  | (k', v') :: d' =>
      if String.eqb k' k then (k', v) :: d' else (k', v') :: set d' k v
  end.

(** [d[k]], raising [KeyError] *)
Definition getitem {V : Type} (d : dict V) (k : string) : result V :=
  match get d k with
  | Some v => Ok v
  | None => Raise KeyError
  end.

Definition keys {V : Type} (d : dict V) : list string := map fst d.
Definition values {V : Type} (d : dict V) : list V := map snd d.

(** [dict(pairs)] *)
Definition of_pairs {V : Type} (l : list (string * V)) : dict V :=
  fold_left (fun d kv => set d (fst kv) (snd kv)) l [].

End PyDict.

(** ** numpy matrices: a list of rows *)

Definition matrix : Type := list (list Q).

(** [M.shape[0]], [M.shape[1]] *)
Definition shape0 (M : matrix) : nat := length M.
Definition shape1 (M : matrix) : nat := length (hd [] M).

(** every row has [c] entries *)
Definition rect (c : nat) (M : matrix) : Prop :=
  Forall (fun row => length row = c) M.

Definition rectb (c : nat) (M : matrix) : bool :=
  forallb (fun row => Nat.eqb (length row) c) M.

(** [M[r, c]] with non-negative indices *)
Definition mat_get (M : matrix) (r c : nat) : result Q :=
  match nth_error M r with
  | Some row =>
      match nth_error row c with
      | Some x => Ok x
      | None => Raise IndexError
      end
  | None => Raise IndexError
  end.

(** entry read without bounds check, 0 outside; used in statements only *)
Definition entry (M : matrix) (r c : nat) : Q := nth c (nth r M []) 0.

(** [M.T] *)
Definition transpose (M : matrix) : matrix :=
  map (fun c => map (fun row => nth c row 0) M) (seq 0 (shape1 M)).

(** ** networkx.DiGraph (1.x): nodes in insertion order, weighted edges *)

Record DiGraph : Type := mkDiGraph {
  nodes : list string;
  edges : list ((string * string) * Q)
}.

Definition empty_graph : DiGraph := mkDiGraph [] [].

Definition has_node (g : DiGraph) (n : string) : bool :=
  existsb (String.eqb n) (nodes g).

Definition add_node (g : DiGraph) (n : string) : DiGraph :=
  if has_node g n then g else mkDiGraph (nodes g ++ [n]) (edges g).

Definition same_edge (u v : string) (e : (string * string) * Q) : bool :=
  String.eqb (fst (fst e)) u && String.eqb (snd (fst e)) v.

Fixpoint set_edge (es : list ((string * string) * Q)) (u v : string) (w : Q)
  : list ((string * string) * Q) :=
  match es with
  | [] => [((u, v), w)]
  | e :: es' =>
      if same_edge u v e then ((u, v), w) :: es' else e :: set_edge es' u v w
  end.

(** [g.add_edge(u, v, weight=w)]: both endpoints become nodes (first [u],
    then [v]) when they are not yet; an existing edge gets the new weight. *)
Definition add_edge (g : DiGraph) (u v : string) (w : Q) : DiGraph :=
  let g1 := add_node (add_node g u) v in
  mkDiGraph (nodes g1) (set_edge (edges g1) u v w).

Fixpoint get_edge_in (es : list ((string * string) * Q)) (u v : string)
  : option Q :=
  match es with
  | [] => None
  | e :: es' => if same_edge u v e then Some (snd e) else get_edge_in es' u v
  end.

Definition get_edge (g : DiGraph) (u v : string) : option Q :=
  get_edge_in (edges g) u v.

(** [g.out_degree(n)], [g.in_degree(n)] *)
Definition out_degree (g : DiGraph) (n : string) : nat :=
  length (filter (fun e => String.eqb (fst (fst e)) n) (edges g)).

Definition in_degree (g : DiGraph) (n : string) : nat :=
  length (filter (fun e => String.eqb (snd (fst e)) n) (edges g)).

(** [nx.to_numpy_matrix(g, weight=...)]: row and column [i] belong to the
    [i]-th node; an edge contributes its weight, or 1 when [weight=None];
    a non-edge contributes 0. *)
Definition to_numpy_matrix (g : DiGraph) (weight : bool) : matrix :=
  map (fun u =>
         map (fun v =>
                match get_edge g u v with
                | Some w => if weight then w else 1
                | None => 0
                end)
             (nodes g))
      (nodes g).

(** ** The object store: graphs are passed by reference *)

Definition ref : Type := nat.
Definition heap : Type := list DiGraph.

Definition deref (h : heap) (r : ref) : option DiGraph := nth_error h r.

Fixpoint store (h : heap) (r : ref) (g : DiGraph) : heap :=
  match h, r with
  | [], _ => []
  | _ :: h', O => g :: h'
  | g' :: h', S r' => g' :: store h' r' g
  end.

(** [nx.DiGraph()] and friends: a new object *)
Definition alloc (h : heap) (g : DiGraph) : ref * heap :=
  (length h, h ++ [g]).

(** apply a mutating method to the object behind [r] *)
Definition mutate (h : heap) (r : ref) (f : DiGraph -> DiGraph) : heap :=
  match deref h r with
  | Some g => store h r (f g)
  | None => h
  end.

(** ** formatmatrices.py *)

Module FormatMatrices.

(** one iteration of the loop of [buildcase]; the state is the store and
    the counter *)
Definition buildcase_body (dummyweight : Q) (m_graph : ref) (name : string)
           (st : heap * nat) (node : string) : heap * nat :=
  let '(h, counter) := st in
  match deref h m_graph with
  | Some g =>
      if Nat.eqb (out_degree g node) 1 then
        let nameofscale := (name ++ str counter)%string in
        (mutate h m_graph (fun g => add_edge g node nameofscale dummyweight),
         S counter)
      else (h, counter)
  | None => (h, counter)
  end.

(** [buildcase(dummyweight, m_graph, name)]; [m_graph.nodes()] is a list,
    taken once before the loop runs.  The answer is [None] only when the
    reference denotes no object of the store, which a Python program never
    observes. *)
Definition buildcase (dummyweight : Q) (m_graph : ref) (name : string)
           (h : heap) : option (matrix * matrix * list string) * heap :=
  match deref h m_graph with
  | Some g0 =>
      let '(h', _) :=
        fold_left (buildcase_body dummyweight m_graph name) (nodes g0) (h, 1%nat) in
      match deref h' m_graph with
      | Some g =>
          let connection := transpose (to_numpy_matrix g false) in
          let gain := transpose (to_numpy_matrix g true) in
          let variablelist := nodes g in
          (Some (connection, gain, variablelist), h')
      | None => (None, h')
      end
  | None => (None, h)
  end.

(** [buildgraph(variables, gainmatrix, connections)] *)
Definition buildgraph_inner (gainmatrix connections : matrix)
           (col : nat) (colvar : string)
           (m_graph : DiGraph) (rv : nat * string) : result DiGraph :=
  let '(row, rowvar) := rv in
  c <- mat_get connections row col ;;
  if negb (Qeq_bool c 0) then
    w <- mat_get gainmatrix row col ;;
    Ok (add_edge m_graph colvar rowvar w)
  else Ok m_graph.

Definition buildgraph (variables : list string) (gainmatrix connections : matrix)
  : result DiGraph :=
  for_each (enumerate variables)
           (fun m_graph cv =>
              for_each (enumerate variables)
                       (buildgraph_inner gainmatrix connections (fst cv) (snd cv))
                       m_graph)
           empty_graph.

(** [rankforward] and [rankbackward]: the graph that [buildgraph] returns is
    a new object of the store, handed to [buildcase] by reference. *)
Definition rankforward (variables : list string) (gainmatrix connections : matrix)
           (dummyweight : Q) (h : heap)
  : result (matrix * matrix * list string) * heap :=
  match buildgraph variables gainmatrix connections with
  | Ok g =>
      let '(m_graph, h1) := alloc h g in
      match buildcase dummyweight m_graph "DV_forward" h1 with
      | (Some res, h2) => (Ok res, h2)
      | (None, h2) => (Raise ValueError, h2)
      end
  | Raise e => (Raise e, h)
  end.

Definition rankbackward (variables : list string) (gainmatrix connections : matrix)
           (dummyweight : Q) (h : heap)
  : result (matrix * matrix * list string) * heap :=
  match buildgraph variables (transpose gainmatrix) (transpose connections) with
  | Ok g =>
      let '(m_graph, h1) := alloc h g in
      match buildcase dummyweight m_graph "DV_backward" h1 with
      | (Some res, h2) => (Ok res, h2)
      | (None, h2) => (Raise ValueError, h2)
      end
  | Raise e => (Raise e, h)
  end.

End FormatMatrices.

Import FormatMatrices.

(** ** numpy operations used by [noderank.py] *)

(** numbers as numpy's complex128: real and imaginary part *)
Definition Cx : Type := (Q * Q)%type.

Fixpoint mapM {A B : Type} (f : A -> result B) (l : list A) : result (list B) :=
  match l with
  | [] => Ok []
  | x :: l' => y <- f x ;; ys <- mapM f l' ;; Ok (y :: ys)
  end.

(** [M[:, c]] *)
Definition get_col {A : Type} (M : list (list A)) (c : nat) : result (list A) :=
  mapM (fun row => match nth_error row c with
                   | Some x => Ok x
                   | None => Raise IndexError
                   end) M.

Fixpoint set_nth {A : Type} (l : list A) (i : nat) (x : A) : list A :=
  match l, i with
  | [], _ => []
  | _ :: l', O => x :: l'
  | y :: l', S i' => y :: set_nth l' i' x
  end.

(** [M[:, c] = vals] *)
Definition set_col (M : matrix) (c : nat) (vals : list Q) : matrix :=
  map (fun rv => set_nth (fst rv) c (snd rv)) (combine M vals).

(** [m * M] *)
Definition scale (m : Q) (M : matrix) : matrix := map (map (Qmult m)) M.

(** [np.ones((n, n), dtype=float) / n] *)
Definition resetmatrix_of (n : nat) : matrix :=
  repeat (repeat (1 / inject_Z (Z.of_nat n)) n) n.

(** [A + B] with numpy's broadcasting of axes of length 1 *)
Definition bdim (a b : nat) : result nat :=
  if Nat.eqb a b then Ok a
  else if Nat.eqb a 1 then Ok b
  else if Nat.eqb b 1 then Ok a
  else Raise ValueError.

Definition bidx (dim i : nat) : nat := if Nat.eqb dim 1 then 0%nat else i.

Definition mat_add (A B : matrix) : result matrix :=
  d0 <- bdim (shape0 A) (shape0 B) ;;
  d1 <- bdim (shape1 A) (shape1 B) ;;
  Ok (map (fun i =>
             map (fun j =>
                    entry A (bidx (shape0 A) i) (bidx (shape1 A) j) +
                    entry B (bidx (shape0 B) i) (bidx (shape1 B) j))
                 (seq 0 d1))
          (seq 0 d0)).

(** Python's [x / y] on floats *)
Definition pydiv (x y : Q) : result Q :=
  if Qeq_bool y 0 then Raise NonFinite else Ok (x / y).

(** numpy orders complex numbers by real part, then by imaginary part *)
Definition Qltb (a b : Q) : bool := negb (Qle_bool b a).

Definition cgt (a b : Cx) : bool :=
  Qltb (fst b) (fst a) || (Qeq_bool (fst a) (fst b) && Qltb (snd b) (snd a)).

Fixpoint argmax_from (l : list Cx) (i best : nat) (bv : Cx) : nat :=
  match l with
  | [] => best
  | x :: l' =>
      if cgt x bv then argmax_from l' (S i) i x
      else argmax_from l' (S i) best bv
  end.

(** [np.argmax(a)]: the first index of a largest element *)
Definition argmax (l : list Cx) : result nat :=
  match l with
  | [] => Raise ValueError
  | x :: l' => Ok (argmax_from l' 1 0 x)
  end.

(** [g.reverse()] *)
Definition reverse (g : DiGraph) : DiGraph :=
  mkDiGraph (nodes g)
            (map (fun e => ((snd (fst e), fst (fst e)), snd e)) (edges g)).

(** [sorted(d.iteritems(), key=operator.itemgetter(1), reverse=True)]:
    by decreasing score, equal scores in the order of the items *)
Fixpoint insert_desc (x : string * Q) (l : list (string * Q)) : list (string * Q) :=
  match l with
  | [] => [x]
  | y :: l' => if Qltb (snd x) (snd y) then y :: insert_desc x l' else x :: l
  end.

Definition sorted_desc (l : list (string * Q)) : list (string * Q) :=
  fold_right insert_desc [] l.

(** ** noderank.py *)

Module NodeRank.

Import PyDict.

(** [norm_dict(dictionary)] *)
Definition norm_dict (dictionary : dict Q) : result (dict Q) :=
  let total := sum (values dictionary) in
  mapM (fun kv => q <- pydiv (snd kv) total ;; Ok (fst kv, q)) dictionary.

(** first loop of [calc_simple_rank]: a column whose absolute sum is zero
    is skipped *)
Definition normalise_gain_col (gainmatrix : matrix) (col : nat) : result matrix :=
  vals <- get_col gainmatrix col ;;
  let colsum := sum (map Qabs vals) in
  if Qeq_bool colsum 0 then Ok gainmatrix
  else Ok (set_col gainmatrix col (map (fun x => x / colsum) vals)).

Definition normalise_gain (gainmatrix : matrix) (n : nat) : result matrix :=
  for_each (seq 0 n) normalise_gain_col gainmatrix.

(** second loop: no test; a zero sum gives nan *)
Definition normalise_weight_col (weightmatrix : matrix) (col : nat)
  : result matrix :=
  vals <- get_col weightmatrix col ;;
  let colsum := sum (map Qabs vals) in
  vals' <- mapM (fun x => pydiv x colsum) vals ;;
  Ok (set_col weightmatrix col vals').

Definition normalise_weight (weightmatrix : matrix) (n : nat) : result matrix :=
  for_each (seq 0 n) normalise_weight_col weightmatrix.

(** the two graphs built for the networkx centralities *)
Definition centrality_graphs_inner (weightmatrix gainmatrix : matrix)
           (col : nat) (colvar : string)
           (st : DiGraph * DiGraph) (rv : nat * string)
  : result (DiGraph * DiGraph) :=
  let '(weightgraph, gaingraph) := st in
  let '(row, rowvar) := rv in
  w <- mat_get weightmatrix row col ;;
  let weightgraph := add_edge weightgraph rowvar colvar w in
  x <- mat_get gainmatrix row col ;;
  if negb (Qeq_bool x 0)
  then Ok (weightgraph, add_edge gaingraph rowvar colvar x)
  else Ok (weightgraph, gaingraph).

Definition centrality_graphs (weightmatrix gainmatrix : matrix)
           (variables : list string) : result (DiGraph * DiGraph) :=
  for_each (enumerate variables)
           (fun st cv =>
              for_each (enumerate variables)
                       (centrality_graphs_inner weightmatrix gainmatrix
                                                (fst cv) (snd cv))
                       st)
           (empty_graph, empty_graph).

Section Libraries.

(** numpy and networkx routines that are not part of the repository *)
Variable eig : matrix -> result (list Cx * list (list Cx)).
Variable np_abs : Cx -> Q.
Variable eigenvector_centrality : DiGraph -> result (dict Q).
Variable katz_centrality : DiGraph -> Q -> Q -> Z -> result (dict Q).

(** [np.linalg.eig] refuses a matrix that is not square *)
Definition np_linalg_eig (M : matrix) : result (list Cx * list (list Cx)) :=
  if rectb (shape0 M) M then eig M else Raise LinAlgError.

(** [(1 / sum(rankarray)) * rankarray] *)
Definition normalise_rank (rankarray : list Q) : result (list Q) :=
  f <- pydiv 1 (sum rankarray) ;;
  Ok (map (Qmult f) rankarray).

Definition calc_simple_rank (gainmatrix : matrix) (variables : list string)
           (m : Q) : result (dict Q * list (string * Q)) :=
  let gainmatrix := transpose gainmatrix in
  let n := shape0 gainmatrix in
  gainmatrix <- normalise_gain gainmatrix n ;;
  let resetmatrix := resetmatrix_of n in
  weightmatrix <- mat_add (scale m gainmatrix) (scale (1 - m) resetmatrix) ;;
  weightmatrix <- normalise_weight weightmatrix n ;;
  '(eigval, eigvec) <- np_linalg_eig weightmatrix ;;
  _ <- np_linalg_eig gainmatrix ;;
  maxeigindex <- argmax eigval ;;
  rankarray <- get_col eigvec maxeigindex ;;
  let rankarray := map np_abs rankarray in
  rankarray_norm <- normalise_rank rankarray ;;
  let rankingdict := of_pairs (combine variables rankarray_norm) in
  let rankinglist := sorted_desc rankingdict in
  '(weightgraph, gaingraph) <-
    centrality_graphs weightmatrix gainmatrix variables ;;
  eig_rankingdict <- eigenvector_centrality (reverse weightgraph) ;;
  _ <- norm_dict eig_rankingdict ;;
  katz_rankingdict <-
    katz_centrality (reverse gaingraph) (99 # 100) 1 20000%Z ;;
  _ <- norm_dict katz_rankingdict ;;
  Ok (rankingdict, rankinglist).

End Libraries.

(** [calc_blended_rank(forwardrank, backwardrank, variablelist, alpha)] *)
Definition blend_body (forwardrank backwardrank : dict Q) (alpha : Q)
           (rankingdict : dict Q) (variable : string) : result (dict Q) :=
  f <- getitem forwardrank variable ;;
  b <- getitem backwardrank variable ;;
  Ok (set rankingdict variable (Qabs ((1 - alpha) * f + alpha * b))).

Definition divide_body (total : Q) (rankingdict : dict Q) (variable : string)
  : result (dict Q) :=
  x <- getitem rankingdict variable ;;
  q <- pydiv x total ;;
  Ok (set rankingdict variable q).

Definition calc_blended_rank (forwardrank backwardrank : dict Q)
           (variablelist : list string) (alpha : Q)
  : result (dict Q * list (string * Q)) :=
  rankingdict <-
    for_each variablelist (blend_body forwardrank backwardrank alpha) [] ;;
  let total := sum (values rankingdict) in
  rankingdict <- for_each variablelist (divide_body total) rankingdict ;;
  let rankinglist := sorted_desc rankingdict in
  Ok (rankingdict, rankinglist).

(** an entry of a float array: [np.NAN] until it is assigned *)
Inductive float : Type :=
| NaN
| Val (q : Q).

Definition setitem {A : Type} (l : list A) (i : nat) (x : A) : result (list A) :=
  if Nat.ltb i (length l) then Ok (set_nth l i x) else Raise IndexError.

Definition diff_body (variable : string) (st : list float * Q)
           (ir : nat * dict Q) : result (list float * Q) :=
  let '(diffvect, prev_importance) := st in
  let '(index, rankingdict) := ir in
  x <- getitem rankingdict variable ;;
  diffvect <- setitem diffvect index (Val (x - prev_importance)) ;;
  Ok (diffvect, x).

Definition transient_body (rankingdicts : list (dict Q))
           (st : dict (list float) * dict Q) (variable : string)
  : result (dict (list float) * dict Q) :=
  let '(transientdict, basevaldict) := st in
  match rankingdicts with
  | [] => Raise ValueError
  | first :: others =>
      let diffvect := repeat NaN (length rankingdicts - 1) in
      base <- getitem first variable ;;
      let basevaldict := set basevaldict variable base in
      '(diffvect, _) <-
        for_each (enumerate others) (diff_body variable) (diffvect, base) ;;
      Ok (set transientdict variable diffvect, basevaldict)
  end.

(** [calc_transient_importancediffs(rankingdicts, variablelist)] *)
Definition calc_transient_importancediffs (rankingdicts : list (dict Q))
           (variablelist : list string)
  : result (dict (list float) * dict Q) :=
  for_each variablelist (transient_body rankingdicts) ([], []).

End NodeRank.

Import NodeRank.

(** ** noderank.py: the functions beside the ranking itself *)

Module NodeRankRest.

Import PyDict.

(** [normalise_rankinglist(rankingdict, originalvariables)] *)
Definition restrict_body (rankingdict : dict Q)
           (normalised_rankingdict : dict Q) (variable : string)
  : result (dict Q) :=
  x <- getitem rankingdict variable ;;
  Ok (set normalised_rankingdict variable x).

Definition normalise_rankinglist (rankingdict : dict Q)
           (originalvariables : list string) : result (list (string * Q)) :=
  normalised_rankingdict <-
    for_each originalvariables (restrict_body rankingdict) [] ;;
  let total := sum (values normalised_rankingdict) in
  normalised_rankingdict <-
    for_each originalvariables (divide_body total) normalised_rankingdict ;;
  Ok (sorted_desc normalised_rankingdict).

(** [M.nonzero()]: the positions (row, column) of the entries that are not
    zero, row by row *)
Definition nonzero_row (r : nat) (row : list Q) : list (nat * nat) :=
  map (fun jc => (r, fst jc))
      (filter (fun jc => negb (Qeq_bool (snd jc) 0)) (enumerate row)).

Definition nonzero (M : matrix) : list (nat * nat) :=
  flat_map (fun ir => nonzero_row (fst ir) (snd ir)) (enumerate M).






(** [l[i]] on a Python list, with a non-negative index *)
Definition list_getitem {A : Type} (l : list A) (i : nat) : result A :=
  match nth_error l i with
  | Some x => Ok x
  | None => Raise IndexError
  end.

(** attributes attached to edges, keyed by the edge *)
Definition edge_eqb (e e' : string * string) : bool :=
  String.eqb (fst e) (fst e') && String.eqb (snd e) (snd e').

Fixpoint set_attr {V : Type} (l : list ((string * string) * V))
         (e : string * string) (x : V) : list ((string * string) * V) :=
  match l with
  | [] => [(e, x)]
  | (e', y) :: l' =>
      if edge_eqb e' e then (e', x) :: l' else (e', y) :: set_attr l' e x
  end.

Fixpoint get_attr {V : Type} (l : list ((string * string) * V))
         (e : string * string) : option V :=
  match l with
  | [] => None
  | (e', y) :: l' => if edge_eqb e' e then Some y else get_attr l' e
  end.

(** the graph that [create_importance_graph] annotates: beside the weights,
    an attribute [controlloop] on edges and an attribute [importance] on
    nodes *)
Record ImportanceGraph : Type := mkImportanceGraph {
  graph : DiGraph;
  controlloop : list ((string * string) * nat);
  importance : dict Q
}.

(** [create_importance_graph(variablelist, closedconnections,
    openconnections, gainmatrix, ranks)]; the loops run over the positions
    (row, col) of the non-zero connections *)
Definition open_body (variablelist : list string) (gainmatrix : matrix)
           (opengraph : DiGraph) (rc : nat * nat) : result DiGraph :=
  let '(row, col) := rc in
  u <- list_getitem variablelist col ;;
  v <- list_getitem variablelist row ;;
  w <- mat_get gainmatrix row col ;;
  Ok (add_edge opengraph u v w).

Definition closed_body (variablelist : list string) (gainmatrix : matrix)
           (openedgelist : list (string * string))
           (closedgraph : ImportanceGraph) (rc : nat * nat)
  : result ImportanceGraph :=
  let '(row, col) := rc in
  u <- list_getitem variablelist col ;;
  v <- list_getitem variablelist row ;;
  let newedge := (u, v) in
  w <- mat_get gainmatrix row col ;;
  let flag := if existsb (edge_eqb newedge) openedgelist then 0%nat else 1%nat in
  Ok (mkImportanceGraph (add_edge (graph closedgraph) u v w)
                        (set_attr (controlloop closedgraph) newedge flag)
                        (importance closedgraph)).

Definition importance_body (ranks : dict Q) (closedgraph : ImportanceGraph)
           (node : string) : result ImportanceGraph :=
  r <- getitem ranks node ;;
  Ok (mkImportanceGraph (add_node (graph closedgraph) node)
                        (controlloop closedgraph)
                        (set (importance closedgraph) node r)).

Definition create_importance_graph (variablelist : list string)
           (closedconnections openconnections gainmatrix : matrix)
           (ranks : dict Q) : result (ImportanceGraph * DiGraph) :=
  opengraph <-
    for_each (nonzero openconnections) (open_body variablelist gainmatrix)
             empty_graph ;;
  let openedgelist := map fst (edges opengraph) in
  closedgraph <-
    for_each (nonzero closedconnections)
             (closed_body variablelist gainmatrix openedgelist)
             (mkImportanceGraph empty_graph [] []) ;;
  closedgraph <-
    for_each (nodes (graph closedgraph)) (importance_body ranks) closedgraph ;;
  Ok (closedgraph, opengraph).

(** *** matplotlib.pyplot, as far as [plot_transient_importances] uses it:
    numbered figures, one of them current, each recording what was plotted
    on it and its title *)

(** a two-dimensional float array: a list of rows *)
Definition farray : Type := list (list float).

Record Figure : Type := mkFigure {
  plotted : list (list nat * farray);
  title : option string
}.

Record Pyplot : Type := mkPyplot {
  figures : list (nat * Figure);
  current : option nat
}.

Fixpoint get_figure (fs : list (nat * Figure)) (num : nat) : option Figure :=
  match fs with
  | [] => None
  | (k, f) :: fs' => if Nat.eqb k num then Some f else get_figure fs' num
  end.

Fixpoint set_figure (fs : list (nat * Figure)) (num : nat) (f : Figure)
  : list (nat * Figure) :=
  match fs with
  | [] => [(num, f)]
  | (k, f') :: fs' =>
      if Nat.eqb k num then (k, f) :: fs' else (k, f') :: set_figure fs' num f
  end.

(** [plt.figure(num)]: the figure becomes current, and is created when it
    does not exist *)
Definition plt_figure (plt : Pyplot) (num : nat) : Pyplot :=
  match get_figure (figures plt) num with
  | Some _ => mkPyplot (figures plt) (Some num)
  | None =>
      mkPyplot (set_figure (figures plt) num (mkFigure [] None)) (Some num)
  end.

(** an operation on the current figure; without one, figure 1 is made *)
Definition on_current (plt : Pyplot) (f : Figure -> Figure) : Pyplot :=
  let plt := match current plt with
             | Some _ => plt
             | None => plt_figure plt 1
             end in
  match current plt with
  | Some num =>
      match get_figure (figures plt) num with
      | Some fig => mkPyplot (set_figure (figures plt) num (f fig)) (Some num)
      | None => plt
      end
  | None => plt
  end.

(** [plt.plot(x, y)] and [plt.title(s)] *)
Definition plt_plot (plt : Pyplot) (x : list nat) (y : farray) : Pyplot :=
  on_current plt (fun fig => mkFigure (plotted fig ++ [(x, y)]) (title fig)).

Definition plt_title (plt : Pyplot) (s : string) : Pyplot :=
  on_current plt (fun fig => mkFigure (plotted fig) (Some s)).

(** [np.zeros((r, c))] *)
Definition fzeros (r c : nat) : farray := repeat (repeat (Val 0) c) r.

(** float addition: [nan] absorbs *)
Definition fadd (x y : float) : float :=
  match x, y with
  | Val a, Val b => Val (a + b)
  | _, _ => NaN
  end.

(** the value assigned to a slice of [n] entries: it has [n] entries, or one
    entry that is repeated (broadcasting) *)
Definition broadcast {A : Type} (n : nat) (vals : list A) : result (list A) :=
  if Nat.eqb (length vals) n then Ok vals
  else match vals with
       | [x] => Ok (repeat x n)
       | _ => Raise ValueError
       end.

(** [M[:, c][1:]] and [M[:, c][1:] = vals], for a column [c] that exists *)
Definition get_tail_col (M : farray) (c : nat) : list float :=
  map (fun row => nth c row NaN) (tl M).

Definition set_tail_col (M : farray) (c : nat) (vals : list float) : farray :=
  match M with
  | [] => []
  | row0 :: rest =>
      row0 :: map (fun rv => set_nth (fst rv) c (snd rv)) (combine rest vals)
  end.

(** [M[0, c] = x], for a position that exists *)
Definition set_first (M : farray) (c : nat) (x : float) : farray :=
  match M with
  | [] => []
  | row0 :: rest => set_nth row0 c x :: rest
  end.

(** [plot_transient_importances(variables, transientdict, basevaldict)] *)
Definition plot_body (transientdict : dict (list float)) (basevaldict : dict Q)
           (transient_val_no : nat) (st : farray * farray) (iv : nat * string)
  : result (farray * farray) :=
  let '(diffplot, absplot) := st in
  let '(index, variable) := iv in
  d <- getitem transientdict variable ;;
  d <- broadcast transient_val_no d ;;
  let diffplot := set_tail_col diffplot index d in
  b <- getitem basevaldict variable ;;
  let absplot := set_first absplot index (Val b) in
  b <- getitem basevaldict variable ;;
  let absplot :=
    set_tail_col absplot index
                 (map (fun x => fadd x (Val b)) (get_tail_col diffplot index)) in
  Ok (diffplot, absplot).

Definition plot_arrays (variables : list string)
           (transientdict : dict (list float)) (basevaldict : dict Q)
  : result (nat * farray * farray) :=
  v1 <- list_getitem variables 1 ;;
  d1 <- getitem transientdict v1 ;;
  let transient_val_no := length d1 in
  let diffplot := fzeros (S transient_val_no) (length variables) in
  let absplot := fzeros (S transient_val_no) (length variables) in
  ' (diffplot, absplot) <-
    for_each (enumerate variables)
             (plot_body transientdict basevaldict transient_val_no)
             (diffplot, absplot) ;;
  Ok (transient_val_no, diffplot, absplot).

Definition plot_transient_importances (variables : list string)
           (transientdict : dict (list float)) (basevaldict : dict Q)
           (plt : Pyplot) : result (nat * nat) * Pyplot :=
  match plot_arrays variables transientdict basevaldict with
  | Ok (transient_val_no, diffplot, absplot) =>
      let bins := seq 0 (S transient_val_no) in
      let plt := plt_figure plt 1 in
      let plt := plt_plot plt bins diffplot in
      let plt := plt_title plt "Relative importance variations over time" in
      let plt := plt_figure plt 2 in
      let plt := plt_plot plt bins absplot in
      let plt := plt_title plt "Absolute importance scores over time" in
      let plt := plt_figure plt 1 in
      let plt := plt_figure plt 2 in
      (Ok (1%nat, 2%nat), plt)
  | Raise e => (Raise e, plt)
  end.

End NodeRankRest.

Import NodeRankRest.


(** * Vocabulary of the statements *)

(** ** Graphs *)

(** Representation invariant of a graph object: what networkx maintains. *)
Record wf_graph (g : DiGraph) : Prop := mk_wf {
  wf_nodes : NoDup (nodes g);
  wf_keys : NoDup (map fst (edges g));
  wf_ends : forall u v w, In ((u, v), w) (edges g) ->
                          In u (nodes g) /\ In v (nodes g)
}.

(** the name [buildcase] gives to the [k]-th dummy *)
Definition dummy (name : string) (k : nat) : string := (name ++ str k)%string.

(** one iteration of the loop of [buildcase], on the graph behind the
    reference *)
Definition augment_step (dummyweight : Q) (name : string)
           (st : DiGraph * nat) (node : string) : DiGraph * nat :=
  let '(g, counter) := st in
  if Nat.eqb (out_degree g node) 1
  then (add_edge g node (dummy name counter) dummyweight, S counter)
  else (g, counter).

Definition augment (dummyweight : Q) (name : string) (g : DiGraph) : DiGraph :=
  fst (fold_left (augment_step dummyweight name) (nodes g) (g, 1%nat)).

(** the nodes of [l] that have exactly one successor in [g] *)
Definition ones (g : DiGraph) (l : list string) : list string :=
  filter (fun n => Nat.eqb (out_degree g n) 1) l.

Definition dummy_nodes (name : string) (c len : nat) : list string :=
  map (dummy name) (seq c len).

Definition dummy_edges (dummyweight : Q) (name : string)
           (l : list string) (c : nat) : list ((string * string) * Q) :=
  map (fun nk => ((fst nk, dummy name (snd nk)), dummyweight))
      (combine l (seq c (length l))).

Definition src_count (es : list ((string * string) * Q)) (n : string) : nat :=
  length (filter (fun e => String.eqb (fst (fst e)) n) es).

Definition dst_count (es : list ((string * string) * Q)) (n : string) : nat :=
  length (filter (fun e => String.eqb (snd (fst e)) n) es).

(** the graph of the loop of [buildcase] after the nodes [done], when the
    dummy names are new *)
Definition partial (dummyweight : Q) (name : string) (g : DiGraph)
           (done : list string) : DiGraph :=
  mkDiGraph (nodes g ++ dummy_nodes name 1 (length (ones g done)))
            (edges g ++ dummy_edges dummyweight name (ones g done) 1).

Definition cell (weight : bool) (o : option Q) : Q :=
  match o with
  | Some w => if weight then w else 1
  | None => 0
  end.

(** the matrix of [g], one more column per node with a single successor
    (holding the dummy edge in the row of that node), and as many zero rows *)
Definition augmented_matrix (dummyweight : Q) (g : DiGraph) (weight : bool)
  : matrix :=
  let N := nodes g in
  let S1 := ones g N in
  map (fun u =>
         map (fun v => cell weight (get_edge g u v)) N ++
         map (fun n1 => cell weight
                          (if String.eqb n1 u then Some dummyweight else None))
             S1)
      N
  ++ repeat (repeat 0 (length N + length S1)) (length S1).

(** a pair (column, row) of the double loop of [buildgraph], each index with
    its variable *)
Definition item_ok (variables : list string)
           (p : (nat * string) * (nat * string)) : Prop :=
  nth_error variables (fst (fst p)) = Some (snd (fst p)) /\
  nth_error variables (fst (snd p)) = Some (snd (snd p)).

(** the connection entry of the pair is not zero *)
Definition active (connections : matrix)
           (p : (nat * string) * (nat * string)) : Prop :=
  Qeq_bool (entry connections (fst (snd p)) (fst (fst p))) 0 = false.

(** the graph of [buildgraph] after the pairs [done] *)
Definition built (variables : list string) (gainmatrix connections : matrix)
           (done : list ((nat * string) * (nat * string))) (g : DiGraph)
  : Prop :=
  wf_graph g /\
  Forall (item_ok variables) done /\
  (forall v, In v (nodes g) <->
             exists p, In p done /\ active connections p /\
                       (v = snd (fst p) \/ v = snd (snd p))) /\
  (forall u v w, get_edge g u v = Some w <->
                 exists p, In p done /\ active connections p /\
                           u = snd (fst p) /\ v = snd (snd p) /\
                           w = entry gainmatrix (fst (snd p)) (fst (fst p))).

(** ** Scores *)

Definition score (d : PyDict.dict Q) (v : string) : Q :=
  match PyDict.get d v with
  | Some x => x
  | None => 0
  end.

(** the blended score of a variable before the division *)
Definition blend (forwardrank backwardrank : PyDict.dict Q) (alpha : Q)
           (v : string) : Q :=
  Qabs ((1 - alpha) * score forwardrank v + alpha * score backwardrank v).

Definition present (forwardrank backwardrank : PyDict.dict Q) (v : string)
  : Prop :=
  PyDict.get forwardrank v <> None /\ PyDict.get backwardrank v <> None.

Definition blend_total (forwardrank backwardrank : PyDict.dict Q) (alpha : Q)
           (variablelist : list string) : Q :=
  sum (map (blend forwardrank backwardrank alpha) variablelist).

(** successive differences of a sequence of scores, after a first score *)
Fixpoint successive_diffs (xs : list Q) (prev : Q) : list Q :=
  match xs with
  | [] => []
  | x :: xs' => (x - prev) :: successive_diffs xs' x
  end.

Definition known (variable : string) (d : PyDict.dict Q) : Prop :=
  PyDict.get d variable <> None.

(** the scores of a variable, box by box *)
Definition series (rankingdicts : list (PyDict.dict Q)) (v : string) : list Q :=
  map (fun d => score d v) rankingdicts.

Definition diffs_of (rankingdicts : list (PyDict.dict Q)) (v : string)
  : list Q :=
  successive_diffs (tl (series rankingdicts v)) (hd 0 (series rankingdicts v)).

Definition usable (rankingdicts : list (PyDict.dict Q)) (v : string) : Prop :=
  rankingdicts <> [] /\ Forall (known v) rankingdicts.

(** ** Matrices *)

(** column [c] and its absolute sum, as read in statements *)
Definition col (M : matrix) (c : nat) : list Q := map (fun row => nth c row 0) M.
Definition colabs (M : matrix) (c : nat) : Q := sum (map Qabs (col M c)).

(** what the first loop of [calc_simple_rank] leaves at [r, c] *)
Definition normalised_entry (T : matrix) (r c : nat) : Q :=
  if Qeq_bool (colabs T c) 0 then entry T r c else entry T r c / colabs T c.

Fixpoint list_eqb {A : Type} (eqb : A -> A -> bool) (l1 l2 : list A) : bool :=
  match l1, l2 with
  | [], [] => true
  | x :: l1', y :: l2' => eqb x y && list_eqb eqb l1' l2'
  | _, _ => false
  end.

Definition mat_eqb (A B : matrix) : bool := list_eqb (list_eqb Qeq_bool) A B.

(** [M v = lam v] for a real matrix, a real eigenvalue and a real vector *)
Definition eigenpair_b (M : matrix) (lam : Q) (v : list Q) : bool :=
  list_eqb Qeq_bool
           (map (fun row => sum (map (fun xy => fst xy * snd xy) (combine row v))) M)
           (map (Qmult lam) v).

(** ** Small inputs *)

Definition g_ab : DiGraph := add_edge empty_graph "A" "B" 2.


Definition vars_ab : list string := ["a"; "b"]%string.
Definition vars_abc : list string := ["a"; "b"; "c"]%string.
Definition conn_ab : matrix := [[0; 0; 0]; [1; 0; 0]; [0; 0; 0]].
Definition gain_ab : matrix := [[0; 0; 0]; [5; 0; 0]; [0; 0; 0]].
Definition gain_demo : matrix := [[1; 2; 0]; [0; 0; 0]; [4; 0; -4]].
Definition ones_matrix : matrix := [[1; 1]; [1; 1]].
Definition half_matrix : matrix := [[1 # 2; 1 # 2]; [1 # 2; 1 # 2]].

Definition fwd_demo : PyDict.dict Q :=
  [("a", 1 # 2); ("b", 1 # 4); ("DV_forward1", 1 # 4)]%string.
Definition bwd_demo : PyDict.dict Q :=
  [("b", 1 # 5); ("a", 3 # 5); ("DV_backward1", 1 # 5)]%string.

Definition boxes_demo : list (PyDict.dict Q) :=
  [[("a", 1 # 2); ("b", 1 # 2)];
   [("a", 1 # 4); ("b", 3 # 4)];
   [("a", 1 # 3); ("b", 2 # 3)]]%string.

(** Stand-ins for numpy and networkx on [half_matrix].  Its
    eigen-decomposition: eigenvalue 1 with eigenvector (1, 1) and eigenvalue 0
    with eigenvector (-1, 1), one per column (numpy scales them to unit
    length, which the normalised ranking does not see); no answer on other
    matrices. *)
Definition eig_demo (M : matrix) : result (list Cx * list (list Cx)) :=
  if mat_eqb M half_matrix
  then Ok ([(1, 0); (0, 0)], [[(1, 0); (-1, 0)]; [(1, 0); (1, 0)]])
  else Raise LinAlgError.

(** [abs] on a number without imaginary part *)
Definition abs_demo (z : Cx) : Q := Qabs (fst z).

(** a centrality that gives every node the same score, as eigenvector and
    Katz centrality do on the symmetric graphs met with [half_matrix] *)
Definition centrality_demo (g : DiGraph) : result (PyDict.dict Q) :=
  Ok (map (fun n => (n, 1)) (nodes g)).

Definition katz_demo (g : DiGraph) (alpha beta : Q) (max_iter : Z)
  : result (PyDict.dict Q) := centrality_demo g.

Definition simple_rank_demo :=
  calc_simple_rank eig_demo abs_demo centrality_demo katz_demo.

(** ** Ranking lists *)

(** the order of a ranking list: no score below a later one *)
Definition desc (x y : string * Q) : Prop := snd y <= snd x.

(** the items of a list whose score is [q] *)
Definition with_score (q : Q) (l : list (string * Q)) : list (string * Q) :=
  filter (fun x => Qeq_bool (snd x) q) l.

(** two items with the same key and the same score *)
Definition same_item (x y : string * Q) : Prop :=
  fst x = fst y /\ snd x == snd y.

(** entry [k] of the difference vector of [v], 0 where there is none *)
Definition diff_at (transientdict : PyDict.dict (list float)) (v : string)
           (k : nat) : Q :=
  match PyDict.get transientdict v with
  | Some diffvect =>
      match nth k diffvect NaN with
      | Val q => q
      | NaN => 0
      end
  | None => 0
  end.

(** scores that cancel: in one dictionary, and between a forward and a
    backward ranking *)
Definition cancel_demo : PyDict.dict Q := [("a", 1); ("b", -1)]%string.
Definition fwd_zero : PyDict.dict Q := [("a", 1); ("b", 0)]%string.
Definition bwd_zero : PyDict.dict Q := [("a", -1); ("b", 0)]%string.

(** ** Entries at given positions *)


(** ** The importance graph *)

(** the pair of [buildgraph]'s double loop that adds the edge of the
    position (row, col) *)
Definition position_item (variablelist : list string) (rc : nat * nat)
  : (nat * string) * (nat * string) :=
  ((snd rc, nth (snd rc) variablelist ""%string),
   (fst rc, nth (fst rc) variablelist ""%string)).

(** the value of [controlloop] for an edge: 0 when the edge is also open *)
Definition loop_flag (opengraph : DiGraph) (u v : string) : nat :=
  match get_edge opengraph u v with
  | Some _ => 0%nat
  | None => 1%nat
  end.

Definition conn_demo : matrix := [[0; 1]; [1; 0]].
Definition open_demo : matrix := [[0; 0]; [1; 0]].
Definition ranks_demo : PyDict.dict Q := [("a", 1 # 3); ("b", 2 # 3)]%string.

(** ** Plotted arrays *)

(** entry of a float array, read in statements *)
Definition fentry (M : farray) (r c : nat) : float := nth c (nth r M []) NaN.

Definition fshape (r c : nat) (M : farray) : Prop :=
  length M = r /\ Forall (fun row => length row = c) M.

(** what has been plotted on a figure so far *)
Definition plots_of (plt : Pyplot) (num : nat) : list (list nat * farray) :=
  match get_figure (figures plt) num with
  | Some fig => plotted fig
  | None => []
  end.

(** the difference vector and the base value of a variable *)
Definition diffvect_of (transientdict : PyDict.dict (list float)) (v : string)
  : list float :=
  match PyDict.get transientdict v with
  | Some d => d
  | None => []
  end.

(** a variable that both dictionaries know, with [n] differences *)
Definition plottable (transientdict : PyDict.dict (list float))
           (basevaldict : PyDict.dict Q) (n : nat) (v : string) : Prop :=
  PyDict.get transientdict v <> None /\
  length (diffvect_of transientdict v) = n /\
  PyDict.get basevaldict v <> None.

(** column [i] of the two arrays holds the curve of the variable [v]: the
    differences after a zero, and the base value followed by the base value
    plus each difference *)
Definition column_plotted (transientdict : PyDict.dict (list float))
           (basevaldict : PyDict.dict Q) (n : nat)
           (diffplot absplot : farray) (i : nat) (v : string) : Prop :=
  fentry diffplot 0 i = Val 0 /\
  fentry absplot 0 i = Val (score basevaldict v) /\
  forall k, (k < n)%nat ->
            fentry diffplot (S k) i = nth k (diffvect_of transientdict v) NaN /\
            fentry absplot (S k) i =
            fadd (nth k (diffvect_of transientdict v) NaN)
                 (Val (score basevaldict v)).

Definition no_plots : Pyplot := mkPyplot [] None.


(** ** Tactics *)

Ltac string_cases :=
  repeat match goal with
    | |- context [String.eqb ?a ?b] =>
        let E := fresh "E" in
        destruct (String.eqb_spec a b) as [E|E]; try subst; simpl
    | H : context [String.eqb ?a ?b] |- _ =>
        let E := fresh "E" in
        destruct (String.eqb_spec a b) as [E|E]; try subst; simpl in H
    end.

Ltac bind_inv H x E :=
  match type of H with
  | bind ?c _ = Ok _ =>
      destruct c as [x|] eqn:E; cbn [bind] in H; [|discriminate H]
  end.

(** * Properties *)

(** ** The code on small inputs *)

Example str_of_counter : str 12 = "12"%string.
Proof. reflexivity. Qed.

(** two nodes, A -> B with gain 2: A has one successor and gets a dummy *)
Example rankforward_two_nodes :
  fst (rankforward ["A"; "B"]%string [[0; 0]; [2; 0]] [[0; 0]; [1; 0]] 1 [])
  = Ok ([[0; 0; 0]; [1; 0; 0]; [1; 0; 0]],
        [[0; 0; 0]; [2; 0; 0]; [1; 0; 0]],
        ["A"; "B"; "DV_forward1"]%string).
Proof. reflexivity. Qed.

Example rankbackward_two_nodes :
  fst (rankbackward ["A"; "B"]%string [[0; 0]; [2; 0]] [[0; 0]; [1; 0]] 1 [])
  = Ok ([[0; 0; 0]; [1; 0; 0]; [1; 0; 0]],
        [[0; 0; 0]; [2; 0; 0]; [1; 0; 0]],
        ["B"; "A"; "DV_backward1"]%string).
Proof. reflexivity. Qed.

Example argmax_first_largest :
  argmax [(1, 0); (3, -1); (3, 2); (3, 2); (0, 9)] = Ok 2%nat.
Proof. reflexivity. Qed.

Example sorted_desc_stable :
  sorted_desc [("a", 1 # 4); ("b", 1 # 2); ("c", 1 # 4)]%string
  = [("b", 1 # 2); ("a", 1 # 4); ("c", 1 # 4)]%string.
Proof. reflexivity. Qed.

(** ** Strings and dummy names *)

Lemma str_inj (j k : nat) : str j = str k -> j = k.
Proof.
  unfold str. intros H.
  apply DecimalNat.Unsigned.to_uint_inj.
  assert (E : Some (Nat.to_uint j) = Some (Nat.to_uint k))
    by (rewrite <- !NilEmpty.usu; now rewrite H).
  now injection E.
Qed.

Lemma append_inj_r (p s t : string) : (p ++ s = p ++ t)%string -> s = t.
Proof.
  induction p as [|a p IH]; simpl; intros H; [exact H|].
  injection H as H. now apply IH.
Qed.

Lemma dummy_name_inj (name : string) (j k : nat) :
  (name ++ str j = name ++ str k)%string -> j = k.
Proof. intros H. apply str_inj. eapply append_inj_r; eauto. Qed.

(** ** Lemmas on graphs *)

Section GraphFacts.

Implicit Types (g : DiGraph) (u v n : string) (w : Q).
Implicit Types (es : list ((string * string) * Q)).

Lemma has_node_In g n : has_node g n = true <-> In n (nodes g).
Proof.
  unfold has_node. rewrite existsb_exists. split.
  - intros (x & Hx & E). apply String.eqb_eq in E. now subst.
  - intros H. exists n. split; [exact H | apply String.eqb_refl].
Qed.

Lemma has_node_false g n : has_node g n = false <-> ~ In n (nodes g).
Proof.
  rewrite <- has_node_In. destruct (has_node g n); split; congruence.
Qed.

Lemma nodes_add_node g n :
  nodes (add_node g n) = if has_node g n then nodes g else nodes g ++ [n].
Proof. unfold add_node. now destruct (has_node g n). Qed.

Lemma edges_add_node g n : edges (add_node g n) = edges g.
Proof. unfold add_node. now destruct (has_node g n). Qed.

Lemma In_nodes_add_node g n x :
  In x (nodes (add_node g n)) <-> In x (nodes g) \/ x = n.
Proof.
  rewrite nodes_add_node. destruct (has_node g n) eqn:E.
  - apply has_node_In in E. split; [tauto|]. intros [H| ->]; auto.
  - rewrite in_app_iff. simpl. intuition.
Qed.

Lemma edges_add_edge g u v w :
  edges (add_edge g u v w) = set_edge (edges g) u v w.
Proof. unfold add_edge. simpl. now rewrite !edges_add_node. Qed.

Lemma nodes_add_edge g u v w :
  nodes (add_edge g u v w) = nodes (add_node (add_node g u) v).
Proof. reflexivity. Qed.

Lemma In_nodes_add_edge g u v w x :
  In x (nodes (add_edge g u v w)) <-> In x (nodes g) \/ x = u \/ x = v.
Proof.
  rewrite nodes_add_edge, !In_nodes_add_node. tauto.
Qed.

Lemma same_edge_true u v e :
  same_edge u v e = true <-> fst e = (u, v).
Proof.
  destruct e as [[a b] x]. unfold same_edge. simpl.
  rewrite andb_true_iff, !String.eqb_eq. split.
  - now intros [-> ->].
  - intros H. now injection H.
Qed.

Lemma get_edge_in_set_edge es u v w a b :
  get_edge_in (set_edge es u v w) a b =
  if String.eqb u a && String.eqb v b then Some w else get_edge_in es a b.
Proof.
  induction es as [|[[x y] z] es IH]; simpl.
  - unfold same_edge. simpl. reflexivity.
  - unfold same_edge at 1. simpl.
    destruct (String.eqb_spec x u) as [->|Hx];
      destruct (String.eqb_spec y v) as [->|Hy]; simpl;
      unfold same_edge at 1; simpl.
    + destruct (String.eqb_spec u a) as [->|Ha];
        destruct (String.eqb_spec v b) as [->|Hb]; simpl;
        unfold same_edge; simpl; string_cases; try congruence; reflexivity.
    + rewrite IH. unfold same_edge at 1. simpl.
      destruct (String.eqb_spec u a) as [->|Ha];
        destruct (String.eqb_spec y b) as [->|Hb]; simpl;
        string_cases; try congruence; reflexivity.
    + rewrite IH. unfold same_edge at 1. simpl.
      destruct (String.eqb_spec x a) as [->|Ha];
        destruct (String.eqb_spec v b) as [->|Hb]; simpl;
        string_cases; try congruence; reflexivity.
    + rewrite IH. unfold same_edge at 1. simpl.
      destruct (String.eqb_spec x a) as [->|Ha];
        destruct (String.eqb_spec y b) as [->|Hb]; simpl;
        string_cases; try congruence; reflexivity.
Qed.

Lemma get_edge_add_edge g u v w a b :
  get_edge (add_edge g u v w) a b =
  if String.eqb u a && String.eqb v b then Some w else get_edge g a b.
Proof.
  unfold get_edge. rewrite edges_add_edge. apply get_edge_in_set_edge.
Qed.

Lemma get_edge_in_app es1 es2 a b :
  get_edge_in (es1 ++ es2) a b =
  match get_edge_in es1 a b with
  | Some x => Some x
  | None => get_edge_in es2 a b
  end.
Proof.
  induction es1 as [|e es1 IH]; simpl; [reflexivity|].
  now destruct (same_edge a b e).
Qed.

Lemma get_edge_in_None es a b :
  get_edge_in es a b = None <-> ~ In (a, b) (map fst es).
Proof.
  induction es as [|e es IH]; simpl; [tauto|].
  destruct (same_edge a b e) eqn:E.
  - apply same_edge_true in E. split; [discriminate|]. intros H. elim H. auto.
  - rewrite IH. split.
    + intros H [H1|H1]; [|tauto].
      apply same_edge_true in H1. congruence.
    + tauto.
Qed.

Lemma get_edge_in_Some es a b x :
  get_edge_in es a b = Some x -> In ((a, b), x) es.
Proof.
  induction es as [|e es IH]; simpl; [discriminate|].
  destruct (same_edge a b e) eqn:E.
  - apply same_edge_true in E. intros H. injection H as <-. left.
    destruct e as [k y]. simpl in *. now subst.
  - auto.
Qed.

(** assigning a key that is absent appends the edge *)
Lemma set_edge_new es u v w :
  get_edge_in es u v = None -> set_edge es u v w = es ++ [((u, v), w)].
Proof.
  induction es as [|e es IH]; simpl; [reflexivity|].
  destruct (same_edge u v e); [discriminate|].
  intros H. now rewrite IH.
Qed.

End GraphFacts.

Section WellFormed.

Implicit Types (g : DiGraph) (u v n : string) (w : Q).

Lemma wf_empty : wf_graph empty_graph.
Proof.
  constructor; simpl; [constructor | constructor |].
  intros u v w [].
Qed.

Lemma NoDup_add_node g n : NoDup (nodes g) -> NoDup (nodes (add_node g n)).
Proof.
  intros H. rewrite nodes_add_node. destruct (has_node g n) eqn:E; [exact H|].
  apply has_node_false in E.
  apply NoDup_app; [exact H | repeat constructor; simpl; tauto |].
  intros x Hx [<-|[]]. tauto.
Qed.

Lemma In_set_edge es u v w e :
  In e (set_edge es u v w) -> In e es \/ e = ((u, v), w).
Proof.
  induction es as [|e' es IH]; simpl.
  - intros [<-|[]]. now right.
  - destruct (same_edge u v e'); simpl; intros [H|H]; auto.
    apply IH in H. tauto.
Qed.

Lemma keys_set_edge es u v w :
  map fst (set_edge es u v w) =
  match get_edge_in es u v with
  | Some _ => map fst es
  | None => map fst es ++ [(u, v)]
  end.
Proof.
  induction es as [|e es IH]; simpl; [reflexivity|].
  destruct (same_edge u v e) eqn:E; simpl.
  - apply same_edge_true in E. now rewrite E.
  - rewrite IH. now destruct (get_edge_in es u v).
Qed.

Lemma wf_add_edge g u v w : wf_graph g -> wf_graph (add_edge g u v w).
Proof.
  intros [Hn Hk He]. constructor.
  - rewrite nodes_add_edge. now apply NoDup_add_node, NoDup_add_node.
  - rewrite edges_add_edge, keys_set_edge.
    destruct (get_edge_in (edges g) u v) eqn:E; [exact Hk|].
    apply get_edge_in_None in E.
    apply NoDup_app; [exact Hk | repeat constructor; simpl; tauto |].
    intros x Hx [<-|[]]. tauto.
  - intros a b x H. rewrite edges_add_edge in H.
    apply In_set_edge in H. rewrite !In_nodes_add_edge.
    destruct H as [H|H].
    + apply He in H. tauto.
    + injection H as -> -> _. tauto.
Qed.

(** an edge from an existing node to a new one is appended *)
Lemma add_edge_new g u v w :
  In u (nodes g) -> ~ In v (nodes g) -> get_edge g u v = None ->
  add_edge g u v w =
  mkDiGraph (nodes g ++ [v]) (edges g ++ [((u, v), w)]).
Proof.
  intros Hu Hv He. unfold add_edge.
  assert (E1 : add_node g u = g).
  { unfold add_node. apply has_node_In in Hu. now rewrite Hu. }
  rewrite E1. unfold add_node.
  apply has_node_false in Hv. rewrite Hv. simpl. f_equal.
  now apply set_edge_new.
Qed.

End WellFormed.

(** ** The loop of [buildcase] on the graph behind the reference *)

Section Augment.

Variables (dummyweight : Q) (name : string).

Lemma deref_store h r g g0 :
  deref h r = Some g0 -> deref (store h r g) r = Some g.
Proof.
  unfold deref. revert r. induction h as [|x h IH]; intros [|r]; simpl;
    try discriminate; auto.
Qed.

Lemma deref_store_other h r r' g :
  r' <> r -> deref (store h r g) r' = deref h r'.
Proof.
  unfold deref. revert r r'.
  induction h as [|x h IH]; intros [|r] [|r']; simpl; intros H;
    try reflexivity; try congruence.
  apply IH. congruence.
Qed.

Lemma store_same h r g : deref h r = Some g -> store h r g = h.
Proof.
  unfold deref. revert r. induction h as [|x h IH]; intros [|r]; simpl;
    try discriminate.
  - now intros [= ->].
  - intros H. now rewrite IH.
Qed.

Lemma store_store h r g g' : store (store h r g) r g' = store h r g'.
Proof.
  revert r. induction h as [|x h IH]; intros [|r]; simpl; try reflexivity.
  now rewrite IH.
Qed.

(** the loop on the store is the loop on the graph value, written back *)
Lemma buildcase_loop h r l : forall g c,
  deref h r = Some g ->
  fold_left (buildcase_body dummyweight r name) l (h, c) =
  (store h r (fst (fold_left (augment_step dummyweight name) l (g, c))),
   snd (fold_left (augment_step dummyweight name) l (g, c))).
Proof.
  revert h. induction l as [|node l IH]; intros h g c Hg; simpl.
  - now rewrite store_same.
  - rewrite Hg. destruct (Nat.eqb (out_degree g node) 1) eqn:E.
    + unfold mutate. rewrite Hg.
      rewrite IH with (g := add_edge g node (dummy name c) dummyweight).
      * now rewrite store_store.
      * eapply deref_store; eauto.
    + now apply IH.
Qed.

Lemma buildcase_eq h r g :
  deref h r = Some g ->
  buildcase dummyweight r name h =
  (Some (transpose (to_numpy_matrix (augment dummyweight name g) false),
         transpose (to_numpy_matrix (augment dummyweight name g) true),
         nodes (augment dummyweight name g)),
   store h r (augment dummyweight name g)).
Proof.
  intros Hg. unfold buildcase. rewrite Hg.
  rewrite buildcase_loop with (g := g) by exact Hg.
  rewrite deref_store with (g0 := g) by exact Hg. reflexivity.
Qed.

End Augment.

(** ** The augmented graph when the dummy names are new *)

Section AugmentFresh.

Variables (dummyweight : Q) (name : string) (g : DiGraph).
Hypothesis Hwf : wf_graph g.
Hypothesis Hfresh : forall k, (1 <= k)%nat -> ~ In (dummy name k) (nodes g).

Lemma src_count_app es1 es2 n :
  src_count (es1 ++ es2) n = (src_count es1 n + src_count es2 n)%nat.
Proof. unfold src_count. now rewrite filter_app, length_app. Qed.

Lemma dst_count_app es1 es2 n :
  dst_count (es1 ++ es2) n = (dst_count es1 n + dst_count es2 n)%nat.
Proof. unfold dst_count. now rewrite filter_app, length_app. Qed.

Lemma src_count_0 es n :
  (forall e, In e es -> fst (fst e) <> n) -> src_count es n = 0%nat.
Proof.
  unfold src_count. induction es as [|e es IH]; simpl; intros H; [reflexivity|].
  destruct (String.eqb_spec (fst (fst e)) n) as [E|E].
  - exfalso. eapply H; eauto.
  - apply IH. intros e' He'. apply H. now right.
Qed.

Lemma dst_count_0 es n :
  (forall e, In e es -> snd (fst e) <> n) -> dst_count es n = 0%nat.
Proof.
  unfold dst_count. induction es as [|e es IH]; simpl; intros H; [reflexivity|].
  destruct (String.eqb_spec (snd (fst e)) n) as [E|E].
  - exfalso. eapply H; eauto.
  - apply IH. intros e' He'. apply H. now right.
Qed.

Lemma In_dummy_edges l c e :
  In e (dummy_edges dummyweight name l c) ->
  exists n k, e = ((n, dummy name k), dummyweight) /\ In n l /\
              (c <= k < c + length l)%nat.
Proof.
  unfold dummy_edges. rewrite in_map_iff. intros ([n k] & <- & H).
  exists n, k. simpl. split; [reflexivity|].
  pose proof (in_combine_l _ _ _ _ H). pose proof (in_combine_r _ _ _ _ H) as Hk.
  apply in_seq in Hk. tauto.
Qed.

Lemma dummy_edges_cons n l c :
  dummy_edges dummyweight name (n :: l) c =
  ((n, dummy name c), dummyweight) :: dummy_edges dummyweight name l (S c).
Proof. reflexivity. Qed.

Lemma dummy_edges_snoc l n c :
  dummy_edges dummyweight name (l ++ [n]) c =
  dummy_edges dummyweight name l c ++ [((n, dummy name (c + length l)), dummyweight)].
Proof.
  revert c. induction l as [|x l IH]; intros c.
  - simpl. unfold dummy_edges. simpl. now rewrite Nat.add_0_r.
  - change ((x :: l) ++ [n]) with (x :: (l ++ [n])).
    rewrite !dummy_edges_cons, IH. simpl.
    now rewrite Nat.add_succ_r.
Qed.

Lemma In_dummy_nodes c len d :
  In d (dummy_nodes name c len) <->
  exists k, d = dummy name k /\ (c <= k < c + len)%nat.
Proof.
  unfold dummy_nodes. rewrite in_map_iff. split.
  - intros (k & <- & H). apply in_seq in H. eauto.
  - intros (k & -> & H). exists k. split; [reflexivity|]. now apply in_seq.
Qed.

Lemma dummy_nodes_snoc c len :
  dummy_nodes name c (S len) = dummy_nodes name c len ++ [dummy name (c + len)].
Proof. unfold dummy_nodes. now rewrite seq_S, map_app. Qed.

Lemma out_degree_partial done n :
  ~ In n done -> out_degree (partial dummyweight name g done) n = out_degree g n.
Proof.
  intros H. unfold out_degree, partial. simpl.
  fold (src_count (edges g ++ dummy_edges dummyweight name (ones g done) 1) n).
  rewrite src_count_app, (@src_count_0 (dummy_edges dummyweight name (ones g done) 1));
    [apply Nat.add_0_r|].
  intros e He Hn. apply In_dummy_edges in He.
  destruct He as (x & k & -> & Hx & _). simpl in Hn. subst x.
  apply H. unfold ones in Hx. apply filter_In in Hx. tauto.
Qed.

Lemma ones_snoc done n :
  ones g (done ++ [n]) =
  if Nat.eqb (out_degree g n) 1 then ones g done ++ [n] else ones g done.
Proof.
  unfold ones. rewrite filter_app. simpl.
  destruct (Nat.eqb (out_degree g n) 1); [reflexivity | apply app_nil_r].
Qed.

Lemma partial_step done n :
  In n (nodes g) -> ~ In n done ->
  augment_step dummyweight name
               (partial dummyweight name g done, S (length (ones g done))) n =
  (partial dummyweight name g (done ++ [n]), S (length (ones g (done ++ [n])))).
Proof.
  intros Hn Hd. unfold augment_step.
  rewrite out_degree_partial by exact Hd.
  assert (Ho := ones_snoc done n).
  destruct (Nat.eqb (out_degree g n) 1) eqn:E;
    [|unfold partial; rewrite Ho; reflexivity].
  unfold partial at 2. rewrite Ho.
  rewrite length_app. simpl length. rewrite Nat.add_1_r. f_equal.
  set (c := S (length (ones g done))).
  assert (Hnew : ~ In (dummy name c) (nodes (partial dummyweight name g done))).
  { simpl. rewrite in_app_iff, In_dummy_nodes. intros [H|(k & Hk & Hr)].
    - revert H. apply Hfresh. unfold c. lia.
    - apply dummy_name_inj in Hk. unfold c in Hk. lia. }
  assert (Hin : In n (nodes (partial dummyweight name g done))).
  { simpl. rewrite in_app_iff. now left. }
  assert (Hkey : get_edge (partial dummyweight name g done) n (dummy name c) = None).
  { apply get_edge_in_None. simpl. rewrite map_app, in_app_iff.
    intros [H|H]; apply in_map_iff in H; destruct H as ([[a b] x] & Hk & H);
      simpl in Hk; injection Hk as -> ->.
    - apply (wf_ends Hwf) in H. destruct H as [_ H].
      revert H. apply Hfresh. unfold c. lia.
    - apply In_dummy_edges in H. destruct H as (n' & k & Hk & Hn' & _).
      injection Hk as -> _. apply Hd.
      unfold ones in Hn'. apply filter_In in Hn'. tauto. }
  rewrite add_edge_new by assumption. simpl.
  rewrite <- !app_assoc, dummy_edges_snoc.
  change (dummy_nodes name 1 (length (ones g done)) ++ [dummy name c])
    with (dummy_nodes name 1 (length (ones g done)) ++
          [dummy name (1 + length (ones g done))]).
  now rewrite <- dummy_nodes_snoc.
Qed.

Lemma augment_fold (rest : list string) : forall done,
  NoDup (done ++ rest) ->
  (forall n, In n rest -> In n (nodes g)) ->
  fold_left (augment_step dummyweight name) rest
            (partial dummyweight name g done, S (length (ones g done))) =
  (partial dummyweight name g (done ++ rest), S (length (ones g (done ++ rest)))).
Proof.
  induction rest as [|n rest IH]; intros done Hnd Hin; cbn [fold_left].
  - now rewrite app_nil_r.
  - rewrite partial_step.
    + replace (done ++ n :: rest) with ((done ++ [n]) ++ rest)
        by now rewrite <- app_assoc.
      apply IH.
      * now rewrite <- app_assoc.
      * intros x Hx. apply Hin. now right.
    + apply Hin. now left.
    + apply NoDup_remove_2 in Hnd. rewrite in_app_iff in Hnd. tauto.
Qed.

(** the augmented graph, explicitly: the dummy nodes and edges are
    appended in the order in which the loop meets the nodes *)
Lemma augment_explicit :
  augment dummyweight name g = partial dummyweight name g (nodes g).
Proof.
  unfold augment.
  assert (E : (g, 1%nat) = (partial dummyweight name g [], S (length (ones g [])))).
  { unfold partial, ones, dummy_nodes, dummy_edges. simpl.
    rewrite !app_nil_r. now destruct g. }
  rewrite E, augment_fold; [reflexivity | exact (wf_nodes Hwf) | auto].
Qed.

End AugmentFresh.

Section AugmentInvariant.

Variables (dummyweight : Q) (name : string) (g : DiGraph).
Hypothesis Hwf : wf_graph g.
Hypothesis Hfresh : forall k, (1 <= k)%nat -> ~ In (dummy name k) (nodes g).

Let g' := augment dummyweight name g.
Let S1 := ones g (nodes g).

Lemma out_degree_src_count h n : out_degree h n = src_count (edges h) n.
Proof. reflexivity. Qed.

Lemma in_degree_dst_count h n : in_degree h n = dst_count (edges h) n.
Proof. reflexivity. Qed.

Lemma src_count_dummy_edges l c n :
  NoDup l ->
  src_count (dummy_edges dummyweight name l c) n =
  if in_dec string_dec n l then 1%nat else 0%nat.
Proof.
  revert c. induction l as [|x l IH]; intros c Hnd; [reflexivity|].
  rewrite dummy_edges_cons. inversion Hnd as [|? ? Hx Hl]; subst.
  unfold src_count in *. simpl filter.
  destruct (in_dec string_dec n (x :: l)) as [Hin|Hin];
    destruct (String.eqb_spec x n) as [->|Hxn]; simpl length.
  - rewrite IH by assumption.
    destruct (in_dec string_dec n l); [contradiction | reflexivity].
  - rewrite IH by assumption.
    destruct (in_dec string_dec n l) as [|Hn]; [reflexivity|].
    destruct Hin; [contradiction | contradiction].
  - elim Hin. now left.
  - rewrite IH by assumption.
    destruct (in_dec string_dec n l) as [Hn|]; [|reflexivity].
    elim Hin. now right.
Qed.

Lemma dst_count_dummy_edges l c k :
  dst_count (dummy_edges dummyweight name l c) (dummy name k) =
  if (c <=? k)%nat && (k <? c + length l)%nat then 1%nat else 0%nat.
Proof.
  revert c. induction l as [|x l IH]; intros c.
  - simpl. rewrite Nat.add_0_r.
    destruct (Nat.leb_spec c k), (Nat.ltb_spec k c); simpl; try reflexivity; lia.
  - rewrite dummy_edges_cons. unfold dst_count in *. simpl filter.
    destruct (String.eqb_spec (dummy name c) (dummy name k)) as [E|E].
    + apply dummy_name_inj in E. subst c. simpl length. rewrite IH.
      destruct (Nat.leb_spec (S k) k); [lia|].
      destruct (Nat.leb_spec k k); [|lia].
      destruct (Nat.ltb_spec k (k + S (length l))); [reflexivity | lia].
    + assert (c <> k) by congruence. rewrite IH. simpl length.
      destruct (Nat.leb_spec (S c) k), (Nat.leb_spec c k);
        destruct (Nat.ltb_spec k (S c + length l)),
                 (Nat.ltb_spec k (c + S (length l)));
        simpl; try reflexivity; lia.
Qed.

Lemma NoDup_ones l : NoDup l -> NoDup (ones g l).
Proof. apply NoDup_filter. Qed.

Lemma In_ones n l :
  In n (ones g l) <-> In n l /\ out_degree g n = 1%nat.
Proof. unfold ones. rewrite filter_In, Nat.eqb_eq. tauto. Qed.

Lemma augment_nodes :
  nodes g' = nodes g ++ dummy_nodes name 1 (length S1).
Proof. unfold g'. now rewrite augment_explicit. Qed.

Lemma augment_edges :
  edges g' = edges g ++ dummy_edges dummyweight name S1 1.
Proof. unfold g'. now rewrite augment_explicit. Qed.

Lemma augment_out_degree n :
  out_degree g' n =
  (out_degree g n + if in_dec string_dec n S1 then 1 else 0)%nat.
Proof.
  rewrite !out_degree_src_count, augment_edges, src_count_app.
  rewrite src_count_dummy_edges; [reflexivity|].
  apply NoDup_ones, (wf_nodes Hwf).
Qed.

Lemma no_edge_to_new u d : ~ In d (nodes g) -> get_edge g u d = None.
Proof.
  intros Hd. apply get_edge_in_None. intros H.
  apply in_map_iff in H. destruct H as ([[a b] x] & Hk & H).
  simpl in Hk. injection Hk as -> ->.
  apply (wf_ends Hwf) in H. tauto.
Qed.

Lemma no_edge_from_new d v : ~ In d (nodes g) -> get_edge g d v = None.
Proof.
  intros Hd. apply get_edge_in_None. intros H.
  apply in_map_iff in H. destruct H as ([[a b] x] & Hk & H).
  simpl in Hk. injection Hk as -> ->.
  apply (wf_ends Hwf) in H. tauto.
Qed.

(** a node with exactly one successor gets a second one *)
Lemma augment_degree_one n :
  In n (nodes g) -> out_degree g n = 1%nat -> out_degree g' n = 2%nat.
Proof.
  intros Hn H1. rewrite augment_out_degree, H1.
  destruct (in_dec string_dec n S1) as [|Hno]; [reflexivity|].
  elim Hno. apply In_ones. tauto.
Qed.

(** any other node keeps its outgoing and incoming edges *)
Lemma augment_other n :
  In n (nodes g) -> out_degree g n <> 1%nat ->
  out_degree g' n = out_degree g n /\
  in_degree g' n = in_degree g n /\
  (forall v, get_edge g' n v = get_edge g n v) /\
  (forall u, get_edge g' u n = get_edge g u n).
Proof.
  intros Hn H1.
  assert (Hno : ~ In n S1) by (intros H; apply In_ones in H; tauto).
  repeat split.
  - rewrite augment_out_degree.
    destruct (in_dec string_dec n S1); [contradiction | lia].
  - rewrite !in_degree_dst_count, augment_edges, dst_count_app.
    rewrite (@dst_count_0 (dummy_edges dummyweight name S1 1)); [lia|].
    intros e He Hd. apply In_dummy_edges in He.
    destruct He as (x & k & -> & _ & Hk). simpl in Hd. subst n.
    revert Hn. apply Hfresh. lia.
  - intros v. unfold get_edge. rewrite augment_edges, get_edge_in_app.
    destruct (get_edge_in (edges g) n v) eqn:E; [reflexivity|].
    apply get_edge_in_None. intros H.
    apply in_map_iff in H. destruct H as (e & Hk & He).
    apply In_dummy_edges in He. destruct He as (x & k & -> & Hx & _).
    simpl in Hk. injection Hk as -> _. contradiction.
  - intros u. unfold get_edge. rewrite augment_edges, get_edge_in_app.
    destruct (get_edge_in (edges g) u n) eqn:E; [reflexivity|].
    apply get_edge_in_None. intros H.
    apply in_map_iff in H. destruct H as (e & Hk & He).
    apply In_dummy_edges in He. destruct He as (x & k & -> & _ & Hk').
    simpl in Hk. injection Hk as _ <-.
    revert Hn. apply Hfresh. lia.
Qed.

Lemma get_edge_in_dummy_edges l : forall c i n u,
  nth_error l i = Some n ->
  get_edge_in (dummy_edges dummyweight name l c) u (dummy name (c + i)) =
  if String.eqb n u then Some dummyweight else None.
Proof.
  induction l as [|x l IH]; intros c [|i] n u Hi; try discriminate;
    rewrite dummy_edges_cons; cbn [get_edge_in]; unfold same_edge at 1;
    cbn [fst snd].
  - simpl in Hi. injection Hi as ->. rewrite Nat.add_0_r, String.eqb_refl.
    rewrite andb_true_r.
    destruct (String.eqb_spec n u) as [->|]; [reflexivity|].
    apply get_edge_in_None. intros H.
    apply in_map_iff in H. destruct H as (e & Hk2 & He).
    apply In_dummy_edges in He. destruct He as (y & j & -> & _ & Hj).
    simpl in Hk2. injection Hk2 as _ Hk2.
    apply dummy_name_inj in Hk2. lia.
  - simpl in Hi.
    destruct (String.eqb_spec (dummy name c) (dummy name (c + S i))) as [E|E].
    + apply dummy_name_inj in E. lia.
    + rewrite andb_false_r.
      replace (c + S i)%nat with (S c + i)%nat by lia. now apply IH.
Qed.

(** a node that the loop added is a sink with a single incoming edge,
    of weight [dummyweight] *)
Lemma augment_dummy d :
  In d (nodes g') -> ~ In d (nodes g) ->
  in_degree g' d = 1%nat /\ out_degree g' d = 0%nat /\
  exists n, In n (nodes g) /\ out_degree g n = 1%nat /\
            get_edge g' n d = Some dummyweight /\
            forall u x, get_edge g' u d = Some x -> u = n /\ x = dummyweight.
Proof.
  intros Hd Hnew. rewrite augment_nodes, in_app_iff in Hd.
  destruct Hd as [Hd|Hd]; [contradiction|].
  apply In_dummy_nodes in Hd. destruct Hd as (k & -> & Hk).
  split; [|split].
  - rewrite in_degree_dst_count, augment_edges, dst_count_app.
    rewrite dst_count_0.
    + rewrite dst_count_dummy_edges.
      destruct (Nat.leb_spec 1 k); [|lia].
      destruct (Nat.ltb_spec k (1 + length S1)); [reflexivity | lia].
    + intros [[a b] x] He Hb. simpl in Hb. subst b.
      apply (wf_ends Hwf) in He. tauto.
  - rewrite augment_out_degree.
    destruct (in_dec string_dec (dummy name k) S1) as [Hin|_].
    + apply In_ones in Hin. tauto.
    + rewrite out_degree_src_count, src_count_0; [reflexivity|].
      intros [[a b] x] He Ha. simpl in Ha. subst a.
      apply (wf_ends Hwf) in He. tauto.
  - destruct (nth_error S1 (k - 1)) as [n|] eqn:En;
      [|apply nth_error_None in En; lia].
    assert (Hn : In n S1) by (eapply nth_error_In; eauto).
    apply In_ones in Hn. exists n. split; [tauto|]. split; [tauto|].
    assert (Hget : forall u,
               get_edge g' u (dummy name k) =
               if String.eqb n u then Some dummyweight else None).
    { intros u. unfold get_edge.
      rewrite augment_edges, get_edge_in_app.
      fold (get_edge g u (dummy name k)).
      rewrite no_edge_to_new by exact Hnew.
      replace k with (1 + (k - 1))%nat at 1 by lia.
      now apply get_edge_in_dummy_edges. }
    split.
    + rewrite Hget. now rewrite String.eqb_refl.
    + intros u x. rewrite Hget.
      destruct (String.eqb_spec n u); [|discriminate].
      intros [= <-]. auto.
Qed.

End AugmentInvariant.

(** ** The matrices of the augmented graph do not depend on the dummy names *)

Lemma map_const_repeat {A B : Type} (b : B) (l : list A) :
  map (fun _ => b) l = repeat b (length l).
Proof. induction l; simpl; congruence. Qed.

Section AugmentMatrix.

Variables (dummyweight : Q) (name : string) (g : DiGraph).
Hypothesis Hwf : wf_graph g.
Hypothesis Hfresh : forall k, (1 <= k)%nat -> ~ In (dummy name k) (nodes g).

Let g' := augment dummyweight name g.
Let S1 := ones g (nodes g).

Lemma augment_edge_old u v :
  In v (nodes g) -> get_edge g' u v = get_edge g u v.
Proof.
  intros Hv. unfold get_edge, g'.
  rewrite augment_edges, get_edge_in_app by assumption.
  destruct (get_edge_in (edges g) u v) eqn:E; [reflexivity|].
  apply get_edge_in_None. intros H.
  apply in_map_iff in H. destruct H as (e & Hk & He).
  apply In_dummy_edges in He. destruct He as (x & k & -> & _ & Hk').
  simpl in Hk. injection Hk as _ <-.
  revert Hv. apply Hfresh. lia.
Qed.

Lemma augment_edge_from_dummy k v :
  (1 <= k)%nat -> get_edge g' (dummy name k) v = None.
Proof.
  intros Hk. unfold get_edge, g'.
  rewrite augment_edges, get_edge_in_app by assumption.
  fold (get_edge g (dummy name k) v).
  rewrite no_edge_from_new by auto.
  apply get_edge_in_None. intros H.
  apply in_map_iff in H. destruct H as (e & Hk1 & He).
  apply In_dummy_edges in He. destruct He as (x & j & -> & Hx & _).
  simpl in Hk1. injection Hk1 as -> _.
  apply In_ones in Hx. destruct Hx as [Hx _].
  revert Hx. now apply Hfresh.
Qed.

Lemma dummy_column u l : forall c,
  map (fun k => get_edge_in (dummy_edges dummyweight name l c) u (dummy name k))
      (seq c (length l)) =
  map (fun n1 => if String.eqb n1 u then Some dummyweight else None) l.
Proof.
  induction l as [|x l IH]; intros c; [reflexivity|].
  cbn [length seq map]. f_equal.
  - replace c with (c + 0)%nat at 2 by lia.
    now apply get_edge_in_dummy_edges.
  - rewrite <- (IH (S c)). apply map_ext_in. intros k Hk. apply in_seq in Hk.
    rewrite dummy_edges_cons. cbn [get_edge_in]. unfold same_edge at 1.
    cbn [fst snd].
    destruct (String.eqb_spec (dummy name c) (dummy name k)) as [E|E].
    + apply dummy_name_inj in E. lia.
    + now rewrite andb_false_r.
Qed.

Lemma to_numpy_matrix_augment weight :
  to_numpy_matrix g' weight = augmented_matrix dummyweight g weight.
Proof.
  unfold to_numpy_matrix, augmented_matrix.
  assert (En : nodes g' = nodes g ++ dummy_nodes name 1 (length S1))
    by now apply augment_nodes.
  rewrite !En. rewrite map_app. f_equal.
  - apply map_ext_in. intros u Hu. rewrite map_app. f_equal.
    + apply map_ext_in. intros v Hv. now rewrite augment_edge_old.
    + unfold dummy_nodes. rewrite map_map.
      rewrite <- (map_map (fun n1 => if String.eqb n1 u
                                     then Some dummyweight else None)
                          (cell weight)).
      rewrite <- dummy_column with (c := 1%nat). rewrite map_map.
      apply map_ext_in. intros k Hk. f_equal.
      unfold get_edge, g'. rewrite augment_edges, get_edge_in_app by assumption.
      fold (get_edge g u (dummy name k)).
      rewrite no_edge_to_new; [reflexivity | assumption |].
      apply Hfresh. apply in_seq in Hk. lia.
  - assert (Hlen : length (dummy_nodes name 1 (length S1)) = length S1)
      by (unfold dummy_nodes; now rewrite length_map, length_seq).
    transitivity
      (map (fun _ : string => repeat 0 (length (nodes g) + length S1))
           (dummy_nodes name 1 (length S1))).
    + apply map_ext_in. intros d Hd.
      apply In_dummy_nodes in Hd. destruct Hd as (k & -> & Hk).
      replace (repeat 0 (length (nodes g) + length S1))
        with (map (fun _ : string => 0)
                  (nodes g ++ dummy_nodes name 1 (length S1)))
        by (now rewrite map_const_repeat, length_app, Hlen).
      apply map_ext. intros v.
      rewrite augment_edge_from_dummy by lia. reflexivity.
    + now rewrite map_const_repeat, Hlen.
Qed.

End AugmentMatrix.

(** With two prefixes that both give new names, [buildcase] returns the same
    connection and gain matrices. *)
Lemma buildcase_prefix_irrelevant dummyweight name1 name2 g h1 h2 r1 r2 :
  wf_graph g ->
  (forall k, (1 <= k)%nat -> ~ In (dummy name1 k) (nodes g)) ->
  (forall k, (1 <= k)%nat -> ~ In (dummy name2 k) (nodes g)) ->
  deref h1 r1 = Some g -> deref h2 r2 = Some g ->
  exists c gn v1 v2,
    fst (buildcase dummyweight r1 name1 h1) = Some (c, gn, v1) /\
    fst (buildcase dummyweight r2 name2 h2) = Some (c, gn, v2).
Proof.
  intros Hwf F1 F2 H1 H2.
  rewrite (@buildcase_eq dummyweight name1 h1 r1 g H1).
  rewrite (@buildcase_eq dummyweight name2 h2 r2 g H2).
  cbn [fst]. rewrite !to_numpy_matrix_augment by assumption.
  eauto 10.
Qed.

(** ** Loops *)

Section ForEach.

Context {S A : Type}.

Lemma for_each_app (l1 l2 : list A) (body : S -> A -> result S) (s : S) :
  for_each (l1 ++ l2) body s = s' <- for_each l1 body s ;; for_each l2 body s'.
Proof.
  revert s. induction l1 as [|x l1 IH]; intros s; simpl; [reflexivity|].
  destruct (body s x); simpl; auto.
Qed.

(** an invariant indexed by the elements already handled; every step
    succeeds under it, hence the loop does *)
Lemma for_each_total (P : list A -> S -> Prop) (Qx : A -> Prop)
      (body : S -> A -> result S) :
  (forall done x s, Qx x -> P done s ->
                    exists s', body s x = Ok s' /\ P (done ++ [x]) s') ->
  forall rest done s,
    Forall Qx rest -> P done s ->
    exists r, for_each rest body s = Ok r /\ P (done ++ rest) r.
Proof.
  intros Hstep. induction rest as [|x rest IH]; intros done s HQ HP.
  - exists s. rewrite app_nil_r. split; [reflexivity | exact HP].
  - inversion HQ as [|? ? Hx Hrest]; subst.
    destruct (Hstep done x s Hx HP) as (s' & Hb & HP').
    destruct (IH (done ++ [x]) s' Hrest HP') as (r & Hr & HPr).
    exists r. simpl. rewrite Hb. simpl. rewrite <- app_assoc in HPr.
    split; [exact Hr | exact HPr].
Qed.

End ForEach.

(** a nested loop is a loop over the pairs, outer index first *)
Lemma for_each_nested {S A B : Type} (l1 : list A) (l2 : list B)
      (body : A -> S -> B -> result S) (s : S) :
  for_each l1 (fun s x => for_each l2 (body x) s) s =
  for_each (list_prod l1 l2) (fun s p => body (fst p) s (snd p)) s.
Proof.
  revert s. induction l1 as [|x l1 IH]; intros s; simpl; [reflexivity|].
  rewrite for_each_app.
  assert (E : for_each (map (fun y => (x, y)) l2)
                       (fun s p => body (fst p) s (snd p)) s
              = for_each l2 (body x) s).
  { clear. revert s. induction l2 as [|y l2 IH2]; intros s; simpl; [reflexivity|].
    destruct (body x s y); simpl; auto. }
  rewrite E. destruct (for_each l2 (body x) s); simpl; auto.
Qed.

Lemma In_enumerate {A : Type} (l : list A) (i : nat) (x : A) :
  In (i, x) (enumerate l) <-> nth_error l i = Some x.
Proof.
  unfold enumerate.
  assert (H : forall c, In (i, x) (combine (seq c (length l)) l) <->
                        (c <= i)%nat /\ nth_error l (i - c) = Some x).
  { induction l as [|y l IH]; intros c; simpl.
    - split; [tauto|]. intros [_ H]. now destruct (i - c)%nat.
    - rewrite IH. split.
      + intros [H|[H1 H2]].
        * injection H as -> ->. rewrite Nat.sub_diag. split; [lia | reflexivity].
        * split; [lia|]. replace (i - c)%nat with (S (i - S c)) by lia. exact H2.
      + intros [H1 H2]. destruct (Nat.eq_dec c i) as [->|Hne].
        * rewrite Nat.sub_diag in H2. simpl in H2. injection H2 as ->. now left.
        * right. split; [lia|].
          replace (i - c)%nat with (S (i - S c)) in H2 by lia. exact H2. }
  rewrite H, Nat.sub_0_r. split; [tauto | intros; split; [lia | assumption]].
Qed.

Lemma mat_get_entry (M : matrix) (n r c : nat) :
  length M = n -> rect n M -> (r < n)%nat -> (c < n)%nat ->
  mat_get M r c = Ok (entry M r c).
Proof.
  intros Hl Hr Hrn Hcn. unfold mat_get, entry.
  destruct (nth_error M r) as [row|] eqn:E;
    [|apply nth_error_None in E; lia].
  rewrite (nth_error_nth _ _ [] E).
  assert (Hrow : length row = n).
  { unfold rect in Hr. rewrite Forall_forall in Hr. apply Hr.
    eapply nth_error_In; eauto. }
  destruct (nth_error row c) as [x|] eqn:E2;
    [|apply nth_error_None in E2; lia].
  now rewrite (nth_error_nth _ _ 0 E2).
Qed.

(** ** [buildgraph] *)

Section BuildGraph.

Variables (variables : list string) (gainmatrix connections : matrix).
Let n := length variables.
Hypothesis Hnodup : NoDup variables.
Hypothesis Hg_rows : length gainmatrix = n.
Hypothesis Hg_rect : rect n gainmatrix.
Hypothesis Hc_rows : length connections = n.
Hypothesis Hc_rect : rect n connections.

Let item : Type := ((nat * string) * (nat * string))%type.

Lemma item_ok_inj p q :
  item_ok variables p -> item_ok variables q ->
  snd (fst p) = snd (fst q) -> snd (snd p) = snd (snd q) ->
  fst (fst p) = fst (fst q) /\ fst (snd p) = fst (snd q).
Proof.
  intros [Hp1 Hp2] [Hq1 Hq2] E1 E2.
  rewrite E1 in Hp1. rewrite E2 in Hp2.
  split; eapply NoDup_nth_error; eauto; try congruence;
    apply nth_error_Some; congruence.
Qed.

Lemma built_step done p g :
  item_ok variables p -> built variables gainmatrix connections done g ->
  exists g', buildgraph_inner gainmatrix connections
                              (fst (fst p)) (snd (fst p)) g (snd p) = Ok g'
             /\ built variables gainmatrix connections (done ++ [p]) g'.
Proof.
  intros Hp (Hwf & Hok & Hnodes & Hedges).
  destruct p as [[col colvar] [row rowvar]]. simpl.
  assert (Hcol : (col < n)%nat)
    by (apply nth_error_Some; destruct Hp as [Hp _]; simpl in Hp; congruence).
  assert (Hrow : (row < n)%nat)
    by (apply nth_error_Some; destruct Hp as [_ Hp]; simpl in Hp; congruence).
  rewrite (mat_get_entry Hc_rows Hc_rect Hrow Hcol). simpl.
  assert (Hok' : Forall (item_ok variables) (done ++ [((col, colvar), (row, rowvar))]))
    by (apply Forall_app; split; [exact Hok | constructor; [exact Hp | constructor]]).
  destruct (Qeq_bool (entry connections row col) 0) eqn:Ez; simpl.
  - (* no connection: the graph is left as it is *)
    exists g. split; [reflexivity|]. split; [exact Hwf|]. split; [exact Hok'|].
    split.
    + intros v. rewrite Hnodes. split; intros (q & Hq & Ha & Hv).
      * exists q. rewrite in_app_iff. tauto.
      * rewrite in_app_iff in Hq. destruct Hq as [Hq|[<-|[]]].
        -- exists q. tauto.
        -- unfold active in Ha. simpl in Ha. congruence.
    + intros u v w. rewrite Hedges. split; intros (q & Hq & Ha & Hv).
      * exists q. rewrite in_app_iff. tauto.
      * rewrite in_app_iff in Hq. destruct Hq as [Hq|[<-|[]]].
        -- exists q. tauto.
        -- unfold active in Ha. simpl in Ha. congruence.
  - rewrite (mat_get_entry Hg_rows Hg_rect Hrow Hcol). simpl.
    eexists. split; [reflexivity|].
    split; [now apply wf_add_edge|]. split; [exact Hok'|]. split.
    + intros v. rewrite In_nodes_add_edge, Hnodes. split.
      * intros [(q & Hq & Ha & Hv)|Hv].
        -- exists q. rewrite in_app_iff. tauto.
        -- exists ((col, colvar), (row, rowvar)). rewrite in_app_iff. simpl.
           unfold active. simpl. tauto.
      * intros (q & Hq & Ha & Hv). rewrite in_app_iff in Hq.
        destruct Hq as [Hq|[<-|[]]]; [left; exists q; tauto | simpl in Hv; tauto].
    + intros u v w. rewrite get_edge_add_edge.
      destruct (String.eqb_spec colvar u) as [<-|Hu];
        [destruct (String.eqb_spec rowvar v) as [<-|Hv]|]; simpl.
      * split.
        -- intros [= <-]. exists ((col, colvar), (row, rowvar)).
           rewrite in_app_iff. simpl. unfold active. simpl. tauto.
        -- intros (q & Hq & Ha & E1 & E2 & ->).
           assert (Hq' : (item_ok variables) q).
           { rewrite Forall_forall in Hok'. now apply Hok'. }
           destruct (@item_ok_inj ((col, colvar), (row, rowvar)) q Hp Hq' E1 E2)
             as [<- <-].
           reflexivity.
      * rewrite Hedges. split; intros (q & Hq & Ha & E1 & E2 & E3).
        -- exists q. rewrite in_app_iff. tauto.
        -- rewrite in_app_iff in Hq. destruct Hq as [Hq|[<-|[]]];
             [exists q; tauto | simpl in E2; congruence].
      * rewrite Hedges. split; intros (q & Hq & Ha & E1 & E2 & E3).
        -- exists q. rewrite in_app_iff. tauto.
        -- rewrite in_app_iff in Hq. destruct Hq as [Hq|[<-|[]]];
             [exists q; tauto | simpl in E1; congruence].
Qed.

Lemma built_empty : (built variables gainmatrix connections) [] empty_graph.
Proof.
  split; [exact wf_empty|]. split; [constructor|]. split.
  - intros v. simpl. split; [tauto | intros (p & [] & _)].
  - intros u v w. simpl. split; [discriminate | intros (p & [] & _)].
Qed.

Lemma buildgraph_built :
  exists g, buildgraph variables gainmatrix connections = Ok g /\
            built variables gainmatrix connections
                  (list_prod (enumerate variables) (enumerate variables)) g.
Proof.
  unfold buildgraph.
  rewrite (for_each_nested (enumerate variables) (enumerate variables)
             (fun cv m_graph rv =>
                buildgraph_inner gainmatrix connections (fst cv) (snd cv)
                                 m_graph rv)).
  apply (@for_each_total _ _ (built variables gainmatrix connections)
                         (item_ok variables)) with (done := []).
  - intros done p g Hp Hb. now apply built_step.
  - apply Forall_forall. intros [[col colvar] [row rowvar]] H.
    apply in_prod_iff in H. rewrite !In_enumerate in H. exact H.
  - exact built_empty.
Qed.

End BuildGraph.

(** ** Properties of [formatmatrices.py] *)

Lemma for_each_inv {S A : Type} (P : S -> Prop) (body : S -> A -> result S)
      (l : list A) :
  (forall s x s', In x l -> P s -> body s x = Ok s' -> P s') ->
  forall s r, P s -> for_each l body s = Ok r -> P r.
Proof.
  induction l as [|x l IH]; intros Hstep s r Hs Hr; simpl in Hr.
  - now injection Hr as <-.
  - destruct (body s x) as [s'|e] eqn:E; simpl in Hr; [|discriminate].
    apply IH with (s := s'); auto.
    + intros s0 y s1 Hy. apply Hstep. now right.
    + eapply Hstep; eauto. now left.
Qed.

(** whatever the matrices, a graph returned by [buildgraph] is a proper
    graph object over the given variables *)
Lemma buildgraph_wf variables gainmatrix connections g :
  buildgraph variables gainmatrix connections = Ok g ->
  wf_graph g /\ forall n, In n (nodes g) -> In n variables.
Proof.
  unfold buildgraph.
  rewrite (for_each_nested (enumerate variables) (enumerate variables)
             (fun cv m_graph rv =>
                buildgraph_inner gainmatrix connections (fst cv) (snd cv)
                                 m_graph rv)).
  apply for_each_inv
    with (P := fun g => wf_graph g /\ forall n, In n (nodes g) -> In n variables).
  - intros s [[col colvar] [row rowvar]] s' Hin [Hwf Hsub] Hb.
    apply in_prod_iff in Hin. rewrite !In_enumerate in Hin.
    destruct Hin as [H1 H2]. apply nth_error_In in H1, H2.
    simpl in Hb. unfold buildgraph_inner in Hb.
    destruct (mat_get connections row col) as [c|]; simpl in Hb; [|discriminate].
    destruct (Qeq_bool c 0); simpl in Hb.
    + injection Hb as <-. auto.
    + destruct (mat_get gainmatrix row col) as [w|]; simpl in Hb; [|discriminate].
      injection Hb as <-. split; [now apply wf_add_edge|].
      intros n Hn. apply In_nodes_add_edge in Hn.
      destruct Hn as [Hn|[->| ->]]; auto.
  - split; [exact wf_empty | intros n []].
Qed.

Lemma deref_alloc h g : deref (snd (alloc h g)) (fst (alloc h g)) = Some g.
Proof.
  unfold alloc, deref. simpl. rewrite nth_error_app2 by lia.
  now rewrite Nat.sub_diag.
Qed.


Lemma out_degree_add_edge_other g u v w n :
  n <> u -> out_degree (add_edge g u v w) n = out_degree g n.
Proof.
  intros Hn. unfold out_degree. rewrite edges_add_edge.
  induction (edges g) as [|e es IH]; simpl.
  - destruct (String.eqb_spec u n); [congruence | reflexivity].
  - destruct (same_edge u v e) eqn:E; simpl.
    + apply same_edge_true in E. rewrite E. simpl.
      destruct (String.eqb_spec u n); [congruence | reflexivity].
    + destruct (String.eqb (fst (fst e)) n); simpl; now rewrite IH.
Qed.

(** what the loop of [buildcase] does to a graph object, whatever the names *)
Lemma augment_fold_general dummyweight name (l : list string) :
  forall gi c, NoDup l ->
    let gf := fst (fold_left (augment_step dummyweight name) l (gi, c)) in
    (forall n, In n (nodes gi) -> In n (nodes gf)) /\
    (forall n v, ~ In n l -> get_edge gf n v = get_edge gi n v) /\
    (forall n, In n l -> out_degree gi n = 1%nat ->
               exists k, (c <= k)%nat /\ In (dummy name k) (nodes gf) /\
                         get_edge gf n (dummy name k) = Some dummyweight).
Proof.
  induction l as [|x l IH]; intros gi c Hnd; cbn [fold_left].
  - simpl. repeat split; auto. intros n [].
  - inversion Hnd as [|? ? Hx Hl]; subst.
    destruct (Nat.eqb (out_degree gi x) 1) eqn:E.
    + replace (augment_step dummyweight name (gi, c) x)
        with (add_edge gi x (dummy name c) dummyweight, S c)
        by (unfold augment_step; now rewrite E).
      specialize (IH (add_edge gi x (dummy name c) dummyweight) (S c) Hl).
      cbv zeta in IH. destruct IH as (IH1 & IH2 & IH3). cbv zeta.
      split; [|split].
      * intros n Hn. apply IH1. rewrite In_nodes_add_edge. tauto.
      * intros n v Hn. simpl in Hn. rewrite IH2 by tauto.
        rewrite get_edge_add_edge.
        destruct (String.eqb_spec x n); [tauto | reflexivity].
      * intros n [<-|Hn] H1.
        -- exists c. split; [lia|]. split.
           ++ apply IH1. rewrite In_nodes_add_edge. tauto.
           ++ rewrite IH2 by exact Hx. rewrite get_edge_add_edge.
              now rewrite !String.eqb_refl.
        -- destruct (IH3 n Hn) as (k & Hk & Hin & He).
           ++ rewrite out_degree_add_edge_other; [exact H1|].
              intros ->. contradiction.
           ++ exists k. split; [lia | tauto].
    + replace (augment_step dummyweight name (gi, c) x) with (gi, c)
        by (unfold augment_step; now rewrite E).
      specialize (IH gi c Hl). cbv zeta in IH.
      destruct IH as (IH1 & IH2 & IH3). cbv zeta.
      split; [exact IH1|]. split.
      * intros n v Hn. simpl in Hn. apply IH2. tauto.
      * intros n [<-|Hn] H1.
        -- apply Nat.eqb_neq in E. contradiction.
        -- now apply IH3.
Qed.

(** C10: [buildcase] works on the caller's graph object.  After the call the
    reference passed as [m_graph] denotes the augmented graph, the one the
    returned matrices and variable list are read from; it holds a dummy node
    and a dummy edge of weight [dummyweight] for every node that had a single
    successor; no other object of the store is touched; and when some node
    had a single successor and the dummy names are new, the object is no
    longer what it was before the call. *)
Theorem buildcase_mutates_in_place (dummyweight : Q) (name : string)
        (h : heap) (m_graph : ref) (g : DiGraph) :
  deref h m_graph = Some g ->
  wf_graph g ->
  exists g' h',
    buildcase dummyweight m_graph name h =
      (Some (transpose (to_numpy_matrix g' false),
             transpose (to_numpy_matrix g' true),
             nodes g'), h') /\
    deref h' m_graph = Some g' /\
    (forall r, r <> m_graph -> deref h' r = deref h r) /\
    (forall n, In n (nodes g) -> In n (nodes g')) /\
    (forall n, In n (nodes g) -> out_degree g n = 1%nat ->
               exists k, In (name ++ str k)%string (nodes g') /\
                         get_edge g' n (name ++ str k)%string = Some dummyweight) /\
    ((exists n, In n (nodes g) /\ out_degree g n = 1%nat) ->
     (forall k, (1 <= k)%nat -> ~ In (name ++ str k)%string (nodes g)) ->
     deref h' m_graph <> deref h m_graph).
Proof.
  intros Hg Hwf.
  exists (augment dummyweight name g), (store h m_graph (augment dummyweight name g)).
  split; [now apply buildcase_eq|].
  split; [eapply deref_store; eauto|].
  split; [intros r Hr; now apply deref_store_other|].
  destruct (@augment_fold_general dummyweight name (nodes g) g 1%nat
              (wf_nodes Hwf)) as (H1 & _ & H3).
  split; [exact H1|]. split.
  - intros n Hn Ho. destruct (H3 n Hn Ho) as (k & _ & Hk). eauto.
  - intros (n & Hn & Ho) Hfresh.
    rewrite Hg, deref_store with (g0 := g) by exact Hg.
    intros E. injection E as E.
    assert (Hlen : length (nodes (augment dummyweight name g)) = length (nodes g))
      by now rewrite E.
    rewrite augment_nodes, length_app in Hlen by assumption.
    unfold dummy_nodes in Hlen. rewrite length_map, length_seq in Hlen.
    assert (Hin : In n (ones g (nodes g))) by (apply In_ones; tauto).
    destruct (ones g (nodes g)); [contradiction | simpl in Hlen; lia].
Qed.

Lemma wf_g_ab : wf_graph g_ab.
Proof. apply wf_add_edge, wf_empty. Qed.

Lemma buildcase_mutates_in_place_witness :
  deref [g_ab] 0%nat = Some g_ab /\ wf_graph g_ab /\
  exists g' h',
    buildcase 1 0%nat "DV" [g_ab] =
      (Some (transpose (to_numpy_matrix g' false),
             transpose (to_numpy_matrix g' true),
             nodes g'), h') /\
    deref h' 0%nat = Some g' /\
    (forall r, r <> 0%nat -> deref h' r = deref [g_ab] r) /\
    (forall n, In n (nodes g_ab) -> In n (nodes g')) /\
    (forall n, In n (nodes g_ab) -> out_degree g_ab n = 1%nat ->
               exists k, In ("DV" ++ str k)%string (nodes g') /\
                         get_edge g' n ("DV" ++ str k)%string = Some 1) /\
    ((exists n, In n (nodes g_ab) /\ out_degree g_ab n = 1%nat) ->
     (forall k, (1 <= k)%nat -> ~ In ("DV" ++ str k)%string (nodes g_ab)) ->
     deref h' 0%nat <> deref [g_ab] 0%nat).
Proof.
  split; [reflexivity|]. split; [exact wf_g_ab|].
  apply (@buildcase_mutates_in_place 1 "DV" [g_ab] 0%nat g_ab);
    [reflexivity | exact wf_g_ab].
Defined.


Lemma fresh_DV_g_ab :
  forall k, (1 <= k)%nat -> ~ In ("DV" ++ str k)%string (nodes g_ab).
Proof. intros k _ [H|[H|[]]]; discriminate H. Qed.





(** C5 (amended): for distinct variables and [n x n] matrices, [buildgraph]
    returns a graph whose nodes are exactly the variables that have a
    nonzero connection entry in their row or in their column (a variable
    with none is not a node), and which has the edge [col -> row], with
    weight [gainmatrix[row, col]], exactly when [connections[row, col] != 0]. *)
Theorem buildgraph_nodes_and_edges (variables : list string)
        (gainmatrix connections : matrix) :
  NoDup variables ->
  length gainmatrix = length variables ->
  rect (length variables) gainmatrix ->
  length connections = length variables ->
  rect (length variables) connections ->
  exists g,
    buildgraph variables gainmatrix connections = Ok g /\
    (forall v, In v (nodes g) <->
               exists row col,
                 (row < length variables)%nat /\ (col < length variables)%nat /\
                 ~ entry connections row col == 0 /\
                 (v = nth col variables ""%string \/
                  v = nth row variables ""%string)) /\
    (forall row col,
        (row < length variables)%nat -> (col < length variables)%nat ->
        get_edge g (nth col variables ""%string) (nth row variables ""%string) =
        if Qeq_bool (entry connections row col) 0 then None
        else Some (entry gainmatrix row col)) /\
    (forall u v w,
        get_edge g u v = Some w ->
        exists row col,
          (row < length variables)%nat /\ (col < length variables)%nat /\
          u = nth col variables ""%string /\ v = nth row variables ""%string /\
          ~ entry connections row col == 0 /\ w = entry gainmatrix row col).
Proof.
  intros Hnd Hg1 Hg2 Hc1 Hc2.
  destruct (@buildgraph_built variables gainmatrix connections Hnd Hg1 Hg2 Hc1 Hc2)
    as (g & Hb & Hwf & Hok & Hnodes & Hedges).
  assert (Hmem : forall p : (nat * string) * (nat * string),
             In p (list_prod (enumerate variables) (enumerate variables)) <->
             item_ok variables p).
  { intros [[col colvar] [row rowvar]].
    rewrite in_prod_iff, !In_enumerate. reflexivity. }
  assert (Hitem : forall row col,
             (row < length variables)%nat -> (col < length variables)%nat ->
             item_ok variables ((col, nth col variables ""%string),
                                (row, nth row variables ""%string))).
  { intros row col Hr Hc. split; simpl; now apply nth_error_nth'. }
  assert (Hact : forall p, active connections p <->
                           ~ entry connections (fst (snd p)) (fst (fst p)) == 0).
  { intros p. unfold active. rewrite <- Qeq_bool_iff.
    destruct (Qeq_bool _ 0); split; congruence. }
  exists g. split; [exact Hb|]. split; [|split].
  - intros v. rewrite Hnodes. split.
    + intros ([[col colvar] [row rowvar]] & Hp & Ha & Hv).
      apply Hmem in Hp. apply Hact in Ha. simpl in *.
      destruct Hp as [Hp1 Hp2]. simpl in *.
      exists row, col.
      split; [apply nth_error_Some; congruence|].
      split; [apply nth_error_Some; congruence|].
      split; [exact Ha|].
      rewrite (nth_error_nth _ _ ""%string Hp1), (nth_error_nth _ _ ""%string Hp2).
      exact Hv.
    + intros (row & col & Hr & Hc & Ha & Hv).
      exists ((col, nth col variables ""%string), (row, nth row variables ""%string)).
      split; [apply Hmem; now apply Hitem|].
      split; [apply Hact; exact Ha | exact Hv].
  - intros row col Hr Hc.
    destruct (Qeq_bool (entry connections row col) 0) eqn:Ez.
    + destruct (get_edge g (nth col variables ""%string)
                         (nth row variables ""%string)) as [w|] eqn:Eg;
        [|reflexivity].
      apply Hedges in Eg. destruct Eg as (q & Hq & Ha & E1 & E2 & _).
      apply Hmem in Hq.
      destruct (@item_ok_inj variables Hnd _ q (Hitem row col Hr Hc) Hq E1 E2)
        as [Hi Hj].
      simpl in Hi, Hj. unfold active in Ha. rewrite <- Hi, <- Hj in Ha.
      congruence.
    + apply Hedges.
      exists ((col, nth col variables ""%string), (row, nth row variables ""%string)).
      split; [apply Hmem; now apply Hitem|].
      unfold active. simpl. auto.
  - intros u v w Hw. apply Hedges in Hw.
    destruct Hw as ([[col colvar] [row rowvar]] & Hp & Ha & -> & -> & ->).
    apply Hmem in Hp. apply Hact in Ha. destruct Hp as [Hp1 Hp2]. simpl in *.
    exists row, col.
    split; [apply nth_error_Some; congruence|].
    split; [apply nth_error_Some; congruence|].
    rewrite (nth_error_nth _ _ ""%string Hp1), (nth_error_nth _ _ ""%string Hp2).
    auto.
Qed.

Lemma NoDup_vars_abc : NoDup vars_abc.
Proof.
  repeat constructor; simpl; intuition discriminate.
Qed.

Lemma rect3 (M : matrix) : rectb 3 M = true -> rect 3 M.
Proof.
  unfold rectb, rect. rewrite forallb_forall, Forall_forall.
  intros H row Hr. apply Nat.eqb_eq. now apply H.
Qed.

Lemma buildgraph_nodes_and_edges_witness :
  NoDup vars_abc /\
  length gain_ab = length vars_abc /\
  rect (length vars_abc) gain_ab /\
  length conn_ab = length vars_abc /\
  rect (length vars_abc) conn_ab /\
  exists g,
    buildgraph vars_abc gain_ab conn_ab = Ok g /\
    (forall v, In v (nodes g) <->
               exists row col,
                 (row < length vars_abc)%nat /\ (col < length vars_abc)%nat /\
                 ~ entry conn_ab row col == 0 /\
                 (v = nth col vars_abc ""%string \/
                  v = nth row vars_abc ""%string)) /\
    (forall row col,
        (row < length vars_abc)%nat -> (col < length vars_abc)%nat ->
        get_edge g (nth col vars_abc ""%string) (nth row vars_abc ""%string) =
        if Qeq_bool (entry conn_ab row col) 0 then None
        else Some (entry gain_ab row col)) /\
    (forall u v w,
        get_edge g u v = Some w ->
        exists row col,
          (row < length vars_abc)%nat /\ (col < length vars_abc)%nat /\
          u = nth col vars_abc ""%string /\ v = nth row vars_abc ""%string /\
          ~ entry conn_ab row col == 0 /\ w = entry gain_ab row col).
Proof.
  split; [exact NoDup_vars_abc|]. split; [reflexivity|].
  split; [apply rect3; reflexivity|]. split; [reflexivity|].
  split; [apply rect3; reflexivity|].
  apply (@buildgraph_nodes_and_edges vars_abc gain_ab conn_ab);
    [exact NoDup_vars_abc | reflexivity | apply rect3; reflexivity
     | reflexivity | apply rect3; reflexivity].
Defined.

(** C5 (as stated) fails: the variable ["c"] has no nonzero connection entry
    in its row or column and is not a node of the graph that [buildgraph]
    returns, so the node set is not the variable list. *)
Lemma buildgraph_drops_isolated :
  exists g,
    buildgraph vars_abc gain_ab conn_ab = Ok g /\
    nodes g = ["a"; "b"]%string /\
    In "c"%string vars_abc /\
    ~ In "c"%string (nodes g).
Proof.
  eexists. split; [reflexivity|]. split; [reflexivity|].
  split; [simpl; auto|].
  simpl. intuition discriminate.
Qed.

(** ** Properties of [noderank.py] *)

(** ** Sums of rationals *)

Lemma fold_Qplus_acc (l : list Q) (a : Q) : fold_left Qplus l a == a + sum l.
Proof.
  unfold sum. revert a. induction l as [|x l IH]; intros a; simpl.
  - ring.
  - rewrite (IH (a + x)), (IH (0 + x)). ring.
Qed.

Lemma sum_nil : sum [] = 0.
Proof. reflexivity. Qed.

Lemma sum_cons (x : Q) (l : list Q) : sum (x :: l) == x + sum l.
Proof. unfold sum at 1. simpl. rewrite fold_Qplus_acc. ring. Qed.

Lemma sum_app (l1 l2 : list Q) : sum (l1 ++ l2) == sum l1 + sum l2.
Proof.
  induction l1 as [|x l1 IH]; simpl.
  - rewrite sum_nil. ring.
  - rewrite !sum_cons, IH. ring.
Qed.

Lemma sum_map_mult (f : Q) (l : list Q) : sum (map (Qmult f) l) == f * sum l.
Proof.
  induction l as [|x l IH]; simpl.
  - rewrite sum_nil. ring.
  - rewrite !sum_cons, IH. ring.
Qed.

Lemma sum_map_div (t : Q) (l : list Q) :
  sum (map (fun x => x / t) l) == sum l / t.
Proof.
  induction l as [|x l IH]; simpl.
  - rewrite sum_nil. unfold Qdiv. ring.
  - rewrite !sum_cons, IH. unfold Qdiv. ring.
Qed.

Lemma sum_nonneg (l : list Q) : Forall (fun x => 0 <= x) l -> 0 <= sum l.
Proof.
  induction 1 as [|x l Hx Hl IH].
  - rewrite sum_nil. apply Qle_refl.
  - rewrite sum_cons.
    setoid_replace 0 with (0 + 0) at 1 by ring.
    now apply Qplus_le_compat.
Qed.

Lemma pydiv_Ok (x y q : Q) : pydiv x y = Ok q -> ~ y == 0 /\ q = x / y.
Proof.
  unfold pydiv. destruct (Qeq_bool y 0) eqn:E; [discriminate|].
  intros [= <-]. split; [now apply Qeq_bool_neq | reflexivity].
Qed.

Lemma pydiv_nonzero (x y : Q) : ~ y == 0 -> pydiv x y = Ok (x / y).
Proof.
  intros H. unfold pydiv. destruct (Qeq_bool y 0) eqn:E; [|reflexivity].
  apply Qeq_bool_iff in E. contradiction.
Qed.

(** ** Dictionaries *)

Section DictFacts.

Import PyDict.
Context {V : Type}.
Implicit Types (d : dict V) (k : string) (v : V).

Lemma get_set d k v k' :
  get (set d k v) k' = if String.eqb k k' then Some v else get d k'.
Proof.
  induction d as [|[a x] d IH]; simpl.
  - reflexivity.
  - destruct (String.eqb_spec a k) as [->|Hak]; simpl.
    + destruct (String.eqb_spec k k'); reflexivity.
    + rewrite IH. destruct (String.eqb_spec a k') as [->|Hak'].
      * destruct (String.eqb_spec k k'); [congruence | reflexivity].
      * reflexivity.
Qed.

Lemma get_None_keys d k : get d k = None <-> ~ In k (keys d).
Proof.
  unfold keys. induction d as [|[a x] d IH]; simpl; [tauto|].
  destruct (String.eqb_spec a k) as [->|Hak].
  - split; [discriminate | intros H; elim H; auto].
  - rewrite IH. tauto.
Qed.

Lemma set_new d k v : ~ In k (keys d) -> set d k v = d ++ [(k, v)].
Proof.
  unfold keys. induction d as [|[a x] d IH]; simpl; intros H; [reflexivity|].
  destruct (String.eqb_spec a k) as [->|Hak]; [tauto|].
  rewrite IH by tauto. reflexivity.
Qed.

Lemma set_middle d1 d2 k v v' :
  ~ In k (keys d1) -> set (d1 ++ (k, v) :: d2) k v' = d1 ++ (k, v') :: d2.
Proof.
  unfold keys. induction d1 as [|[a x] d1 IH]; simpl; intros H.
  - now rewrite String.eqb_refl.
  - destruct (String.eqb_spec a k) as [->|Hak]; [tauto|].
    rewrite IH by tauto. reflexivity.
Qed.

Lemma get_middle d1 d2 k v :
  ~ In k (keys d1) -> get (d1 ++ (k, v) :: d2) k = Some v.
Proof.
  unfold keys. induction d1 as [|[a x] d1 IH]; simpl; intros H.
  - now rewrite String.eqb_refl.
  - destruct (String.eqb_spec a k) as [->|Hak]; [tauto|].
    apply IH. tauto.
Qed.

(** [dict(zip(keys, values))] for distinct keys *)
Lemma of_pairs_NoDup (l : list (string * V)) :
  NoDup (map fst l) -> of_pairs l = l.
Proof.
  unfold of_pairs.
  assert (H : forall d, NoDup (map fst (d ++ l)) ->
                        fold_left (fun d kv => set d (fst kv) (snd kv)) l d
                        = d ++ l).
  { induction l as [|[k v] l IH]; intros d Hnd; simpl.
    - now rewrite app_nil_r.
    - rewrite set_new.
      + rewrite IH; rewrite <- app_assoc; [reflexivity | exact Hnd].
      + rewrite map_app in Hnd. simpl in Hnd.
        apply NoDup_remove_2 in Hnd. unfold keys.
        rewrite in_app_iff in Hnd. tauto. }
  intros Hnd. apply (H []). exact Hnd.
Qed.

End DictFacts.

Lemma sum_map_ext {A : Type} (f g : A -> Q) (l : list A) :
  (forall x, In x l -> f x == g x) -> sum (map f l) == sum (map g l).
Proof.
  induction l as [|x l IH]; intros H; cbn [map]; [reflexivity|].
  rewrite !sum_cons, IH by (intros y Hy; apply H; now right).
  rewrite (H x) by now left. reflexivity.
Qed.

Lemma get_map_pairs {V : Type} (f : string -> V) (l : list string) (v : string) :
  In v l -> PyDict.get (map (fun x => (x, f x)) l) v = Some (f v).
Proof.
  induction l as [|x l IH]; simpl; [tauto|].
  destruct (String.eqb_spec x v) as [->|Hx]; [reflexivity|].
  intros [H|H]; [contradiction | auto].
Qed.

Lemma keys_map_pairs {V : Type} (f : string -> V) (l : list string) :
  PyDict.keys (map (fun x => (x, f x)) l) = l.
Proof.
  unfold PyDict.keys. rewrite map_map. simpl. apply map_id.
Qed.

Lemma values_map_pairs {V : Type} (f : string -> V) (l : list string) :
  PyDict.values (map (fun x => (x, f x)) l) = map f l.
Proof. unfold PyDict.values. now rewrite map_map. Qed.

(** ** [calc_blended_rank] *)

Section Blended.

Import PyDict.

Variables (forwardrank backwardrank : dict Q) (alpha : Q).

Lemma blend_body_Ok d v :
  present forwardrank backwardrank v ->
  blend_body forwardrank backwardrank alpha d v =
  Ok (set d v (blend forwardrank backwardrank alpha v)).
Proof.
  intros [Hf Hb]. unfold blend_body, getitem, blend, score.
  destruct (get forwardrank v); [|congruence].
  destruct (get backwardrank v); [|congruence]. reflexivity.
Qed.

Lemma blend_body_present d v d' :
  blend_body forwardrank backwardrank alpha d v = Ok d' ->
  present forwardrank backwardrank v.
Proof.
  unfold blend_body, getitem, present.
  destruct (get forwardrank v); simpl; [|discriminate].
  destruct (get backwardrank v); simpl; [|discriminate].
  intros _. split; discriminate.
Qed.

Lemma blend_loop_present l : forall d d',
  for_each l (blend_body forwardrank backwardrank alpha) d = Ok d' ->
  forall v, In v l -> present forwardrank backwardrank v.
Proof.
  induction l as [|x l IH]; intros d d' H v Hv; [contradiction|].
  simpl in H.
  destruct (blend_body forwardrank backwardrank alpha d x) as [d1|] eqn:E;
    simpl in H; [|discriminate].
  destruct Hv as [<-|Hv]; [eapply blend_body_present; eauto | eauto].
Qed.

Lemma blend_loop_Ok l : forall d,
  NoDup l -> (forall v, In v l -> ~ In v (keys d)) ->
  (forall v, In v l -> present forwardrank backwardrank v) ->
  for_each l (blend_body forwardrank backwardrank alpha) d =
  Ok (d ++ map (fun v => (v, blend forwardrank backwardrank alpha v)) l).
Proof.
  induction l as [|x l IH]; intros d Hnd Hdis Hp; simpl.
  - now rewrite app_nil_r.
  - inversion Hnd as [|? ? Hx Hl]; subst.
    rewrite blend_body_Ok by (apply Hp; now left). simpl.
    rewrite set_new by (apply Hdis; now left).
    rewrite IH; [now rewrite <- app_assoc | exact Hl | | ].
    + intros v Hv. unfold keys. rewrite map_app, in_app_iff. simpl.
      intros [H|[H|[]]].
      * revert H. apply Hdis. now right.
      * subst. contradiction.
    + intros v Hv. apply Hp. now right.
Qed.

Lemma divide_loop_Ok (total : Q) (f : string -> Q) l : forall pre,
  ~ total == 0 -> NoDup l -> (forall v, In v l -> ~ In v (keys pre)) ->
  for_each l (divide_body total) (pre ++ map (fun v => (v, f v)) l) =
  Ok (pre ++ map (fun v => (v, f v / total)) l).
Proof.
  induction l as [|x l IH]; intros pre Ht Hnd Hdis; cbn [map for_each];
    [reflexivity|].
  inversion Hnd as [|? ? Hx Hl]; subst.
  assert (E : divide_body total (pre ++ (x, f x) :: map (fun v => (v, f v)) l) x
              = Ok (pre ++ (x, f x / total) :: map (fun v => (v, f v)) l)).
  { unfold divide_body, getitem.
    rewrite get_middle by (apply Hdis; now left). cbn [bind].
    rewrite pydiv_nonzero by exact Ht. cbn [bind].
    now rewrite set_middle by (apply Hdis; now left). }
  rewrite E. cbn [bind].
  change (pre ++ (x, f x / total) :: map (fun v => (v, f v)) l)
    with (pre ++ [(x, f x / total)] ++ map (fun v => (v, f v)) l).
  rewrite app_assoc, IH; [now rewrite <- app_assoc | exact Ht | exact Hl |].
  intros v Hv. unfold keys. rewrite map_app, in_app_iff. simpl.
  intros [H|[H|[]]].
  - revert H. apply Hdis. now right.
  - subst. contradiction.
Qed.

Lemma divide_loop_Ok_nil (total : Q) (f : string -> Q) l :
  ~ total == 0 -> NoDup l ->
  for_each l (divide_body total) (map (fun v => (v, f v)) l) =
  Ok (map (fun v => (v, f v / total)) l).
Proof.
  intros Ht Hnd. apply (@divide_loop_Ok total f l []); auto.
Qed.

Lemma blend_loop_Ok_nil l :
  NoDup l -> (forall v, In v l -> present forwardrank backwardrank v) ->
  for_each l (blend_body forwardrank backwardrank alpha) [] =
  Ok (map (fun v => (v, blend forwardrank backwardrank alpha v)) l).
Proof.
  intros Hnd Hp. apply (@blend_loop_Ok l []); auto.
Qed.

Lemma divide_loop_nonzero (total : Q) l d d' :
  l <> [] -> for_each l (divide_body total) d = Ok d' -> ~ total == 0.
Proof.
  destruct l as [|x l]; [congruence|]. intros _. cbn [for_each].
  unfold divide_body at 1.
  destruct (getitem d x) as [y|]; simpl; [|discriminate].
  destruct (pydiv y total) as [q|] eqn:E; simpl; [|discriminate].
  intros _. now apply pydiv_Ok in E.
Qed.

(** the function returns under these conditions ... *)
Lemma calc_blended_rank_Ok variablelist :
  NoDup variablelist ->
  (forall v, In v variablelist -> present forwardrank backwardrank v) ->
  ~ blend_total forwardrank backwardrank alpha variablelist == 0 ->
  calc_blended_rank forwardrank backwardrank variablelist alpha =
  Ok (map (fun v => (v, blend forwardrank backwardrank alpha v /
                        blend_total forwardrank backwardrank alpha variablelist))
          variablelist,
      sorted_desc
        (map (fun v => (v, blend forwardrank backwardrank alpha v /
                           blend_total forwardrank backwardrank alpha variablelist))
             variablelist)).
Proof.
  intros Hnd Hp Ht. unfold calc_blended_rank.
  rewrite blend_loop_Ok_nil by auto. cbn [bind].
  rewrite values_map_pairs.
  fold (blend_total forwardrank backwardrank alpha variablelist).
  rewrite divide_loop_Ok_nil by auto.
  reflexivity.
Qed.

(** ... and only under these, with this result *)
Lemma calc_blended_rank_inv variablelist d l :
  NoDup variablelist ->
  calc_blended_rank forwardrank backwardrank variablelist alpha = Ok (d, l) ->
  (forall v, In v variablelist -> present forwardrank backwardrank v) /\
  (variablelist <> [] ->
   ~ blend_total forwardrank backwardrank alpha variablelist == 0) /\
  d = map (fun v => (v, blend forwardrank backwardrank alpha v /
                        blend_total forwardrank backwardrank alpha variablelist))
          variablelist /\
  l = sorted_desc d.
Proof.
  intros Hnd H. unfold calc_blended_rank in H.
  destruct (for_each variablelist
              (blend_body forwardrank backwardrank alpha) [])
    as [d1|] eqn:E1; simpl in H; [|discriminate].
  assert (Hp : forall v, In v variablelist -> present forwardrank backwardrank v)
    by (eapply blend_loop_present; eauto).
  rewrite blend_loop_Ok_nil in E1 by auto.
  injection E1 as <-. rewrite values_map_pairs in H.
  fold (blend_total forwardrank backwardrank alpha variablelist) in H.
  destruct (for_each variablelist
              (divide_body (blend_total forwardrank backwardrank alpha variablelist))
              (map (fun v => (v, blend forwardrank backwardrank alpha v)) variablelist))
    as [d2|] eqn:E2; simpl in H; [|discriminate].
  injection H as <- <-.
  split; [exact Hp|].
  destruct variablelist as [|x vs] eqn:Ev.
  - simpl in E2. injection E2 as <-. repeat split; congruence.
  - rewrite <- Ev in *.
    assert (Ht : ~ blend_total forwardrank backwardrank alpha variablelist == 0).
    { eapply divide_loop_nonzero; [|exact E2]. congruence. }
    rewrite divide_loop_Ok_nil in E2 by auto.
    injection E2 as <-. auto.
Qed.

Lemma blend_nonneg v : 0 <= blend forwardrank backwardrank alpha v.
Proof. apply Qabs_nonneg. Qed.

Lemma blend_total_nonneg l : 0 <= blend_total forwardrank backwardrank alpha l.
Proof.
  apply sum_nonneg, Forall_forall. intros x Hx.
  apply in_map_iff in Hx. destruct Hx as (v & <- & _). apply blend_nonneg.
Qed.

End Blended.

Lemma blend_alpha_0 f b v : 0 <= score f v -> blend f b 0 v == score f v.
Proof.
  intros H. unfold blend.
  setoid_replace ((1 - 0) * score f v + 0 * score b v) with (score f v) by ring.
  now apply Qabs_pos.
Qed.

Lemma blend_alpha_1 f b v : 0 <= score b v -> blend f b 1 v == score b v.
Proof.
  intros H. unfold blend.
  setoid_replace ((1 - 1) * score f v + 1 * score b v) with (score b v) by ring.
  now apply Qabs_pos.
Qed.

(** C9: with [alpha = 0] the blended ranking of a variable is its forward
    score divided by the sum of the forward scores of the listed variables,
    and with [alpha = 1] the same for the backward scores; the function
    returns whenever both dictionaries know every listed variable and that
    sum is not zero.  Ranking dictionaries hold non-negative scores and the
    variables of a list are distinct. *)
Theorem blended_rank_alpha_extremes (forwardrank backwardrank : PyDict.dict Q)
        (variablelist : list string) :
  NoDup variablelist ->
  (forall v, In v variablelist ->
             0 <= score forwardrank v /\ 0 <= score backwardrank v) ->
  (forall d l,
      calc_blended_rank forwardrank backwardrank variablelist 0 = Ok (d, l) ->
      PyDict.keys d = variablelist /\
      forall v, In v variablelist ->
                exists x, PyDict.get d v = Some x /\
                          x == score forwardrank v /
                               sum (map (score forwardrank) variablelist)) /\
  (forall d l,
      calc_blended_rank forwardrank backwardrank variablelist 1 = Ok (d, l) ->
      PyDict.keys d = variablelist /\
      forall v, In v variablelist ->
                exists x, PyDict.get d v = Some x /\
                          x == score backwardrank v /
                               sum (map (score backwardrank) variablelist)) /\
  ((forall v, In v variablelist -> present forwardrank backwardrank v) ->
   ~ sum (map (score forwardrank) variablelist) == 0 ->
   exists d l,
     calc_blended_rank forwardrank backwardrank variablelist 0 = Ok (d, l)) /\
  ((forall v, In v variablelist -> present forwardrank backwardrank v) ->
   ~ sum (map (score backwardrank) variablelist) == 0 ->
   exists d l,
     calc_blended_rank forwardrank backwardrank variablelist 1 = Ok (d, l)).
Proof.
  intros Hnd Hpos.
  assert (T0 : blend_total forwardrank backwardrank 0 variablelist ==
               sum (map (score forwardrank) variablelist)).
  { unfold blend_total. apply sum_map_ext. intros v Hv.
    apply blend_alpha_0. now apply Hpos. }
  assert (T1 : blend_total forwardrank backwardrank 1 variablelist ==
               sum (map (score backwardrank) variablelist)).
  { unfold blend_total. apply sum_map_ext. intros v Hv.
    apply blend_alpha_1. now apply Hpos. }
  split; [|split; [|split]].
  - intros d l H. apply calc_blended_rank_inv in H; [|exact Hnd].
    destruct H as (_ & _ & -> & _). split; [apply keys_map_pairs|].
    intros v Hv. eexists. split.
    + apply (get_map_pairs
               (fun v => blend forwardrank backwardrank 0 v /
                         blend_total forwardrank backwardrank 0 variablelist)).
      exact Hv.
    + cbv beta. rewrite T0, blend_alpha_0 by (now apply Hpos). reflexivity.
  - intros d l H. apply calc_blended_rank_inv in H; [|exact Hnd].
    destruct H as (_ & _ & -> & _). split; [apply keys_map_pairs|].
    intros v Hv. eexists. split.
    + apply (get_map_pairs
               (fun v => blend forwardrank backwardrank 1 v /
                         blend_total forwardrank backwardrank 1 variablelist)).
      exact Hv.
    + cbv beta. rewrite T1, blend_alpha_1 by (now apply Hpos). reflexivity.
  - intros Hp Ht. do 2 eexists. apply calc_blended_rank_Ok; auto.
    now rewrite T0.
  - intros Hp Ht. do 2 eexists. apply calc_blended_rank_Ok; auto.
    now rewrite T1.
Qed.

Lemma NoDup_vars_ab : NoDup vars_ab.
Proof. repeat constructor; simpl; intuition discriminate. Qed.

Lemma demo_scores_nonneg :
  forall v, In v vars_ab -> 0 <= score fwd_demo v /\ 0 <= score bwd_demo v.
Proof.
  intros v [<-|[<-|[]]]; split; vm_compute; discriminate.
Qed.

Lemma blended_rank_alpha_extremes_witness :
  NoDup vars_ab /\
  (forall v, In v vars_ab -> 0 <= score fwd_demo v /\ 0 <= score bwd_demo v) /\
  (forall d l,
      calc_blended_rank fwd_demo bwd_demo vars_ab 0 = Ok (d, l) ->
      PyDict.keys d = vars_ab /\
      forall v, In v vars_ab ->
                exists x, PyDict.get d v = Some x /\
                          x == score fwd_demo v /
                               sum (map (score fwd_demo) vars_ab)) /\
  calc_blended_rank fwd_demo bwd_demo vars_ab 0 =
    Ok ([("a", 1000 # 1500); ("b", 1000 # 3000)]%string,
        [("a", 1000 # 1500); ("b", 1000 # 3000)]%string).
Proof.
  split; [exact NoDup_vars_ab|]. split; [exact demo_scores_nonneg|].
  split; [|reflexivity].
  apply (@blended_rank_alpha_extremes fwd_demo bwd_demo vars_ab
           NoDup_vars_ab demo_scores_nonneg).
Defined.

(** ** [calc_transient_importancediffs] *)

Lemma length_successive_diffs xs : forall prev,
  length (successive_diffs xs prev) = length xs.
Proof. induction xs; intros prev; simpl; auto. Qed.

Lemma nth_successive_diffs xs : forall prev k,
  (k < length xs)%nat ->
  nth k (successive_diffs xs prev) 0 = nth k xs 0 - nth k (prev :: xs) 0.
Proof.
  induction xs as [|x xs IH]; intros prev [|k] Hk; simpl in Hk; try lia.
  - reflexivity.
  - cbn [successive_diffs nth]. rewrite IH by lia. reflexivity.
Qed.

(** the base value plus the first [k] differences is the [k]-th score *)
Lemma telescope xs : forall prev k,
  (k <= length xs)%nat ->
  prev + sum (firstn k (successive_diffs xs prev)) == nth k (prev :: xs) 0.
Proof.
  induction xs as [|x xs IH]; intros prev [|k] Hk; simpl in Hk; try lia;
    cbn [successive_diffs firstn nth].
  - rewrite sum_nil. ring.
  - rewrite sum_nil. ring.
  - rewrite sum_cons.
    setoid_replace (prev + (x - prev + sum (firstn k (successive_diffs xs x))))
      with (x + sum (firstn k (successive_diffs xs x))) by ring.
    apply (IH x k). lia.
Qed.

Lemma set_nth_app_here {A : Type} (pre tl : list A) (y x : A) :
  set_nth (pre ++ y :: tl) (length pre) x = pre ++ x :: tl.
Proof. induction pre as [|a pre IH]; simpl; congruence. Qed.

Section Transient.

Import PyDict.
Variable variable : string.

Lemma getitem_known d :
  known variable d -> getitem d variable = Ok (score d variable).
Proof.
  unfold known, getitem, score. destruct (get d variable); congruence.
Qed.

Lemma getitem_Ok d x : getitem d variable = Ok x ->
                       (known variable) d /\ x = score d variable.
Proof.
  unfold known, getitem, score. destruct (get d variable); [|discriminate].
  intros [= <-]. split; [discriminate | reflexivity].
Qed.

Lemma diff_loop_Ok others : forall pre prev,
  Forall (known variable) others ->
  exists p,
    for_each (combine (seq (length pre) (length others)) others)
             (diff_body variable)
             (pre ++ repeat NaN (length others), prev) =
    Ok (pre ++ map Val (successive_diffs
                          (map (fun d => score d variable) others) prev),
        p).
Proof.
  induction others as [|d others IH]; intros pre prev Hk.
  - now exists prev.
  - inversion Hk as [|? ? Hd Ho]; subst.
    cbn [length seq combine for_each repeat map successive_diffs].
    assert (E : diff_body variable
                  (pre ++ NaN :: repeat NaN (length others), prev)
                  (length pre, d)
                = Ok (pre ++ Val (score d variable - prev)
                          :: repeat NaN (length others),
                      score d variable)).
    { unfold diff_body. rewrite getitem_known by exact Hd. cbn [bind].
      unfold setitem.
      assert (Hlt : (length pre <?
                     length (pre ++ NaN :: repeat NaN (length others)))%nat
                    = true).
      { apply Nat.ltb_lt. rewrite length_app. simpl. lia. }
      now rewrite Hlt, set_nth_app_here. }
    rewrite E. cbn [bind].
    destruct (IH (pre ++ [Val (score d variable - prev)])
                 (score d variable) Ho) as (p & IHp).
    rewrite length_app, <- !app_assoc in IHp. simpl in IHp.
    rewrite Nat.add_1_r in IHp. exists p. exact IHp.
Qed.

Lemma diff_loop_known others : forall i st st',
  for_each (combine (seq i (length others)) others) (diff_body variable) st
  = Ok st' -> Forall (known variable) others.
Proof.
  induction others as [|d others IH]; intros i [dv prev] st' H;
    [constructor|].
  cbn [length seq combine for_each] in H. unfold diff_body at 1 in H.
  destruct (getitem d variable) as [x|] eqn:E; cbn [bind] in H;
    [|discriminate].
  apply getitem_Ok in E. destruct E as [Hd _].
  destruct (setitem dv i (Val (x - prev))) as [dv'|]; cbn [bind] in H;
    [|discriminate].
  constructor; [exact Hd | eapply IH; eauto].
Qed.

End Transient.

Section TransientLoop.

Import PyDict.
Variable rankingdicts : list (dict Q).

Lemma transient_body_Ok t b v :
  usable rankingdicts v ->
  transient_body rankingdicts (t, b) v =
  Ok (set t v (map Val (diffs_of rankingdicts v)),
      set b v (hd 0 (series rankingdicts v))).
Proof.
  intros [Hne Hk]. unfold transient_body, diffs_of, series.
  destruct rankingdicts as [|first others]; [congruence|].
  inversion Hk as [|? ? Hf Ho]; subst.
  rewrite getitem_known by exact Hf. cbn [bind].
  unfold enumerate.
  replace (length (first :: others) - 1)%nat with (length others)
    by (simpl; lia).
  destruct (@diff_loop_Ok v others [] (score first v) Ho) as (p & Hp).
  simpl in Hp. rewrite Hp. reflexivity.
Qed.

Lemma transient_body_usable t b v st :
  transient_body rankingdicts (t, b) v = Ok st -> usable rankingdicts v.
Proof.
  unfold transient_body, usable.
  destruct rankingdicts as [|first others]; [discriminate|].
  destruct (getitem first v) as [x|] eqn:E; cbn [bind]; [|discriminate].
  apply getitem_Ok in E. destruct E as [Hf _].
  destruct (for_each (enumerate others) (diff_body v)
              (repeat NaN (length (first :: others) - 1), x))
    as [[dv p]|] eqn:E2; cbn [bind]; [|discriminate].
  intros _. split; [discriminate|]. constructor; [exact Hf|].
  unfold enumerate in E2. eapply diff_loop_known; eauto.
Qed.

Lemma transient_loop l : forall t b t' b',
  for_each l (transient_body rankingdicts) (t, b) = Ok (t', b') ->
  (forall v, In v l ->
             usable rankingdicts v /\
             get t' v = Some (map Val (diffs_of rankingdicts v)) /\
             get b' v = Some (hd 0 (series rankingdicts v))) /\
  (forall v, ~ In v l -> get t' v = get t v /\ get b' v = get b v).
Proof.
  induction l as [|x l IH]; intros t b t' b' H.
  - simpl in H. injection H as <- <-. split; [intros v [] | auto].
  - cbn [for_each] in H.
    destruct (transient_body rankingdicts (t, b) x) as [[t1 b1]|] eqn:E;
      cbn [bind] in H; [|discriminate].
    assert (Hu : (usable rankingdicts) x) by (eapply transient_body_usable; eauto).
    rewrite transient_body_Ok in E by exact Hu. injection E as <- <-.
    apply IH in H. destruct H as [H1 H2]. split.
    + intros v [<-|Hv]; [|now apply H1].
      destruct (in_dec string_dec x l) as [Hin|Hnin]; [now apply H1|].
      destruct (H2 x Hnin) as [-> ->].
      rewrite !get_set, !String.eqb_refl. auto.
    + intros v Hv. simpl in Hv.
      destruct (H2 v) as [-> ->]; [tauto|].
      rewrite !get_set.
      destruct (String.eqb_spec x v); [tauto | auto].
Qed.

Lemma transient_loop_Ok l : forall t b,
  (forall v, In v l -> usable rankingdicts v) ->
  exists t' b', for_each l (transient_body rankingdicts) (t, b) = Ok (t', b').
Proof.
  induction l as [|x l IH]; intros t b Hu.
  - now exists t, b.
  - cbn [for_each]. rewrite transient_body_Ok by (apply Hu; now left).
    cbn [bind]. apply IH. intros v Hv. apply Hu. now right.
Qed.

End TransientLoop.

Lemma nth_series rankingdicts v k :
  nth k (series rankingdicts v) 0 = score (nth k rankingdicts []) v.
Proof.
  unfold series. change 0 with (score [] v) at 1.
  apply (map_nth (fun d => score d v)).
Qed.

(** C8: when [calc_transient_importancediffs] returns, every listed variable
    has a difference vector of [N - 1] assigned numbers, whose [k]-th entry is
    its score in box [k + 1] minus its score in box [k], and a base value
    that is its score in box 0; the base value plus the first [k] differences
    is the score in box [k].  The function returns whenever there is at least
    one box and every box knows every listed variable. *)
Theorem transient_diffs_reconstruct (rankingdicts : list (PyDict.dict Q))
        (variablelist : list string) :
  (forall transientdict basevaldict,
      calc_transient_importancediffs rankingdicts variablelist =
        Ok (transientdict, basevaldict) ->
      forall v, In v variablelist ->
        exists diffs,
          PyDict.get transientdict v = Some (map Val diffs) /\
          length diffs = (length rankingdicts - 1)%nat /\
          PyDict.get basevaldict v = Some (score (nth 0 rankingdicts []) v) /\
          (forall k, (k < length rankingdicts - 1)%nat ->
                     nth k diffs 0 =
                     score (nth (S k) rankingdicts []) v -
                     score (nth k rankingdicts []) v) /\
          (forall k, (k < length rankingdicts)%nat ->
                     score (nth 0 rankingdicts []) v + sum (firstn k diffs) ==
                     score (nth k rankingdicts []) v)) /\
  (rankingdicts <> [] ->
   (forall d v, In d rankingdicts -> In v variablelist ->
                PyDict.get d v <> None) ->
   exists transientdict basevaldict,
     calc_transient_importancediffs rankingdicts variablelist =
       Ok (transientdict, basevaldict)).
Proof.
  split.
  - intros t b H v Hv. unfold calc_transient_importancediffs in H.
    apply transient_loop in H. destruct H as [H _].
    destruct (H v Hv) as ([Hne Hk] & Ht & Hb).
    exists (diffs_of rankingdicts v).
    assert (Hs : series rankingdicts v =
                 hd 0 (series rankingdicts v) :: tl (series rankingdicts v)).
    { unfold series. destruct rankingdicts; [congruence | reflexivity]. }
    assert (Hlen : length (tl (series rankingdicts v)) =
                   (length rankingdicts - 1)%nat).
    { unfold series. destruct rankingdicts; simpl; [reflexivity|].
      rewrite length_map. lia. }
    assert (Hhd : hd 0 (series rankingdicts v) = score (nth 0 rankingdicts []) v).
    { rewrite <- nth_series. now rewrite Hs at 2. }
    split; [exact Ht|]. split; [|split; [|split]].
    + unfold diffs_of. now rewrite length_successive_diffs.
    + now rewrite Hb, Hhd.
    + intros k Hk'. unfold diffs_of.
      rewrite nth_successive_diffs by lia.
      rewrite <- Hs, <- !nth_series. f_equal.
      destruct (series rankingdicts v); [now destruct k | reflexivity].
    + intros k Hk'. unfold diffs_of. rewrite <- Hhd.
      rewrite telescope by lia. rewrite <- Hs. now rewrite nth_series.
  - intros Hne Hall. unfold calc_transient_importancediffs.
    apply transient_loop_Ok. intros v Hv. split; [exact Hne|].
    apply Forall_forall. intros d Hd. now apply Hall.
Qed.

Lemma transient_diffs_reconstruct_witness :
  boxes_demo <> [] /\
  (forall d v, In d boxes_demo -> In v vars_ab -> PyDict.get d v <> None) /\
  calc_transient_importancediffs boxes_demo vars_ab =
    Ok ([("a", [Val (-2 # 8); Val (1 # 12)]);
         ("b", [Val (2 # 8); Val (-1 # 12)])]%string,
        [("a", 1 # 2); ("b", 1 # 2)]%string) /\
  (forall v, In v vars_ab ->
     exists diffs,
       PyDict.get [("a", [Val (-2 # 8); Val (1 # 12)]);
                   ("b", [Val (2 # 8); Val (-1 # 12)])]%string v
         = Some (map Val diffs) /\
       length diffs = (length boxes_demo - 1)%nat /\
       PyDict.get [("a", 1 # 2); ("b", 1 # 2)]%string v
         = Some (score (nth 0 boxes_demo []) v) /\
       (forall k, (k < length boxes_demo - 1)%nat ->
                  nth k diffs 0 =
                  score (nth (S k) boxes_demo []) v -
                  score (nth k boxes_demo []) v) /\
       (forall k, (k < length boxes_demo)%nat ->
                  score (nth 0 boxes_demo []) v + sum (firstn k diffs) ==
                  score (nth k boxes_demo []) v)).
Proof.
  split; [discriminate|]. split.
  - intros d v [<-|[<-|[<-|[]]]] [<-|[<-|[]]]; discriminate.
  - split; [reflexivity|].
    apply (proj1 (transient_diffs_reconstruct boxes_demo vars_ab)).
    reflexivity.
Defined.

(** ** Matrices: columns and entries *)

Lemma mapM_Ok {A B : Type} (f : A -> result B) (g : A -> B) (l : list A) :
  (forall x, In x l -> f x = Ok (g x)) -> mapM f l = Ok (map g l).
Proof.
  induction l as [|x l IH]; intros H; simpl; [reflexivity|].
  rewrite (H x) by now left. simpl.
  rewrite IH by (intros y Hy; apply H; now right). reflexivity.
Qed.

Lemma mapM_length {A B : Type} (f : A -> result B) (l : list A) (r : list B) :
  mapM f l = Ok r -> length r = length l.
Proof.
  revert r. induction l as [|x l IH]; intros r H; simpl in H.
  - now injection H as <-.
  - destruct (f x); simpl in H; [|discriminate].
    destruct (mapM f l) as [ys|]; simpl in H; [|discriminate].
    injection H as <-. simpl. f_equal. now apply IH.
Qed.

Lemma get_col_rect (M : matrix) (n c : nat) :
  rect n M -> (c < n)%nat -> get_col M c = Ok (col M c).
Proof.
  intros Hr Hc. unfold get_col, col. apply mapM_Ok.
  intros row Hrow. unfold rect in Hr. rewrite Forall_forall in Hr.
  destruct (nth_error row c) as [x|] eqn:E.
  - now rewrite (nth_error_nth _ _ 0 E).
  - apply nth_error_None in E. rewrite (Hr row Hrow) in E. lia.
Qed.


Lemma length_get_col {A : Type} (M : list (list A)) (c : nat) (vals : list A) :
  get_col M c = Ok vals -> length vals = length M.
Proof. apply mapM_length. Qed.

Lemma nth_map_default {A B : Type} (f : A -> B) (l : list A) (n : nat)
      (d : A) (d' : B) :
  (n < length l)%nat -> nth n (map f l) d' = f (nth n l d).
Proof.
  intros H. rewrite (nth_indep _ d' (f d)) by now rewrite length_map.
  apply map_nth.
Qed.

Lemma nth_nil_0 (c : nat) : nth c (@nil Q) 0 = 0.
Proof. now destruct c. Qed.

Lemma nth_set_nth {A : Type} (l : list A) (i j : nat) (x d : A) :
  nth j (set_nth l i x) d =
  if Nat.eqb j i && Nat.ltb i (length l) then x else nth j l d.
Proof.
  revert i j. induction l as [|y l IH]; intros [|i] [|j]; simpl;
    try reflexivity.
  - now rewrite andb_false_r.
  - rewrite IH. reflexivity.
Qed.

Lemma length_set_nth {A : Type} (l : list A) (i : nat) (x : A) :
  length (set_nth l i x) = length l.
Proof. revert i. induction l; intros [|i]; simpl; auto. Qed.

Lemma length_set_col (M : matrix) (c : nat) (vals : list Q) :
  length vals = length M -> length (set_col M c vals) = length M.
Proof.
  intros H. unfold set_col. rewrite length_map, length_combine. lia.
Qed.

Lemma rect_set_col (M : matrix) (n c : nat) (vals : list Q) :
  rect n M -> rect n (set_col M c vals).
Proof.
  unfold rect, set_col. rewrite !Forall_forall. intros H row Hrow.
  apply in_map_iff in Hrow. destruct Hrow as ([r x] & <- & Hin).
  simpl. rewrite length_set_nth. apply H. eapply in_combine_l; eauto.
Qed.

Lemma entry_set_col (M : matrix) (n c r c' : nat) (vals : list Q) :
  length vals = length M -> rect n M -> (c < n)%nat -> (r < length M)%nat ->
  entry (set_col M c vals) r c' =
  if Nat.eqb c' c then nth r vals 0 else entry M r c'.
Proof.
  intros Hl Hr Hc Hrow. unfold entry, set_col.
  assert (E : nth r (map (fun rv => set_nth (fst rv) c (snd rv)) (combine M vals)) []
              = set_nth (nth r M []) c (nth r vals 0)).
  { rewrite (nth_map_default _ _ ([], 0))
      by (rewrite length_combine; lia).
    now rewrite combine_nth by auto. }
  rewrite E, nth_set_nth.
  assert (Hlen : length (nth r M []) = n).
  { unfold rect in Hr. rewrite Forall_forall in Hr. apply Hr.
    now apply nth_In. }
  rewrite Hlen. destruct (Nat.ltb_spec c n); [|lia].
  now rewrite andb_true_r.
Qed.

Lemma nth_col (M : matrix) (c r : nat) : nth r (col M c) 0 = entry M r c.
Proof.
  unfold col, entry. destruct (Nat.lt_ge_cases r (length M)) as [H|H].
  - now rewrite (nth_map_default (fun row : list Q => nth c row 0) M []).
  - rewrite (nth_overflow M) by exact H.
    rewrite nth_nil_0. apply nth_overflow. now rewrite length_map.
Qed.

Lemma col_ext (M N : matrix) (c : nat) :
  length M = length N ->
  (forall r, (r < length M)%nat -> entry M r c = entry N r c) ->
  col M c = col N c.
Proof.
  intros Hl H. apply (nth_ext _ _ 0 0).
  - unfold col. now rewrite !length_map.
  - intros r Hr. unfold col in Hr. rewrite length_map in Hr.
    rewrite !nth_col. now apply H.
Qed.

Lemma length_transpose (M : matrix) : length (transpose M) = shape1 M.
Proof. unfold transpose. now rewrite length_map, length_seq. Qed.

Lemma rect_transpose (M : matrix) : rect (length M) (transpose M).
Proof.
  unfold rect, transpose. apply Forall_forall. intros row Hrow.
  apply in_map_iff in Hrow. destruct Hrow as (c & <- & _).
  now rewrite length_map.
Qed.

Lemma entry_transpose (M : matrix) (r c : nat) :
  (r < shape1 M)%nat -> entry (transpose M) r c = entry M c r.
Proof.
  intros Hr. unfold entry, transpose.
  assert (E : nth r (map (fun c0 => map (fun row => nth c0 row 0) M)
                         (seq 0 (shape1 M))) []
              = map (fun row => nth r row 0) M).
  { rewrite (nth_map_default _ _ 0%nat) by now rewrite length_seq.
    now rewrite seq_nth by exact Hr. }
  rewrite E. apply (nth_col M r c).
Qed.

Lemma shape1_square (M : matrix) (n : nat) :
  length M = n -> rect n M -> shape1 M = n.
Proof.
  intros Hl Hr. unfold shape1. destruct M as [|row M]; simpl in *.
  - now subst.
  - now inversion Hr.
Qed.

(** ** The column normalisation of the gain matrix *)

Lemma normalise_gain_col_spec (M : matrix) (n c : nat) :
  length M = n -> rect n M -> (c < n)%nat ->
  exists M',
    normalise_gain_col M c = Ok M' /\ length M' = n /\ rect n M' /\
    forall r c', (r < n)%nat ->
                 entry M' r c' =
                 if Nat.eqb c' c then normalised_entry M r c else entry M r c'.
Proof.
  intros Hl Hr Hc. unfold normalise_gain_col.
  rewrite (get_col_rect Hr Hc). cbn [bind]. fold (colabs M c).
  unfold normalised_entry.
  destruct (Qeq_bool (colabs M c) 0) eqn:Ez.
  - exists M. repeat split; auto.
    intros r c' _. destruct (Nat.eqb_spec c' c); [now subst | reflexivity].
  - eexists. split; [reflexivity|].
    assert (Hlen : length (map (fun x => x / colabs M c) (col M c)) = length M)
      by (unfold col; now rewrite !length_map).
    split; [now rewrite length_set_col|].
    split; [now apply rect_set_col|].
    intros r c' Hrn.
    rewrite (@entry_set_col M n c r c') by (auto; lia).
    destruct (Nat.eqb c' c); [|reflexivity].
    rewrite (nth_map_default (fun x => x / colabs M c) (col M c) 0)
      by (unfold col; rewrite length_map; lia).
    now rewrite nth_col.
Qed.

Lemma normalise_gain_prefix (T : matrix) (n : nat) :
  length T = n -> rect n T ->
  forall k, (k <= n)%nat ->
    exists M,
      for_each (seq 0 k) normalise_gain_col T = Ok M /\
      length M = n /\ rect n M /\
      forall r c, (r < n)%nat ->
                  entry M r c =
                  if Nat.ltb c k then normalised_entry T r c else entry T r c.
Proof.
  intros Hl Hr. induction k as [|k IH]; intros Hk.
  - exists T. repeat split; auto.
  - destruct IH as (M & HM & HlM & HrM & He); [lia|].
    destruct (@normalise_gain_col_spec M n k HlM HrM) as (M' & HM' & Hl' & Hr' & He');
      [lia|].
    exists M'. rewrite seq_S, for_each_app, HM. cbn [bind for_each Nat.add].
    rewrite HM'. cbn [bind].
    split; [reflexivity|]. split; [exact Hl'|]. split; [exact Hr'|].
    intros r c Hrn. rewrite He' by exact Hrn.
    assert (Hcol : col M k = col T k).
    { apply col_ext; [congruence|]. intros r' Hr'n. rewrite He by lia.
      now rewrite Nat.ltb_irrefl. }
    destruct (Nat.eqb_spec c k) as [->|Hck].
    + destruct (Nat.ltb_spec k (S k)); [|lia].
      unfold normalised_entry, colabs. rewrite Hcol, He by exact Hrn.
      now rewrite Nat.ltb_irrefl.
    + rewrite He by exact Hrn.
      destruct (Nat.ltb_spec c k), (Nat.ltb_spec c (S k)); try reflexivity; lia.
Qed.

(** C3: in the column normalisation of the transposed gain matrix, a column
    whose absolute sum is zero is left as it is, entry by entry, and every
    other column is divided entry by entry by its absolute sum.  The gain
    matrix is square, as the data model has it. *)
Theorem normalise_gain_columns (gainmatrix : matrix) (n : nat) :
  length gainmatrix = n -> rect n gainmatrix ->
  exists normalised,
    normalise_gain (transpose gainmatrix) (shape0 (transpose gainmatrix))
      = Ok normalised /\
    length normalised = n /\ rect n normalised /\
    forall r c, (r < n)%nat -> (c < n)%nat ->
      (colabs (transpose gainmatrix) c == 0 ->
       entry normalised r c = entry (transpose gainmatrix) r c) /\
      (~ colabs (transpose gainmatrix) c == 0 ->
       entry normalised r c =
       entry (transpose gainmatrix) r c / colabs (transpose gainmatrix) c).
Proof.
  intros Hl Hr.
  assert (HlT : length (transpose gainmatrix) = n)
    by (rewrite length_transpose; now apply shape1_square).
  assert (HrT : rect n (transpose gainmatrix))
    by (rewrite <- Hl; apply rect_transpose).
  unfold normalise_gain, shape0. rewrite HlT.
  destruct (@normalise_gain_prefix (transpose gainmatrix) n HlT HrT n (le_n n))
    as (M & HM & HlM & HrM & He).
  exists M. split; [exact HM|]. split; [exact HlM|]. split; [exact HrM|].
  intros r c Hrn Hcn. rewrite He by exact Hrn.
  destruct (Nat.ltb_spec c n); [|lia]. unfold normalised_entry.
  split; intros Hz.
  - apply Qeq_bool_iff in Hz. now rewrite Hz.
  - destruct (Qeq_bool (colabs (transpose gainmatrix) c) 0) eqn:E; [|reflexivity].
    apply Qeq_bool_iff in E. contradiction.
Qed.

Lemma normalise_gain_columns_witness :
  length gain_demo = 3%nat /\ rect 3 gain_demo /\
  normalise_gain (transpose gain_demo) (shape0 (transpose gain_demo))
    = Ok [[1 # 3; 0; 4 # 8]; [2 # 3; 0; 0 # 8]; [0 # 3; 0; -4 # 8]] /\
  exists normalised,
    normalise_gain (transpose gain_demo) (shape0 (transpose gain_demo))
      = Ok normalised /\
    length normalised = 3%nat /\ rect 3 normalised /\
    forall r c, (r < 3)%nat -> (c < 3)%nat ->
      (colabs (transpose gain_demo) c == 0 ->
       entry normalised r c = entry (transpose gain_demo) r c) /\
      (~ colabs (transpose gain_demo) c == 0 ->
       entry normalised r c =
       entry (transpose gain_demo) r c / colabs (transpose gain_demo) c).
Proof.
  split; [reflexivity|]. split; [apply rect3; reflexivity|].
  split; [reflexivity|].
  apply (@normalise_gain_columns gain_demo 3);
    [reflexivity | apply rect3; reflexivity].
Defined.

(** ** Lists paired by [zip] *)

Lemma map_fst_combine {A B : Type} (l : list A) (l' : list B) :
  map fst (combine l l') = firstn (length l') l.
Proof.
  revert l'. induction l as [|x l IH]; intros [|y l']; simpl; try reflexivity.
  now rewrite IH.
Qed.

Lemma map_snd_combine {A B : Type} (l : list A) (l' : list B) :
  map snd (combine l l') = firstn (length l) l'.
Proof.
  revert l'. induction l as [|x l IH]; intros [|y l']; simpl; try reflexivity.
  now rewrite IH.
Qed.



(** ** [np.argmax] *)





(** ** Shapes through [calc_simple_rank] *)

Lemma raises_bind {A B : Type} (c : result A) (k : A -> result B) :
  (forall a, c = Ok a -> raises (k a)) -> raises (bind c k).
Proof.
  intros H. destruct c as [a|e]; simpl.
  - now apply H.
  - now exists e.
Qed.

Lemma raises_not_Ok {A : Type} (c : result A) (a : A) :
  raises c -> c <> Ok a.
Proof. intros [e ->]. discriminate. Qed.

Lemma normalise_gain_col_shape (M M' : matrix) (r c : nat) :
  rect r M -> normalise_gain_col M c = Ok M' ->
  length M' = length M /\ rect r M'.
Proof.
  intros Hr. unfold normalise_gain_col.
  destruct (get_col M c) as [vals|] eqn:E; cbn [bind]; [|discriminate].
  apply length_get_col in E.
  destruct (Qeq_bool (sum (map Qabs vals)) 0); intros [= <-].
  - auto.
  - split; [apply length_set_col; now rewrite length_map
           | now apply rect_set_col].
Qed.

Lemma normalise_weight_col_shape (M M' : matrix) (r c : nat) :
  rect r M -> normalise_weight_col M c = Ok M' ->
  length M' = length M /\ rect r M'.
Proof.
  intros Hr. unfold normalise_weight_col.
  destruct (get_col M c) as [vals|] eqn:E; cbn [bind]; [|discriminate].
  apply length_get_col in E.
  destruct (mapM (fun x => pydiv x (sum (map Qabs vals))) vals) as [vals'|] eqn:E2;
    cbn [bind]; [|discriminate].
  apply mapM_length in E2. intros [= <-].
  split; [apply length_set_col; congruence | now apply rect_set_col].
Qed.

Lemma normalise_gain_shape (M M' : matrix) (r n : nat) :
  rect r M -> normalise_gain M n = Ok M' ->
  length M' = length M /\ rect r M'.
Proof.
  intros Hr. unfold normalise_gain.
  apply (for_each_inv (fun X => length X = length M /\ rect r X)); [|auto].
  intros s x s' _ [Hl Hs] Hb.
  destruct (normalise_gain_col_shape _ Hs Hb). split; congruence.
Qed.

Lemma normalise_weight_shape (M M' : matrix) (r n : nat) :
  rect r M -> normalise_weight M n = Ok M' ->
  length M' = length M /\ rect r M'.
Proof.
  intros Hr. unfold normalise_weight.
  apply (for_each_inv (fun X => length X = length M /\ rect r X)); [|auto].
  intros s x s' _ [Hl Hs] Hb.
  destruct (normalise_weight_col_shape _ Hs Hb). split; congruence.
Qed.

Lemma length_scale (m : Q) (M : matrix) : length (scale m M) = length M.
Proof. unfold scale. apply length_map. Qed.


Lemma length_resetmatrix (n : nat) : length (resetmatrix_of n) = n.
Proof. unfold resetmatrix_of. apply repeat_length. Qed.


Lemma bdim_same (a : nat) : bdim a a = Ok a.
Proof. unfold bdim. now rewrite Nat.eqb_refl. Qed.

Lemma mat_add_shape (A B W : matrix) :
  mat_add A B = Ok W ->
  exists d0 d1, bdim (shape0 A) (shape0 B) = Ok d0 /\
                bdim (shape1 A) (shape1 B) = Ok d1 /\
                length W = d0 /\ rect d1 W.
Proof.
  unfold mat_add.
  destruct (bdim (shape0 A) (shape0 B)) as [d0|]; cbn [bind]; [|discriminate].
  destruct (bdim (shape1 A) (shape1 B)) as [d1|]; cbn [bind]; [|discriminate].
  intros [= <-]. exists d0, d1. repeat split.
  - now rewrite length_map, length_seq.
  - unfold rect. apply Forall_forall. intros row Hrow.
    apply in_map_iff in Hrow. destruct Hrow as (i & <- & _).
    now rewrite length_map, length_seq.
Qed.

Section SimpleRank.

Variable eig : matrix -> result (list Cx * list (list Cx)).
Variable np_abs : Cx -> Q.
Variable eigenvector_centrality : DiGraph -> result (PyDict.dict Q).
Variable katz_centrality : DiGraph -> Q -> Q -> Z -> result (PyDict.dict Q).

Let simple_rank :=
  calc_simple_rank eig np_abs eigenvector_centrality katz_centrality.

(** every stage a returning call went through *)
Lemma calc_simple_rank_inv gainmatrix variables m d l :
  simple_rank gainmatrix variables m = Ok (d, l) ->
  let n := shape0 (transpose gainmatrix) in
  exists gn W0 W eigval eigvec k column rn wg gg,
    normalise_gain (transpose gainmatrix) n = Ok gn /\
    mat_add (scale m gn) (scale (1 - m) (resetmatrix_of n)) = Ok W0 /\
    normalise_weight W0 n = Ok W /\
    np_linalg_eig eig W = Ok (eigval, eigvec) /\
    argmax eigval = Ok k /\
    get_col eigvec k = Ok column /\
    normalise_rank (map np_abs column) = Ok rn /\
    d = PyDict.of_pairs (combine variables rn) /\
    l = sorted_desc d /\
    centrality_graphs W gn variables = Ok (wg, gg).
Proof.
  unfold simple_rank, calc_simple_rank. intros H. cbv zeta.
  bind_inv H gn E1. bind_inv H W0 E2. bind_inv H W E3.
  bind_inv H ev E4. destruct ev as [eigval eigvec].
  bind_inv H ev2 E5. bind_inv H k E6. bind_inv H column E7.
  bind_inv H rn E8. bind_inv H graphs E9. destruct graphs as [wg gg].
  bind_inv H ec E10. bind_inv H ecn E11. bind_inv H kc E12.
  bind_inv H kcn E13. injection H as <- <-.
  exists gn, W0, W, eigval, eigvec, k, column, rn, wg, gg.
  repeat split; assumption.
Qed.

(** the weight matrix has as many rows as the gain matrix has columns *)
Lemma weight_rows gainmatrix m gn W0 W :
  let n := shape0 (transpose gainmatrix) in
  normalise_gain (transpose gainmatrix) n = Ok gn ->
  mat_add (scale m gn) (scale (1 - m) (resetmatrix_of n)) = Ok W0 ->
  normalise_weight W0 n = Ok W ->
  length gn = shape1 gainmatrix /\ length W = shape1 gainmatrix.
Proof.
  cbv zeta. intros E1 E2 E3.
  destruct (normalise_gain_shape _ (rect_transpose gainmatrix) E1) as [Hl _].
  rewrite length_transpose in Hl.
  destruct (mat_add_shape _ _ E2) as (d0 & d1 & Hd0 & _ & HlW0 & HrW0).
  unfold shape0 in Hd0.
  rewrite !length_scale, length_resetmatrix, Hl, length_transpose, bdim_same
    in Hd0.
  injection Hd0 as <-.
  destruct (normalise_weight_shape _ HrW0 E3) as [HlW _].
  split; congruence.
Qed.

Lemma normalise_rank_Ok rankarray rn :
  normalise_rank rankarray = Ok rn ->
  ~ sum rankarray == 0 /\
  rn = map (Qmult (1 / sum rankarray)) rankarray.
Proof.
  unfold normalise_rank.
  destruct (pydiv 1 (sum rankarray)) as [f|] eqn:E; cbn [bind];
    [|discriminate].
  apply pydiv_Ok in E. destruct E as [Hz ->]. intros [= <-]. auto.
Qed.

End SimpleRank.


Example eig_demo_eigenpairs :
  eigenpair_b half_matrix 1 [1; 1] = true /\
  eigenpair_b half_matrix 0 [-1; 1] = true.
Proof. split; reflexivity. Qed.

Lemma eig_demo_rows M vals vecs :
  eig_demo M = Ok (vals, vecs) -> length vecs = length M.
Proof.
  unfold eig_demo. destruct (mat_eqb M half_matrix) eqn:E; [|discriminate].
  intros [= <- <-].
  destruct M as [|r1 [|r2 [|r3 M]]]; try discriminate; try reflexivity.
  - unfold mat_eqb in E. cbn [list_eqb half_matrix] in E.
    apply andb_true_iff in E. destruct E as [_ E]. discriminate.
  - unfold mat_eqb in E. cbn [list_eqb half_matrix] in E.
    apply andb_true_iff in E. destruct E as [_ E].
    apply andb_true_iff in E. destruct E as [_ E]. discriminate.
Qed.

Lemma abs_demo_nonneg z : 0 <= abs_demo z.
Proof. apply Qabs_nonneg. Qed.

Lemma get_In_values {V : Type} (d : PyDict.dict V) (v : string) (x : V) :
  PyDict.get d v = Some x -> In x (PyDict.values d).
Proof.
  unfold PyDict.values. induction d as [|[k y] d IH]; simpl; [discriminate|].
  destruct (String.eqb k v); [intros [= ->]; now left | right; auto].
Qed.

Lemma Qdiv_nonneg (a b : Q) : 0 <= a -> 0 <= b -> 0 <= a / b.
Proof.
  intros Ha Hb. unfold Qdiv. apply Qmult_le_0_compat; [exact Ha|].
  now apply Qinv_le_0_compat.
Qed.

(** C1 (amended): for a list of [n] distinct variables and an [n x n] gain
    matrix, a ranking dictionary returned by [calc_simple_rank] has the
    variables as keys, non-negative scores, and scores that sum to 1; and
    for a non-empty list of distinct variables, so has a ranking dictionary
    returned by [calc_blended_rank].  [np.linalg.eig] is taken to return as
    many eigenvector rows as its argument has rows, and [abs] to be
    non-negative. *)
Theorem ranking_dict_normalised
        (eig : matrix -> result (list Cx * list (list Cx)))
        (np_abs : Cx -> Q)
        (eigenvector_centrality : DiGraph -> result (PyDict.dict Q))
        (katz_centrality : DiGraph -> Q -> Q -> Z -> result (PyDict.dict Q)) :
  (forall M vals vecs, eig M = Ok (vals, vecs) -> length vecs = length M) ->
  (forall z, 0 <= np_abs z) ->
  (forall gainmatrix variables m d l,
      NoDup variables ->
      length gainmatrix = length variables ->
      rect (length variables) gainmatrix ->
      calc_simple_rank eig np_abs eigenvector_centrality katz_centrality
                       gainmatrix variables m = Ok (d, l) ->
      PyDict.keys d = variables /\
      (forall v x, PyDict.get d v = Some x -> 0 <= x) /\
      sum (PyDict.values d) == 1) /\
  (forall forwardrank backwardrank variablelist alpha d l,
      NoDup variablelist ->
      variablelist <> [] ->
      calc_blended_rank forwardrank backwardrank variablelist alpha = Ok (d, l) ->
      PyDict.keys d = variablelist /\
      (forall v x, PyDict.get d v = Some x -> 0 <= x) /\
      sum (PyDict.values d) == 1).
Proof.
  intros Hrows Habs. split.
  - intros G vars m d l Hnd Hl Hr H.
    apply calc_simple_rank_inv in H. cbv zeta in H.
    destruct H as (gn & W0 & W & eigval & eigvec & k & column & rn & wg & gg &
                   E1 & E2 & E3 & E4 & E5 & E6 & E7 & -> & _ & _).
    destruct (@weight_rows G m gn W0 W E1 E2 E3) as [_ HlW].
    rewrite (shape1_square Hl Hr) in HlW.
    unfold np_linalg_eig in E4.
    destruct (rectb (shape0 W) W); [|discriminate].
    apply Hrows in E4. apply length_get_col in E6.
    apply normalise_rank_Ok in E7. destruct E7 as [Hz ->].
    set (total := sum (map np_abs column)) in *.
    assert (Hlen : length (map (Qmult (1 / total)) (map np_abs column))
                   = length vars)
      by (rewrite !length_map; congruence).
    assert (Hkeys : map fst (combine vars (map (Qmult (1 / total))
                                               (map np_abs column))) = vars)
      by (rewrite map_fst_combine, Hlen; apply firstn_all).
    rewrite of_pairs_NoDup by (now rewrite Hkeys).
    assert (Hvals : PyDict.values (combine vars (map (Qmult (1 / total))
                                                     (map np_abs column)))
                    = map (Qmult (1 / total)) (map np_abs column)).
    { unfold PyDict.values. rewrite map_snd_combine, <- Hlen. apply firstn_all. }
    split; [exact Hkeys|]. split.
    + intros v x Hx. apply get_In_values in Hx. rewrite Hvals in Hx.
      apply in_map_iff in Hx. destruct Hx as (y & <- & Hy).
      apply in_map_iff in Hy. destruct Hy as (z & <- & _).
      apply Qmult_le_0_compat; [|apply Habs].
      apply Qdiv_nonneg; [discriminate|].
      apply sum_nonneg, Forall_forall. intros y Hy.
      apply in_map_iff in Hy. destruct Hy as (z' & <- & _). apply Habs.
    + rewrite Hvals, sum_map_mult. fold total. field. exact Hz.
  - intros f b vars alpha d l Hnd Hne H.
    apply calc_blended_rank_inv in H; [|exact Hnd].
    destruct H as (_ & Ht & -> & _). specialize (Ht Hne).
    split; [apply keys_map_pairs|]. split.
    + intros v x Hx. apply get_In_values in Hx.
      rewrite values_map_pairs in Hx. apply in_map_iff in Hx.
      destruct Hx as (u & <- & _).
      apply Qdiv_nonneg; [apply blend_nonneg | apply blend_total_nonneg].
    + rewrite values_map_pairs.
      rewrite <- (map_map (blend f b alpha)
                          (fun x => x / blend_total f b alpha vars)).
      rewrite sum_map_div. fold (blend_total f b alpha vars).
      field. exact Ht.
Qed.

Lemma ranking_dict_normalised_witness :
  (forall M vals vecs, eig_demo M = Ok (vals, vecs) -> length vecs = length M) /\
  (forall z, 0 <= abs_demo z) /\
  NoDup vars_ab /\
  length ones_matrix = length vars_ab /\
  rect (length vars_ab) ones_matrix /\
  simple_rank_demo ones_matrix vars_ab (1 # 2) =
    Ok ([("a", 1 # 2); ("b", 1 # 2)]%string,
        [("a", 1 # 2); ("b", 1 # 2)]%string) /\
  (PyDict.keys [("a", 1 # 2); ("b", 1 # 2)]%string = vars_ab /\
   (forall v x, PyDict.get [("a", 1 # 2); ("b", 1 # 2)]%string v = Some x ->
                0 <= x) /\
   sum (PyDict.values [("a", 1 # 2); ("b", 1 # 2)]%string) == 1) /\
  vars_ab <> [] /\
  calc_blended_rank fwd_demo bwd_demo vars_ab (1 # 2) =
    Ok ([("a", 70400 # 99200); ("b", 57600 # 198400)]%string,
        [("a", 70400 # 99200); ("b", 57600 # 198400)]%string) /\
  (PyDict.keys [("a", 70400 # 99200); ("b", 57600 # 198400)]%string = vars_ab /\
   (forall v x,
       PyDict.get [("a", 70400 # 99200); ("b", 57600 # 198400)]%string v
         = Some x -> 0 <= x) /\
   sum (PyDict.values [("a", 70400 # 99200); ("b", 57600 # 198400)]%string)
     == 1).
Proof.
  assert (R3 : rect (length vars_ab) ones_matrix)
    by (repeat constructor).
  pose proof (@ranking_dict_normalised eig_demo abs_demo centrality_demo
                katz_demo eig_demo_rows abs_demo_nonneg) as [Hs Hb].
  split; [exact eig_demo_rows|]. split; [exact abs_demo_nonneg|].
  split; [exact NoDup_vars_ab|]. split; [reflexivity|]. split; [exact R3|].
  split; [reflexivity|]. split.
  - apply (Hs ones_matrix vars_ab (1 # 2) _ [("a", 1 # 2); ("b", 1 # 2)]%string
              NoDup_vars_ab eq_refl R3).
    reflexivity.
  - split; [discriminate|]. split; [reflexivity|].
    apply (Hb fwd_demo bwd_demo vars_ab (1 # 2) _
              [("a", 70400 # 99200); ("b", 57600 # 198400)]%string
              NoDup_vars_ab).
    + discriminate.
    + reflexivity.
Defined.

(** C1 (as stated) fails: [calc_blended_rank] accepts the empty variable
    list and returns the empty dictionary, whose scores sum to 0; and
    [calc_simple_rank] accepts a [2 x 2] gain matrix with the single
    variable ["a"] and returns a dictionary whose scores sum to 1/2. *)
Lemma ranking_dict_not_normalised :
  (calc_blended_rank fwd_demo bwd_demo [] (1 # 2) = Ok ([], []) /\
   ~ sum (PyDict.values (@nil (string * Q))) == 1) /\
  (simple_rank_demo ones_matrix ["a"]%string (1 # 2) =
     Ok ([("a", 1 # 2)]%string, [("a", 1 # 2)]%string) /\
   ~ sum (PyDict.values [("a"%string, 1 # 2)]) == 1).
Proof.
  split; (split; [reflexivity | discriminate]).
Qed.

(** ** Shape mismatches in [calc_simple_rank] *)

Lemma for_each_raises_inv {S A : Type} (P : S -> Prop)
      (body : S -> A -> result S) (l : list A) (x : A) :
  (forall s y s', P s -> body s y = Ok s' -> P s') ->
  In x l ->
  (forall s, P s -> raises (body s x)) ->
  forall s, P s -> raises (for_each l body s).
Proof.
  intros Hpres Hin Hx. induction l as [|y l IH]; intros s Hs; [contradiction|].
  cbn [for_each]. destruct Hin as [->|Hin].
  - destruct (Hx s Hs) as [e He]. rewrite He. now exists e.
  - apply raises_bind. intros s' Hb. apply IH; [exact Hin|].
    eapply Hpres; eauto.
Qed.

Lemma for_each_raises {S A : Type} (body : S -> A -> result S)
      (l : list A) (x : A) (s : S) :
  In x l -> (forall s', raises (body s' x)) -> raises (for_each l body s).
Proof.
  intros Hin Hx.
  apply (@for_each_raises_inv S A (fun _ => True) body l x); auto.
Qed.





Section ShapeMismatch.

Variable eig : matrix -> result (list Cx * list (list Cx)).
Variable np_abs : Cx -> Q.
Variable eigenvector_centrality : DiGraph -> result (PyDict.dict Q).
Variable katz_centrality : DiGraph -> Q -> Q -> Z -> result (PyDict.dict Q).

Let simple_rank :=
  calc_simple_rank eig np_abs eigenvector_centrality katz_centrality.




End ShapeMismatch.





(** * Further properties *)

(** ** Ranking lists: [sorted(..., key=itemgetter(1), reverse=True)] *)

Lemma insert_desc_perm (x : string * Q) (l : list (string * Q)) :
  Permutation (insert_desc x l) (x :: l).
Proof.
  induction l as [|y l IH]; simpl; [reflexivity|].
  destruct (Qltb (snd x) (snd y)); [|reflexivity].
  rewrite IH. apply perm_swap.
Qed.

Lemma sorted_desc_perm (l : list (string * Q)) : Permutation (sorted_desc l) l.
Proof.
  induction l as [|x l IH]; simpl; [reflexivity|].
  rewrite insert_desc_perm. now constructor.
Qed.

Lemma Qltb_true (a b : Q) : Qltb a b = true -> a < b.
Proof.
  unfold Qltb. rewrite negb_true_iff. intros H.
  apply Qnot_le_lt. intros Hle. apply Qle_bool_iff in Hle. congruence.
Qed.

Lemma Qltb_false (a b : Q) : Qltb a b = false -> b <= a.
Proof.
  unfold Qltb. rewrite negb_false_iff. apply Qle_bool_iff.
Qed.

Lemma insert_desc_sorted (x : string * Q) (l : list (string * Q)) :
  StronglySorted desc l -> StronglySorted desc (insert_desc x l).
Proof.
  induction 1 as [|y l Hs IH Hy]; simpl.
  - repeat constructor.
  - destruct (Qltb (snd x) (snd y)) eqn:E.
    + constructor; [exact IH|].
      apply Forall_forall. intros z Hz.
      apply (Permutation_in _ (insert_desc_perm x l)) in Hz.
      destruct Hz as [<-|Hz].
      * unfold desc. apply Qlt_le_weak. now apply Qltb_true.
      * rewrite Forall_forall in Hy. now apply Hy.
    + apply Qltb_false in E. constructor; [now constructor|].
      constructor; [exact E|].
      apply Forall_forall. intros z Hz. rewrite Forall_forall in Hy.
      unfold desc in *. apply Qle_trans with (snd y); auto.
Qed.

Lemma sorted_desc_sorted (l : list (string * Q)) :
  StronglySorted desc (sorted_desc l).
Proof.
  induction l as [|x l IH]; simpl; [constructor|].
  now apply insert_desc_sorted.
Qed.

Lemma insert_desc_stable (q : Q) (x : string * Q) (l : list (string * Q)) :
  with_score q (insert_desc x l) = with_score q (x :: l).
Proof.
  unfold with_score. induction l as [|y l IH]; [reflexivity|].
  cbn [insert_desc]. destruct (Qltb (snd x) (snd y)) eqn:E; [|reflexivity].
  cbn [filter] in *. rewrite IH.
  destruct (Qeq_bool (snd x) q) eqn:Ex; [|reflexivity].
  destruct (Qeq_bool (snd y) q) eqn:Ey; [|reflexivity].
  apply Qltb_true in E. apply Qeq_bool_iff in Ex, Ey.
  rewrite Ex, Ey in E. now apply Qlt_irrefl in E.
Qed.

Lemma sorted_desc_keeps_ties (q : Q) (l : list (string * Q)) :
  with_score q (sorted_desc l) = with_score q l.
Proof.
  induction l as [|x l IH]; [reflexivity|].
  cbn [sorted_desc fold_right]. fold (sorted_desc l).
  rewrite insert_desc_stable. unfold with_score in *. cbn [filter].
  now rewrite IH.
Qed.

(** X1: the ranking list that [calc_blended_rank] and [calc_simple_rank]
    return beside the dictionary holds exactly the items of that dictionary,
    by non-increasing score, and items of equal score in the order of the
    dictionary. *)
Theorem ranking_list_sorted
        (eig : matrix -> result (list Cx * list (list Cx)))
        (np_abs : Cx -> Q)
        (eigenvector_centrality : DiGraph -> result (PyDict.dict Q))
        (katz_centrality : DiGraph -> Q -> Q -> Z -> result (PyDict.dict Q)) :
  (forall forwardrank backwardrank variablelist alpha d l,
      calc_blended_rank forwardrank backwardrank variablelist alpha = Ok (d, l) ->
      Permutation l d /\ StronglySorted desc l /\
      forall q, with_score q l = with_score q d) /\
  (forall gainmatrix variables m d l,
      calc_simple_rank eig np_abs eigenvector_centrality katz_centrality
                       gainmatrix variables m = Ok (d, l) ->
      Permutation l d /\ StronglySorted desc l /\
      forall q, with_score q l = with_score q d).
Proof.
  split.
  - intros f b vars alpha d l H. unfold calc_blended_rank in H.
    bind_inv H d1 E1. bind_inv H d2 E2. injection H as <- <-.
    split; [apply sorted_desc_perm|].
    split; [apply sorted_desc_sorted | intros q; apply sorted_desc_keeps_ties].
  - intros G vars m d l H. apply calc_simple_rank_inv in H. cbv zeta in H.
    destruct H as (gn & W0 & W & eigval & eigvec & k & column & rn & wg & gg &
                   _ & _ & _ & _ & _ & _ & _ & _ & -> & _).
    split; [apply sorted_desc_perm|].
    split; [apply sorted_desc_sorted | intros q; apply sorted_desc_keeps_ties].
Qed.

Lemma ranking_list_sorted_witness :
  calc_blended_rank fwd_demo bwd_demo vars_ab (1 # 2) =
    Ok ([("a", 70400 # 99200); ("b", 57600 # 198400)]%string,
        [("a", 70400 # 99200); ("b", 57600 # 198400)]%string) /\
  (Permutation [("a", 70400 # 99200); ("b", 57600 # 198400)]%string
               [("a", 70400 # 99200); ("b", 57600 # 198400)]%string /\
   StronglySorted desc [("a", 70400 # 99200); ("b", 57600 # 198400)]%string /\
   forall q,
     with_score q [("a", 70400 # 99200); ("b", 57600 # 198400)]%string =
     with_score q [("a", 70400 # 99200); ("b", 57600 # 198400)]%string) /\
  simple_rank_demo ones_matrix vars_ab (1 # 2) =
    Ok ([("a", 1 # 2); ("b", 1 # 2)]%string,
        [("a", 1 # 2); ("b", 1 # 2)]%string) /\
  (Permutation [("a", 1 # 2); ("b", 1 # 2)]%string
               [("a", 1 # 2); ("b", 1 # 2)]%string /\
   StronglySorted desc [("a", 1 # 2); ("b", 1 # 2)]%string /\
   forall q,
     with_score q [("a", 1 # 2); ("b", 1 # 2)]%string =
     with_score q [("a", 1 # 2); ("b", 1 # 2)]%string).
Proof.
  split; [reflexivity|]. split; [|split; [reflexivity|]].
  - apply (proj1 (ranking_list_sorted eig_demo abs_demo centrality_demo
                                      katz_demo)
             fwd_demo bwd_demo vars_ab (1 # 2)).
    reflexivity.
  - apply (proj2 (ranking_list_sorted eig_demo abs_demo centrality_demo
                                      katz_demo)
             ones_matrix vars_ab (1 # 2)).
    reflexivity.
Defined.

(** ** Loops that stop at the first exception *)

Lemma for_each_first_raise {S A : Type} (body : S -> A -> result S) (e : exn)
      (good : A -> bool) (l : list A) :
  (forall s x, In x l -> good x = true -> exists s', body s x = Ok s') ->
  (forall s x, In x l -> good x = false -> body s x = Raise e) ->
  (exists x, In x l /\ good x = false) ->
  forall s, for_each l body s = Raise e.
Proof.
  induction l as [|x l IH]; intros Hok Hbad (y & Hy & Hg) s; [contradiction|].
  cbn [for_each]. destruct (good x) eqn:Ex.
  - destruct (Hok s x) as (s' & ->); [now left | exact Ex |]. cbn [bind].
    apply IH.
    + intros s0 z Hz. apply Hok. now right.
    + intros s0 z Hz. apply Hbad. now right.
    + destruct Hy as [<-|Hy]; [congruence | now exists y].
  - rewrite Hbad by (auto; now left). reflexivity.
Qed.

Lemma sum_perm (l l' : list Q) : Permutation l l' -> sum l == sum l'.
Proof.
  induction 1 as [|x l l' _ IH|x y l|l l' l'' _ IH1 _ IH2].
  - reflexivity.
  - now rewrite !sum_cons, IH.
  - rewrite !sum_cons. ring.
  - now rewrite IH1.
Qed.

Lemma sum_map_minus {A : Type} (f g : A -> Q) (l : list A) :
  sum (map (fun x => f x - g x) l) == sum (map f l) - sum (map g l).
Proof.
  induction l as [|x l IH]; cbn [map].
  - rewrite sum_nil. ring.
  - rewrite !sum_cons, IH. ring.
Qed.

Lemma fill_loop (body : PyDict.dict Q -> string -> result (PyDict.dict Q))
      (f : string -> Q) (l : list string) : forall d,
  NoDup l -> (forall v, In v l -> ~ In v (PyDict.keys d)) ->
  (forall acc v, In v l -> body acc v = Ok (PyDict.set acc v (f v))) ->
  for_each l body d = Ok (d ++ map (fun v => (v, f v)) l).
Proof.
  induction l as [|x l IH]; intros d Hnd Hdis Hb; cbn [for_each map].
  - now rewrite app_nil_r.
  - inversion Hnd as [|? ? Hx Hl]; subst.
    rewrite Hb by now left. cbn [bind].
    rewrite set_new by (apply Hdis; now left).
    rewrite IH; [now rewrite <- app_assoc | exact Hl | | ].
    + intros v Hv. unfold PyDict.keys. rewrite map_app, in_app_iff. simpl.
      intros [H|[H|[]]].
      * revert H. apply Hdis. now right.
      * subst. contradiction.
    + intros acc v Hv. apply Hb. now right.
Qed.

Lemma divide_loop_zero (total : Q) (f : string -> Q) (l : list string) :
  l <> [] -> total == 0 ->
  for_each l (divide_body total) (map (fun v => (v, f v)) l) = Raise NonFinite.
Proof.
  destruct l as [|x l]; [congruence|]. intros _ Ht.
  cbn [for_each map]. unfold divide_body at 1, PyDict.getitem.
  cbn [PyDict.get]. rewrite String.eqb_refl. cbn [bind].
  unfold pydiv. apply Qeq_bool_iff in Ht. now rewrite Ht.
Qed.

Lemma score_map_pairs (f : string -> Q) (l : list string) (v : string) :
  score (map (fun x => (x, f x)) l) v = if in_dec string_dec v l then f v else 0.
Proof.
  unfold score. destruct (in_dec string_dec v l) as [Hin|Hnin].
  - now rewrite get_map_pairs.
  - assert (H : PyDict.get (map (fun x => (x, f x)) l) v = None).
    { apply get_None_keys. now rewrite keys_map_pairs. }
    now rewrite H.
Qed.

(** ** [norm_dict] *)

(** X2: [norm_dict] divides every value by the sum of all values and keeps
    the keys in place, so that the values of the result add up to 1; on a
    dictionary that is not empty and whose values add up to zero the
    division fails, and the empty dictionary is returned as it is. *)
Theorem norm_dict_normalises (dictionary : PyDict.dict Q) :
  (~ sum (PyDict.values dictionary) == 0 ->
   exists d,
     norm_dict dictionary = Ok d /\
     PyDict.keys d = PyDict.keys dictionary /\
     PyDict.values d =
       map (fun x => x / sum (PyDict.values dictionary))
           (PyDict.values dictionary) /\
     sum (PyDict.values d) == 1) /\
  (dictionary <> [] -> sum (PyDict.values dictionary) == 0 ->
   norm_dict dictionary = Raise NonFinite) /\
  (dictionary = [] -> norm_dict dictionary = Ok []).
Proof.
  split; [|split].
  - intros Ht.
    exists (map (fun kv => (fst kv, snd kv / sum (PyDict.values dictionary)))
                dictionary).
    split; [|split; [|split]].
    + unfold norm_dict. apply mapM_Ok. intros kv _.
      now rewrite pydiv_nonzero.
    + unfold PyDict.keys. rewrite map_map. reflexivity.
    + unfold PyDict.values. rewrite !map_map. reflexivity.
    + unfold PyDict.values at 1. rewrite map_map. cbn [snd].
      rewrite <- (map_map snd (fun x => x / sum (PyDict.values dictionary))).
      rewrite sum_map_div. fold (PyDict.values dictionary). now field.
  - intros Hne Ht. destruct dictionary as [|[k x] d]; [congruence|].
    unfold norm_dict. cbn [mapM snd]. unfold pydiv.
    apply Qeq_bool_iff in Ht. now rewrite Ht.
  - intros ->. reflexivity.
Qed.

Lemma norm_dict_normalises_witness :
  ~ sum (PyDict.values fwd_demo) == 0 /\
  (exists d,
     norm_dict fwd_demo = Ok d /\
     PyDict.keys d = PyDict.keys fwd_demo /\
     PyDict.values d =
       map (fun x => x / sum (PyDict.values fwd_demo)) (PyDict.values fwd_demo) /\
     sum (PyDict.values d) == 1) /\
  cancel_demo <> [] /\
  sum (PyDict.values cancel_demo) == 0 /\
  norm_dict cancel_demo = Raise NonFinite.
Proof.
  assert (H : ~ sum (PyDict.values fwd_demo) == 0) by (vm_compute; discriminate).
  split; [exact H|]. split.
  - apply (proj1 (norm_dict_normalises fwd_demo)). exact H.
  - split; [discriminate|]. split; [reflexivity|].
    apply (proj1 (proj2 (norm_dict_normalises cancel_demo)));
      [discriminate | reflexivity].
Defined.

(** ** [normalise_rankinglist] *)

Section RankingList.

Import PyDict.
Variable rankingdict : dict Q.

Lemma restrict_body_Ok acc v :
  get rankingdict v <> None ->
  restrict_body rankingdict acc v = Ok (set acc v (score rankingdict v)).
Proof.
  unfold restrict_body, getitem, score.
  destruct (get rankingdict v); [reflexivity | congruence].
Qed.

Lemma restrict_body_KeyError acc v :
  get rankingdict v = None -> restrict_body rankingdict acc v = Raise KeyError.
Proof. unfold restrict_body, getitem. now intros ->. Qed.

Lemma restrict_loop_KeyError l :
  (exists v, In v l /\ get rankingdict v = None) ->
  for_each l (restrict_body rankingdict) [] = Raise KeyError.
Proof.
  intros (v & Hv & Hn).
  apply for_each_first_raise
    with (good := fun v => match get rankingdict v with
                           | Some _ => true
                           | None => false
                           end).
  - intros s x _ Hx. eexists. apply restrict_body_Ok.
    destruct (get rankingdict x); [discriminate | discriminate].
  - intros s x _ Hx. apply restrict_body_KeyError.
    destruct (get rankingdict x); [discriminate | reflexivity].
  - exists v. split; [exact Hv|]. now rewrite Hn.
Qed.

End RankingList.

(** X3: [normalise_rankinglist] keeps the listed variables only and divides
    their scores by the sum of these scores: the list it returns holds one
    item per listed variable, by non-increasing score, and its scores add up
    to 1.  A listed variable that the dictionary does not know is a
    [KeyError]; scores that add up to zero make the division fail. *)
Theorem normalise_rankinglist_spec (rankingdict : PyDict.dict Q)
        (originalvariables : list string) :
  NoDup originalvariables ->
  ((exists v, In v originalvariables /\ PyDict.get rankingdict v = None) ->
   normalise_rankinglist rankingdict originalvariables = Raise KeyError) /\
  ((forall v, In v originalvariables -> PyDict.get rankingdict v <> None) ->
   (originalvariables <> [] ->
    sum (map (score rankingdict) originalvariables) == 0 ->
    normalise_rankinglist rankingdict originalvariables = Raise NonFinite) /\
   (~ sum (map (score rankingdict) originalvariables) == 0 ->
    exists l,
      normalise_rankinglist rankingdict originalvariables = Ok l /\
      Permutation l
        (map (fun v => (v, score rankingdict v /
                           sum (map (score rankingdict) originalvariables)))
             originalvariables) /\
      StronglySorted desc l /\
      sum (map snd l) == 1)).
Proof.
  intros Hnd. split.
  - intros H. unfold normalise_rankinglist.
    now rewrite restrict_loop_KeyError.
  - intros Hp.
    assert (E : for_each originalvariables (restrict_body rankingdict) [] =
                Ok (map (fun v => (v, score rankingdict v)) originalvariables)).
    { apply (@fill_loop (restrict_body rankingdict) (score rankingdict)
                        originalvariables []); auto.
      intros acc v Hv. apply restrict_body_Ok. now apply Hp. }
    split.
    + intros Hne Ht. unfold normalise_rankinglist. rewrite E. cbn [bind].
      rewrite values_map_pairs. now rewrite divide_loop_zero.
    + intros Ht. unfold normalise_rankinglist. rewrite E. cbn [bind].
      rewrite values_map_pairs. rewrite divide_loop_Ok_nil by auto.
      cbn [bind]. eexists. split; [reflexivity|].
      split; [apply sorted_desc_perm|]. split; [apply sorted_desc_sorted|].
      rewrite (sum_perm (Permutation_map snd (sorted_desc_perm _))).
      rewrite map_map. cbn [snd].
      rewrite <- (map_map (score rankingdict)
                          (fun x => x / sum (map (score rankingdict)
                                                 originalvariables))).
      rewrite sum_map_div. now field.
Qed.

Lemma normalise_rankinglist_spec_witness :
  NoDup vars_ab /\
  (forall v, In v vars_ab -> PyDict.get fwd_demo v <> None) /\
  ~ sum (map (score fwd_demo) vars_ab) == 0 /\
  (exists l,
     normalise_rankinglist fwd_demo vars_ab = Ok l /\
     Permutation l
       (map (fun v => (v, score fwd_demo v / sum (map (score fwd_demo) vars_ab)))
            vars_ab) /\
     StronglySorted desc l /\
     sum (map snd l) == 1) /\
  (exists v, In v vars_abc /\ PyDict.get fwd_demo v = None) /\
  normalise_rankinglist fwd_demo vars_abc = Raise KeyError /\
  normalise_rankinglist cancel_demo vars_ab = Raise NonFinite.
Proof.
  assert (Hp : forall v, In v vars_ab -> PyDict.get fwd_demo v <> None).
  { intros v [<-|[<-|[]]]; discriminate. }
  assert (Hp' : forall v, In v vars_ab -> PyDict.get cancel_demo v <> None).
  { intros v [<-|[<-|[]]]; discriminate. }
  assert (Ht : ~ sum (map (score fwd_demo) vars_ab) == 0)
    by (vm_compute; discriminate).
  assert (Hc : exists v, In v vars_abc /\ PyDict.get fwd_demo v = None).
  { exists "c"%string. split; [simpl; auto | reflexivity]. }
  split; [exact NoDup_vars_ab|]. split; [exact Hp|]. split; [exact Ht|].
  split; [|split; [exact Hc|split]].
  - apply (proj2 (normalise_rankinglist_spec fwd_demo NoDup_vars_ab) Hp).
    exact Ht.
  - apply (proj1 (normalise_rankinglist_spec fwd_demo NoDup_vars_abc)).
    exact Hc.
  - apply (proj2 (normalise_rankinglist_spec cancel_demo NoDup_vars_ab) Hp').
    + discriminate.
    + reflexivity.
Defined.

(** ** [calc_blended_rank]: failures and symmetry *)

Lemma Qabs_zero (x : Q) : Qabs x == 0 -> x == 0.
Proof.
  apply (Qabs_case x (fun a => a == 0 -> x == 0)); intros _ H; [exact H|].
  rewrite <- (Qopp_involutive x), H. reflexivity.
Qed.

Section BlendedFailures.

Import PyDict.
Variables (forwardrank backwardrank : dict Q) (alpha : Q).

Lemma blend_body_KeyError d v :
  ~ present forwardrank backwardrank v ->
  blend_body forwardrank backwardrank alpha d v = Raise KeyError.
Proof.
  unfold present, blend_body, getitem. intros H.
  destruct (get forwardrank v); [|reflexivity].
  destruct (get backwardrank v); [|reflexivity].
  elim H. split; discriminate.
Qed.

Lemma present_dec v :
  {present forwardrank backwardrank v} + {~ present forwardrank backwardrank v}.
Proof.
  unfold present.
  destruct (get forwardrank v); [|right; tauto].
  destruct (get backwardrank v); [|right; tauto].
  left. split; discriminate.
Qed.

Lemma blend_loop_KeyError l :
  (exists v, In v l /\ ~ present forwardrank backwardrank v) ->
  for_each l (blend_body forwardrank backwardrank alpha) [] = Raise KeyError.
Proof.
  intros (v & Hv & Hn).
  apply for_each_first_raise
    with (good := fun v => if present_dec v then true else false).
  - intros s x _ Hx. destruct (present_dec x) as [Hp|]; [|discriminate].
    eexists. now apply blend_body_Ok.
  - intros s x _ Hx. destruct (present_dec x) as [|Hp]; [discriminate|].
    now apply blend_body_KeyError.
  - exists v. split; [exact Hv|]. now destruct (present_dec v).
Qed.

End BlendedFailures.

(** X4: [calc_blended_rank] fails with a [KeyError] when a listed variable
    is missing from the forward or from the backward ranking, and its
    division fails when the list is not empty and all blended scores are
    zero; it never fails in another way on a list without repetition. *)
Theorem calc_blended_rank_failures (forwardrank backwardrank : PyDict.dict Q)
        (variablelist : list string) (alpha : Q) :
  ((exists v, In v variablelist /\ ~ present forwardrank backwardrank v) ->
   calc_blended_rank forwardrank backwardrank variablelist alpha =
     Raise KeyError) /\
  (NoDup variablelist ->
   (forall v, In v variablelist -> present forwardrank backwardrank v) ->
   (variablelist <> [] ->
    (forall v, In v variablelist ->
               (1 - alpha) * score forwardrank v +
               alpha * score backwardrank v == 0) ->
    calc_blended_rank forwardrank backwardrank variablelist alpha =
      Raise NonFinite) /\
   ((exists v, In v variablelist /\
               ~ (1 - alpha) * score forwardrank v +
                 alpha * score backwardrank v == 0) ->
    exists d l,
      calc_blended_rank forwardrank backwardrank variablelist alpha =
        Ok (d, l))).
Proof.
  split.
  - intros H. unfold calc_blended_rank. now rewrite blend_loop_KeyError.
  - intros Hnd Hp. split.
    + intros Hne Hz. unfold calc_blended_rank.
      rewrite blend_loop_Ok_nil by auto. cbn [bind].
      rewrite values_map_pairs. rewrite divide_loop_zero; [reflexivity | exact Hne |].
      rewrite (@sum_map_ext _ _ (fun _ => 0)).
      * clear. induction variablelist as [|x l IH]; [reflexivity|].
        cbn [map]. rewrite sum_cons, IH. ring.
      * intros v Hv. unfold blend. rewrite (Hz v Hv). reflexivity.
    + intros (v & Hv & Hnz).
      rewrite calc_blended_rank_Ok; [eauto | exact Hnd | exact Hp |].
      intros Ht. apply Hnz.
      assert (Hb : blend forwardrank backwardrank alpha v == 0).
      { apply in_split in Hv. destruct Hv as (l1 & l2 & ->).
        unfold blend_total in Ht. rewrite map_app in Ht. cbn [map] in Ht.
        rewrite sum_app, sum_cons in Ht.
        pose proof (blend_total_nonneg forwardrank backwardrank alpha l1) as H1.
        pose proof (blend_total_nonneg forwardrank backwardrank alpha l2) as H2.
        pose proof (blend_nonneg forwardrank backwardrank alpha v) as H3.
        unfold blend_total in H1, H2.
        apply Qle_antisym; [|exact H3].
        rewrite <- Ht.
        setoid_replace (blend forwardrank backwardrank alpha v)
          with (0 + (blend forwardrank backwardrank alpha v + 0)) at 1 by ring.
        apply Qplus_le_compat; [exact H1|].
        apply Qplus_le_compat; [apply Qle_refl | exact H2]. }
      now apply Qabs_zero.
Qed.

Lemma present_demo : forall v, In v vars_ab -> present fwd_demo bwd_demo v.
Proof. intros v [<-|[<-|[]]]; split; discriminate. Qed.

Lemma present_zero : forall v, In v vars_ab -> present fwd_zero bwd_zero v.
Proof. intros v [<-|[<-|[]]]; split; discriminate. Qed.

Lemma calc_blended_rank_failures_witness :
  (exists v, In v vars_abc /\ ~ present fwd_demo bwd_demo v) /\
  calc_blended_rank fwd_demo bwd_demo vars_abc (1 # 2) = Raise KeyError /\
  NoDup vars_ab /\
  (forall v, In v vars_ab -> present fwd_zero bwd_zero v) /\
  vars_ab <> [] /\
  (forall v, In v vars_ab ->
             (1 - (1 # 2)) * score fwd_zero v + (1 # 2) * score bwd_zero v == 0) /\
  calc_blended_rank fwd_zero bwd_zero vars_ab (1 # 2) = Raise NonFinite /\
  (forall v, In v vars_ab -> present fwd_demo bwd_demo v) /\
  (exists v, In v vars_ab /\
             ~ (1 - (1 # 2)) * score fwd_demo v + (1 # 2) * score bwd_demo v == 0) /\
  (exists d l, calc_blended_rank fwd_demo bwd_demo vars_ab (1 # 2) = Ok (d, l)).
Proof.
  assert (Hc : exists v, In v vars_abc /\ ~ present fwd_demo bwd_demo v).
  { exists "c"%string. split; [simpl; auto|]. intros [H _]. now apply H. }
  assert (Hz : forall v, In v vars_ab ->
                 (1 - (1 # 2)) * score fwd_zero v + (1 # 2) * score bwd_zero v == 0).
  { intros v [<-|[<-|[]]]; reflexivity. }
  assert (Hn : exists v, In v vars_ab /\
                 ~ (1 - (1 # 2)) * score fwd_demo v + (1 # 2) * score bwd_demo v == 0).
  { exists "a"%string. split; [simpl; auto | vm_compute; discriminate]. }
  split; [exact Hc|]. split.
  { apply (proj1 (calc_blended_rank_failures fwd_demo bwd_demo vars_abc (1 # 2))).
    exact Hc. }
  split; [exact NoDup_vars_ab|]. split; [exact present_zero|].
  split; [discriminate|]. split; [exact Hz|]. split.
  { apply (proj2 (calc_blended_rank_failures fwd_zero bwd_zero vars_ab (1 # 2))
                 NoDup_vars_ab present_zero);
      [discriminate | exact Hz]. }
  split; [exact present_demo|]. split; [exact Hn|].
  apply (proj2 (calc_blended_rank_failures fwd_demo bwd_demo vars_ab (1 # 2))
               NoDup_vars_ab present_demo).
  exact Hn.
Defined.

Lemma blend_swap (f b : PyDict.dict Q) (alpha : Q) (v : string) :
  blend b f (1 - alpha) v == blend f b alpha v.
Proof.
  unfold blend.
  setoid_replace ((1 - (1 - alpha)) * score b v + (1 - alpha) * score f v)
    with ((1 - alpha) * score f v + alpha * score b v) by ring.
  reflexivity.
Qed.

Lemma blend_total_swap (f b : PyDict.dict Q) (alpha : Q) (l : list string) :
  blend_total b f (1 - alpha) l == blend_total f b alpha l.
Proof.
  unfold blend_total. apply sum_map_ext. intros v _. apply blend_swap.
Qed.

Lemma Qltb_compat (a a' b b' : Q) : a == a' -> b == b' -> Qltb a b = Qltb a' b'.
Proof.
  intros Ha Hb. unfold Qltb. f_equal.
  destruct (Qle_bool b a) eqn:E, (Qle_bool b' a') eqn:E'; try reflexivity.
  - apply Qle_bool_iff in E. rewrite Ha, Hb in E. apply Qle_bool_iff in E.
    congruence.
  - apply Qle_bool_iff in E'. rewrite <- Ha, <- Hb in E'.
    apply Qle_bool_iff in E'. congruence.
Qed.

Lemma insert_desc_same (x x' : string * Q) (l l' : list (string * Q)) :
  same_item x x' -> Forall2 same_item l l' ->
  Forall2 same_item (insert_desc x l) (insert_desc x' l').
Proof.
  intros Hx H. induction H as [|y y' l l' Hy Hl IH]; cbn [insert_desc].
  - constructor; [exact Hx | constructor].
  - rewrite (@Qltb_compat (snd x) (snd x') (snd y) (snd y'))
      by (apply Hx || apply Hy).
    destruct (Qltb (snd x') (snd y')); [now constructor|].
    constructor; [exact Hx|]. now constructor.
Qed.

Lemma sorted_desc_same (l l' : list (string * Q)) :
  Forall2 same_item l l' -> Forall2 same_item (sorted_desc l) (sorted_desc l').
Proof.
  induction 1 as [|x x' l l' Hx Hl IH]; [constructor|].
  cbn [sorted_desc fold_right]. now apply insert_desc_same.
Qed.

(** X5: exchanging the forward and the backward ranking and replacing
    [alpha] by [1 - alpha] does not change the blended ranking: the call
    returns whenever the original one does, and both the dictionary and the
    ranking list hold the same variables with the same scores in the same
    place. *)
Theorem calc_blended_rank_swap (forwardrank backwardrank : PyDict.dict Q)
        (variablelist : list string) (alpha : Q)
        (d : PyDict.dict Q) (l : list (string * Q)) :
  NoDup variablelist ->
  calc_blended_rank forwardrank backwardrank variablelist alpha = Ok (d, l) ->
  exists d' l',
    calc_blended_rank backwardrank forwardrank variablelist (1 - alpha) =
      Ok (d', l') /\
    Forall2 same_item d' d /\ Forall2 same_item l' l.
Proof.
  intros Hnd H.
  apply calc_blended_rank_inv in H; [|exact Hnd].
  destruct H as (Hp & Ht & -> & ->).
  destruct variablelist as [|x vs] eqn:Ev.
  { exists [], []. repeat split; constructor. }
  rewrite <- Ev in *.
  assert (Hne : variablelist <> []) by (rewrite Ev; discriminate).
  specialize (Ht Hne).
  assert (Ht' : ~ blend_total backwardrank forwardrank (1 - alpha) variablelist
                  == 0) by now rewrite blend_total_swap.
  rewrite calc_blended_rank_Ok;
    [| exact Hnd | intros v Hv; destruct (Hp v Hv); now split | exact Ht'].
  eexists. eexists. split; [reflexivity|].
  assert (Hd : Forall2 same_item
                 (map (fun v => (v, blend backwardrank forwardrank (1 - alpha) v /
                                    blend_total backwardrank forwardrank
                                                (1 - alpha) variablelist))
                      variablelist)
                 (map (fun v => (v, blend forwardrank backwardrank alpha v /
                                    blend_total forwardrank backwardrank alpha
                                                variablelist))
                      variablelist)).
  { generalize variablelist at 2 4. intros vs0.
    induction vs0 as [|y vs0 IH]; cbn [map]; constructor; [|exact IH].
    split; [reflexivity|]. cbn [snd].
    now rewrite blend_swap, blend_total_swap. }
  split; [exact Hd | now apply sorted_desc_same].
Qed.

Lemma calc_blended_rank_swap_witness :
  NoDup vars_ab /\
  calc_blended_rank fwd_demo bwd_demo vars_ab (1 # 4) =
    Ok ([("a", 4300800 # 6246400); ("b", 3891200 # 12492800)]%string,
        [("a", 4300800 # 6246400); ("b", 3891200 # 12492800)]%string) /\
  exists d' l',
    calc_blended_rank bwd_demo fwd_demo vars_ab (1 - (1 # 4)) = Ok (d', l') /\
    Forall2 same_item d' [("a", 4300800 # 6246400); ("b", 3891200 # 12492800)]%string /\
    Forall2 same_item l' [("a", 4300800 # 6246400); ("b", 3891200 # 12492800)]%string.
Proof.
  split; [exact NoDup_vars_ab|]. split; [reflexivity|].
  apply (@calc_blended_rank_swap fwd_demo bwd_demo vars_ab (1 # 4) _ _
                                 NoDup_vars_ab).
  reflexivity.
Defined.

(** ** [calc_transient_importancediffs]: failures and conservation *)

Section TransientFailures.

Import PyDict.
Variable variable : string.

Lemma known_dec d : {known variable d} + {~ known variable d}.
Proof.
  unfold known. destruct (get d variable); [left; discriminate | right; tauto].
Qed.

Lemma getitem_unknown (d : dict Q) :
  ~ known variable d -> getitem d variable = Raise KeyError.
Proof.
  unfold known, getitem. destruct (get d variable); [|reflexivity].
  intros H. elim H. discriminate.
Qed.

Lemma diff_loop_KeyError others : forall pre prev,
  ~ Forall (known variable) others ->
  for_each (combine (seq (length pre) (length others)) others)
           (diff_body variable)
           (pre ++ repeat NaN (length others), prev) = Raise KeyError.
Proof.
  induction others as [|d others IH]; intros pre prev Hk.
  - elim Hk. constructor.
  - cbn [length seq combine for_each repeat].
    destruct (known_dec d) as [Hd|Hd].
    + assert (E : diff_body variable
                    (pre ++ NaN :: repeat NaN (length others), prev)
                    (length pre, d)
                  = Ok (pre ++ Val (score d variable - prev)
                            :: repeat NaN (length others),
                        score d variable)).
      { unfold diff_body. rewrite getitem_known by exact Hd. cbn [bind].
        unfold setitem.
        assert (Hlt : (length pre <?
                       length (pre ++ NaN :: repeat NaN (length others)))%nat
                      = true).
        { apply Nat.ltb_lt. rewrite length_app. simpl. lia. }
        now rewrite Hlt, set_nth_app_here. }
      rewrite E. cbn [bind].
      assert (Ho : ~ Forall (known variable) others)
        by (intros Ho; apply Hk; now constructor).
      pose proof (IH (pre ++ [Val (score d variable - prev)])
                     (score d variable) Ho) as IHp.
      rewrite length_app, <- !app_assoc in IHp. simpl in IHp.
      rewrite Nat.add_1_r in IHp. exact IHp.
    + unfold diff_body at 1. now rewrite getitem_unknown.
Qed.

Lemma transient_body_KeyError rankingdicts t b :
  rankingdicts <> [] -> ~ Forall (known variable) rankingdicts ->
  transient_body rankingdicts (t, b) variable = Raise KeyError.
Proof.
  intros Hne Hk. unfold transient_body.
  destruct rankingdicts as [|first others]; [congruence|].
  destruct (known_dec first) as [Hf|Hf].
  - rewrite getitem_known by exact Hf. cbn [bind]. unfold enumerate.
    replace (length (first :: others) - 1)%nat with (length others)
      by (simpl; lia).
    assert (Ho : ~ Forall (known variable) others)
      by (intros Ho; apply Hk; now constructor).
    pose proof (@diff_loop_KeyError others [] (score first variable) Ho) as E.
    simpl in E. now rewrite E.
  - now rewrite getitem_unknown.
Qed.

End TransientFailures.

Lemma Forall_known_dec (v : string) (rankingdicts : list (PyDict.dict Q)) :
  {Forall (known v) rankingdicts} + {~ Forall (known v) rankingdicts}.
Proof. apply Forall_dec. intros d. apply known_dec. Qed.

(** X6: [calc_transient_importancediffs] returns two empty dictionaries for
    an empty variable list, whatever the boxes; with a variable to treat it
    raises [ValueError] when there is no box at all, and [KeyError] when
    some box does not know some listed variable. *)
Theorem calc_transient_importancediffs_failures
        (rankingdicts : list (PyDict.dict Q)) (variablelist : list string) :
  (variablelist = [] ->
   calc_transient_importancediffs rankingdicts variablelist = Ok ([], [])) /\
  (variablelist <> [] -> rankingdicts = [] ->
   calc_transient_importancediffs rankingdicts variablelist =
     Raise ValueError) /\
  (rankingdicts <> [] ->
   (exists d v, In d rankingdicts /\ In v variablelist /\
                PyDict.get d v = None) ->
   calc_transient_importancediffs rankingdicts variablelist = Raise KeyError).
Proof.
  split; [|split].
  - intros ->. reflexivity.
  - intros Hne ->. destruct variablelist as [|x l]; [congruence|]. reflexivity.
  - intros Hne (d & v & Hd & Hv & Hn). unfold calc_transient_importancediffs.
    apply for_each_first_raise
      with (good := fun v => if Forall_known_dec v rankingdicts
                             then true else false).
    + intros [t b] x _ Hx.
      destruct (Forall_known_dec x rankingdicts) as [Hk|]; [|discriminate].
      eexists. apply transient_body_Ok. now split.
    + intros [t b] x _ Hx.
      destruct (Forall_known_dec x rankingdicts) as [|Hk]; [discriminate|].
      now apply transient_body_KeyError.
    + exists v. split; [exact Hv|].
      destruct (Forall_known_dec v rankingdicts) as [Hk|]; [|reflexivity].
      rewrite Forall_forall in Hk. now elim (Hk d Hd).
Qed.

Lemma calc_transient_importancediffs_failures_witness :
  calc_transient_importancediffs boxes_demo [] = Ok ([], []) /\
  vars_ab <> [] /\
  calc_transient_importancediffs [] vars_ab = Raise ValueError /\
  boxes_demo <> [] /\
  (exists d v, In d boxes_demo /\ In v vars_abc /\ PyDict.get d v = None) /\
  calc_transient_importancediffs boxes_demo vars_abc = Raise KeyError.
Proof.
  assert (Hc : exists d v, In d boxes_demo /\ In v vars_abc /\
                           PyDict.get d v = None).
  { exists (nth 1 boxes_demo []), "c"%string.
    split; [simpl; auto|]. split; [simpl; auto | reflexivity]. }
  split.
  { apply (proj1 (calc_transient_importancediffs_failures boxes_demo [])).
    reflexivity. }
  split; [discriminate|]. split.
  { apply (proj1 (proj2 (calc_transient_importancediffs_failures [] vars_ab)));
      [discriminate | reflexivity]. }
  split; [discriminate|]. split; [exact Hc|].
  apply (proj2 (proj2 (calc_transient_importancediffs_failures
                         boxes_demo vars_abc)));
    [discriminate | exact Hc].
Defined.

Lemma nth_map_Val (l : list Q) (k : nat) :
  (k < length l)%nat -> nth k (map Val l) NaN = Val (nth k l 0).
Proof.
  revert k. induction l as [|x l IH]; intros [|k] Hk; simpl in Hk; try lia.
  - reflexivity.
  - cbn [map nth]. apply IH. lia.
Qed.

Lemma diffs_of_nth (rankingdicts : list (PyDict.dict Q)) (v : string) (k : nat) :
  (k < length rankingdicts - 1)%nat ->
  (length (diffs_of rankingdicts v) = length rankingdicts - 1)%nat /\
  nth k (diffs_of rankingdicts v) 0 =
  score (nth (S k) rankingdicts []) v - score (nth k rankingdicts []) v.
Proof.
  intros Hk. unfold diffs_of, series.
  destruct rankingdicts as [|first others]; [simpl in Hk; lia|].
  cbn [map hd tl length] in *. rewrite length_successive_diffs, length_map.
  split; [lia|].
  rewrite nth_successive_diffs by (rewrite length_map; lia).
  change (score first v :: map (fun d => score d v) others)
    with (map (fun d => score d v) (first :: others)).
  change 0 with (score [] v).
  rewrite !(map_nth (fun d => score d v)). reflexivity.
Qed.

(** X7: when every box gives the listed variables the same total score (as
    the normalised rankings do, whose scores add up to 1), the importance
    differences of one step add up to zero over the listed variables: what
    one variable gains between two boxes, the others lose. *)
Theorem transient_diffs_conserve (rankingdicts : list (PyDict.dict Q))
        (variablelist : list string) (total : Q)
        (transientdict : PyDict.dict (list float)) (basevaldict : PyDict.dict Q) :
  calc_transient_importancediffs rankingdicts variablelist =
    Ok (transientdict, basevaldict) ->
  (forall d, In d rankingdicts ->
             sum (map (score d) variablelist) == total) ->
  forall k, (k < length rankingdicts - 1)%nat ->
            sum (map (fun v => diff_at transientdict v k) variablelist) == 0.
Proof.
  intros H Hsum. unfold calc_transient_importancediffs in H.
  apply transient_loop in H. destruct H as [H _].
  intros k Hk.
  rewrite (@sum_map_ext _ _ (fun v => score (nth (S k) rankingdicts []) v -
                                      score (nth k rankingdicts []) v)).
  - rewrite sum_map_minus.
    rewrite !Hsum by (apply nth_In; lia). ring.
  - intros v Hv. destruct (H v Hv) as (_ & Ht & _).
    unfold diff_at. rewrite Ht.
    destruct (diffs_of_nth rankingdicts v Hk) as [Hl Hn].
    rewrite nth_map_Val by lia. rewrite Hn. reflexivity.
Qed.

Lemma transient_diffs_conserve_witness :
  calc_transient_importancediffs boxes_demo vars_ab =
    Ok ([("a", [Val (-2 # 8); Val (1 # 12)]);
         ("b", [Val (2 # 8); Val (-1 # 12)])]%string,
        [("a", 1 # 2); ("b", 1 # 2)]%string) /\
  (forall d, In d boxes_demo -> sum (map (score d) vars_ab) == 1) /\
  forall k, (k < length boxes_demo - 1)%nat ->
            sum (map (fun v => diff_at [("a", [Val (-2 # 8); Val (1 # 12)]);
                                        ("b", [Val (2 # 8); Val (-1 # 12)])]%string
                                       v k) vars_ab) == 0.
Proof.
  assert (Hs : forall d, In d boxes_demo -> sum (map (score d) vars_ab) == 1).
  { intros d [<-|[<-|[<-|[]]]]; reflexivity. }
  split; [reflexivity|]. split; [exact Hs|].
  apply (@transient_diffs_conserve boxes_demo vars_ab 1 _
           [("a", 1 # 2); ("b", 1 # 2)]%string); [reflexivity | exact Hs].
Defined.

(** ** [buildcase]: the matrices *)

Lemma length_to_numpy_matrix (g : DiGraph) (weight : bool) :
  length (to_numpy_matrix g weight) = length (nodes g).
Proof. unfold to_numpy_matrix. now rewrite length_map. Qed.

Lemma rect_to_numpy_matrix (g : DiGraph) (weight : bool) :
  rect (length (nodes g)) (to_numpy_matrix g weight).
Proof.
  unfold rect, to_numpy_matrix. apply Forall_forall. intros row Hrow.
  apply in_map_iff in Hrow. destruct Hrow as (u & <- & _).
  now rewrite length_map.
Qed.

Lemma entry_to_numpy_matrix (g : DiGraph) (weight : bool) (i j : nat)
      (u v : string) :
  nth_error (nodes g) i = Some u -> nth_error (nodes g) j = Some v ->
  entry (to_numpy_matrix g weight) i j = cell weight (get_edge g u v).
Proof.
  intros Hi Hj. unfold entry, to_numpy_matrix.
  rewrite (nth_error_nth _ _ _ (map_nth_error _ _ _ Hi)).
  now rewrite (nth_error_nth _ _ _ (map_nth_error _ _ _ Hj)).
Qed.

Lemma shape1_to_numpy_matrix (g : DiGraph) (weight : bool) :
  shape1 (to_numpy_matrix g weight) = length (nodes g).
Proof.
  apply shape1_square;
    [apply length_to_numpy_matrix | apply rect_to_numpy_matrix].
Qed.

Lemma wf_augment_fold (dummyweight : Q) (name : string) (l : list string) :
  forall st, wf_graph (fst st) ->
             wf_graph (fst (fold_left (augment_step dummyweight name) l st)).
Proof.
  induction l as [|x l IH]; intros [g c] Hwf; [exact Hwf|].
  cbn [fold_left]. apply IH. unfold augment_step.
  destruct (Nat.eqb (out_degree g x) 1); [|exact Hwf].
  now apply wf_add_edge.
Qed.

Lemma wf_augment (dummyweight : Q) (name : string) (g : DiGraph) :
  wf_graph g -> wf_graph (augment dummyweight name g).
Proof. intros Hwf. unfold augment. now apply wf_augment_fold. Qed.

(** X8: [buildcase] returns matrices in the convention "columns are
    sources, rows are sinks" of the graph it leaves behind the reference:
    both are square, of the size of the returned variable list, which is the
    node list of that graph without repetition; the connection matrix holds
    1 at row [r], column [c] exactly when there is an edge from variable [c]
    to variable [r], and the gain matrix holds the weight of that edge; all
    other entries are 0. *)
Theorem buildcase_matrix_convention (dummyweight : Q) (name : string)
        (m_graph : ref) (h : heap) (g : DiGraph) :
  deref h m_graph = Some g -> wf_graph g ->
  exists connection gain variablelist h' g',
    buildcase dummyweight m_graph name h =
      (Some (connection, gain, variablelist), h') /\
    deref h' m_graph = Some g' /\ variablelist = nodes g' /\
    NoDup variablelist /\
    length connection = length variablelist /\
    rect (length variablelist) connection /\
    length gain = length variablelist /\
    rect (length variablelist) gain /\
    forall r c u v,
      nth_error variablelist c = Some u ->
      nth_error variablelist r = Some v ->
      entry connection r c = match get_edge g' u v with
                             | Some _ => 1
                             | None => 0
                             end /\
      entry gain r c = match get_edge g' u v with
                       | Some w => w
                       | None => 0
                       end.
Proof.
  intros Hd Hwf.
  pose proof (wf_augment dummyweight name Hwf) as Hwf'.
  exists (transpose (to_numpy_matrix (augment dummyweight name g) false)),
         (transpose (to_numpy_matrix (augment dummyweight name g) true)),
         (nodes (augment dummyweight name g)),
         (store h m_graph (augment dummyweight name g)),
         (augment dummyweight name g).
  split; [now apply buildcase_eq|].
  split; [eapply deref_store; eauto|].
  split; [reflexivity|]. split; [apply Hwf'|].
  rewrite !length_transpose, !shape1_to_numpy_matrix.
  split; [reflexivity|].
  split; [rewrite <- (length_to_numpy_matrix _ false) at 1; apply rect_transpose|].
  split; [reflexivity|].
  split; [rewrite <- (length_to_numpy_matrix _ true) at 1; apply rect_transpose|].
  intros r c u v Hc Hr.
  assert (Hlt : (r < length (nodes (augment dummyweight name g)))%nat).
  { apply nth_error_Some. congruence. }
  rewrite !entry_transpose by now rewrite shape1_to_numpy_matrix.
  rewrite !(entry_to_numpy_matrix _ _ _ _ Hc Hr). unfold cell.
  split; reflexivity.
Qed.

Lemma buildcase_matrix_convention_witness :
  deref [g_ab] 0%nat = Some g_ab /\ wf_graph g_ab /\
  exists connection gain variablelist h' g',
    buildcase 7 0%nat "DV" [g_ab] = (Some (connection, gain, variablelist), h') /\
    deref h' 0%nat = Some g' /\ variablelist = nodes g' /\
    NoDup variablelist /\
    length connection = length variablelist /\
    rect (length variablelist) connection /\
    length gain = length variablelist /\
    rect (length variablelist) gain /\
    forall r c u v,
      nth_error variablelist c = Some u ->
      nth_error variablelist r = Some v ->
      entry connection r c = match get_edge g' u v with
                             | Some _ => 1
                             | None => 0
                             end /\
      entry gain r c = match get_edge g' u v with
                       | Some w => w
                       | None => 0
                       end.
Proof.
  split; [reflexivity|]. split; [exact wf_g_ab|].
  apply (@buildcase_matrix_convention 7 "DV" 0%nat [g_ab] g_ab);
    [reflexivity | exact wf_g_ab].
Defined.

(** ** From the matrices back to the graph *)

Lemma get_edge_ends (g : DiGraph) (u v : string) (w : Q) :
  wf_graph g -> get_edge g u v = Some w -> In u (nodes g) /\ In v (nodes g).
Proof.
  intros Hwf H. apply get_edge_in_Some in H. eapply wf_ends; eauto.
Qed.

Lemma buildgraph_of_graph (g : DiGraph) :
  wf_graph g ->
  exists g2,
    buildgraph (nodes g) (transpose (to_numpy_matrix g true))
               (transpose (to_numpy_matrix g false)) = Ok g2 /\
    (forall u v, get_edge g2 u v = get_edge g u v) /\
    (forall n, In n (nodes g2) <->
               exists v, get_edge g n v <> None \/ get_edge g v n <> None).
Proof.
  intros Hwf.
  assert (Hentry : forall weight r c u v,
             nth_error (nodes g) c = Some u -> nth_error (nodes g) r = Some v ->
             entry (transpose (to_numpy_matrix g weight)) r c =
             cell weight (get_edge g u v)).
  { intros weight r c u v Hc Hr.
    rewrite entry_transpose.
    - now apply entry_to_numpy_matrix.
    - rewrite shape1_to_numpy_matrix. apply nth_error_Some. congruence. }
  destruct (@buildgraph_built (nodes g) (transpose (to_numpy_matrix g true))
                              (transpose (to_numpy_matrix g false)))
    as (g2 & Hg2 & _ & _ & Hn & He).
  - apply Hwf.
  - now rewrite length_transpose, shape1_to_numpy_matrix.
  - rewrite <- (length_to_numpy_matrix g true) at 1. apply rect_transpose.
  - now rewrite length_transpose, shape1_to_numpy_matrix.
  - rewrite <- (length_to_numpy_matrix g false) at 1. apply rect_transpose.
  - exists g2. split; [exact Hg2|].
    assert (Hitem : forall p,
               In p (list_prod (enumerate (nodes g)) (enumerate (nodes g))) ->
               nth_error (nodes g) (fst (fst p)) = Some (snd (fst p)) /\
               nth_error (nodes g) (fst (snd p)) = Some (snd (snd p))).
    { intros [[c u] [r v]] Hp. apply in_prod_iff in Hp.
      cbn [fst snd]. now rewrite <- !In_enumerate. }
    assert (Hactive : forall p,
               In p (list_prod (enumerate (nodes g)) (enumerate (nodes g))) ->
               (active (transpose (to_numpy_matrix g false)) p <->
                get_edge g (snd (fst p)) (snd (snd p)) <> None)).
    { intros p Hp. destruct (Hitem p Hp) as [Hc Hr]. unfold active.
      rewrite (Hentry false _ _ _ _ Hc Hr). unfold cell.
      destruct (get_edge g (snd (fst p)) (snd (snd p))).
      - split; [discriminate | reflexivity].
      - split; [discriminate | congruence]. }
    assert (Hfwd : forall u v w, get_edge g u v = Some w ->
                                 get_edge g2 u v = Some w).
    { intros u v w Huv. apply He.
      destruct (get_edge_ends u v Hwf Huv) as [Hu Hv].
      apply In_nth_error in Hu, Hv.
      destruct Hu as (c & Hc), Hv as (r & Hr).
      assert (Hp : In ((c, u), (r, v))
                      (list_prod (enumerate (nodes g)) (enumerate (nodes g)))).
      { apply in_prod_iff. now rewrite !In_enumerate. }
      exists ((c, u), (r, v)). split; [exact Hp|].
      split; [apply (Hactive _ Hp); cbn [fst snd]; congruence|].
      cbn [fst snd]. repeat split.
      rewrite (Hentry true _ _ _ _ Hc Hr), Huv. reflexivity. }
    assert (Hbwd : forall u v w, get_edge g2 u v = Some w ->
                                 get_edge g u v = Some w).
    { intros u v w Huv. apply He in Huv.
      destruct Huv as (p & Hp & Ha & -> & -> & ->).
      destruct (Hitem p Hp) as [Hc Hr].
      rewrite (Hentry true _ _ _ _ Hc Hr).
      apply (Hactive p Hp) in Ha. unfold cell.
      destruct (get_edge g (snd (fst p)) (snd (snd p))); congruence. }
    split.
    + intros u v. destruct (get_edge g u v) as [w|] eqn:E; [now apply Hfwd|].
      destruct (get_edge g2 u v) as [w|] eqn:E2; [|reflexivity].
      apply Hbwd in E2. congruence.
    + intros n. rewrite Hn. split.
      * intros (p & Hp & Ha & Hor). apply (Hactive p Hp) in Ha.
        destruct Hor as [->| ->]; eauto.
      * intros (v & Hor).
        assert (Hex : exists a b w, get_edge g a b = Some w /\ (n = a \/ n = b)).
        { destruct Hor as [H|H].
          - destruct (get_edge g n v) as [w|] eqn:E; [|congruence].
            exists n, v, w. auto.
          - destruct (get_edge g v n) as [w|] eqn:E; [|congruence].
            exists v, n, w. auto. }
        destruct Hex as (a & b & w & Hab & Hnab).
        destruct (get_edge_ends a b Hwf Hab) as [Hu Hv].
        apply In_nth_error in Hu, Hv.
        destruct Hu as (c & Hc), Hv as (r & Hr).
        assert (Hp : In ((c, a), (r, b))
                        (list_prod (enumerate (nodes g)) (enumerate (nodes g)))).
        { apply in_prod_iff. now rewrite !In_enumerate. }
        exists ((c, a), (r, b)). split; [exact Hp|].
        split; [apply (Hactive _ Hp); cbn [fst snd]; congruence|].
        cbn [fst snd]. exact Hnab.
Qed.

(** X9: the matrices and the variable list that [buildcase] returns
    describe the graph it leaves behind the reference completely, up to
    nodes without any edge: [buildgraph] applied to them returns a graph
    with the same edges and weights, whose nodes are the nodes of that graph
    that have an edge. *)
Theorem buildcase_then_buildgraph (dummyweight : Q) (name : string)
        (m_graph : ref) (h : heap) (g : DiGraph) :
  deref h m_graph = Some g -> wf_graph g ->
  exists connection gain variablelist h' g' g2,
    buildcase dummyweight m_graph name h =
      (Some (connection, gain, variablelist), h') /\
    deref h' m_graph = Some g' /\
    buildgraph variablelist gain connection = Ok g2 /\
    (forall u v, get_edge g2 u v = get_edge g' u v) /\
    (forall n, In n (nodes g2) <->
               exists v, get_edge g' n v <> None \/ get_edge g' v n <> None).
Proof.
  intros Hd Hwf.
  destruct (buildgraph_of_graph (wf_augment dummyweight name Hwf))
    as (g2 & Hg2 & He & Hn).
  exists (transpose (to_numpy_matrix (augment dummyweight name g) false)),
         (transpose (to_numpy_matrix (augment dummyweight name g) true)),
         (nodes (augment dummyweight name g)),
         (store h m_graph (augment dummyweight name g)),
         (augment dummyweight name g), g2.
  split; [now apply buildcase_eq|].
  split; [eapply deref_store; eauto|]. auto.
Qed.

Lemma buildcase_then_buildgraph_witness :
  deref [g_ab] 0%nat = Some g_ab /\ wf_graph g_ab /\
  exists connection gain variablelist h' g' g2,
    buildcase 7 0%nat "DV" [g_ab] =
      (Some (connection, gain, variablelist), h') /\
    deref h' 0%nat = Some g' /\
    buildgraph variablelist gain connection = Ok g2 /\
    (forall u v, get_edge g2 u v = get_edge g' u v) /\
    (forall n, In n (nodes g2) <->
               exists v, get_edge g' n v <> None \/ get_edge g' v n <> None).
Proof.
  split; [reflexivity|]. split; [exact wf_g_ab|].
  apply (@buildcase_then_buildgraph 7 "DV" 0%nat [g_ab] g_ab);
    [reflexivity | exact wf_g_ab].
Defined.

(** ** [buildcase] applied twice *)

Lemma augment_fold_noop (dummyweight : Q) (name : string) (g : DiGraph)
      (l : list string) : forall c,
  (forall n, In n l -> out_degree g n <> 1%nat) ->
  fold_left (augment_step dummyweight name) l (g, c) = (g, c).
Proof.
  induction l as [|x l IH]; intros c H; [reflexivity|].
  cbn [fold_left]. unfold augment_step at 2.
  destruct (Nat.eqb_spec (out_degree g x) 1) as [E|E].
  - elim (H x); [now left | exact E].
  - apply IH. intros n Hn. apply H. now right.
Qed.

Lemma augment_noop (dummyweight : Q) (name : string) (g : DiGraph) :
  (forall n, In n (nodes g) -> out_degree g n <> 1%nat) ->
  augment dummyweight name g = g.
Proof. intros H. unfold augment. now rewrite augment_fold_noop. Qed.

Lemma augment_no_single (dummyweight : Q) (name : string) (g : DiGraph) :
  wf_graph g ->
  (forall k, (1 <= k)%nat -> ~ In (dummy name k) (nodes g)) ->
  forall n, In n (nodes (augment dummyweight name g)) ->
            out_degree (augment dummyweight name g) n <> 1%nat.
Proof.
  intros Hwf Hfresh n Hn.
  destruct (in_dec string_dec n (nodes g)) as [Hin|Hnin].
  - destruct (Nat.eq_dec (out_degree g n) 1) as [E|E].
    + rewrite (@augment_degree_one dummyweight name g Hwf Hfresh n Hin E). lia.
    + destruct (@augment_other dummyweight name g Hwf Hfresh n Hin E) as [-> _].
      exact E.
  - destruct (@augment_dummy dummyweight name g Hwf Hfresh n Hn Hnin) as (_ & -> & _).
    lia.
Qed.

(** X10: when the dummy names are new to the graph, one call of [buildcase]
    leaves no node with exactly one successor, so that a second call, with
    whatever weight and name, adds nothing: it returns the same matrices and
    variable list and leaves the store as it is. *)
Theorem buildcase_twice (dummyweight : Q) (name : string) (m_graph : ref)
        (h : heap) (g : DiGraph) (dummyweight2 : Q) (name2 : string) :
  deref h m_graph = Some g -> wf_graph g ->
  (forall k, (1 <= k)%nat -> ~ In (dummy name k) (nodes g)) ->
  (forall g', deref (snd (buildcase dummyweight m_graph name h)) m_graph =
                Some g' ->
              forall n, In n (nodes g') -> out_degree g' n <> 1%nat) /\
  buildcase dummyweight2 m_graph name2
            (snd (buildcase dummyweight m_graph name h)) =
  buildcase dummyweight m_graph name h.
Proof.
  intros Hd Hwf Hfresh.
  rewrite (@buildcase_eq dummyweight name h m_graph g Hd). cbn [snd].
  assert (Hd' : deref (store h m_graph (augment dummyweight name g)) m_graph =
                Some (augment dummyweight name g))
    by (eapply deref_store; eauto).
  split.
  - intros g' Hg'. rewrite Hd' in Hg'. injection Hg' as <-.
    now apply augment_no_single.
  - rewrite (@buildcase_eq dummyweight2 name2 _ m_graph _ Hd').
    rewrite augment_noop by now apply augment_no_single.
    now rewrite store_store.
Qed.

Lemma buildcase_twice_witness :
  deref [g_ab] 0%nat = Some g_ab /\ wf_graph g_ab /\
  (forall k, (1 <= k)%nat -> ~ In (dummy "DV" k) (nodes g_ab)) /\
  (forall g', deref (snd (buildcase 7 0%nat "DV" [g_ab])) 0%nat = Some g' ->
              forall n, In n (nodes g') -> out_degree g' n <> 1%nat) /\
  buildcase 3 0%nat "X" (snd (buildcase 7 0%nat "DV" [g_ab])) =
  buildcase 7 0%nat "DV" [g_ab].
Proof.
  split; [reflexivity|]. split; [exact wf_g_ab|].
  split; [exact fresh_DV_g_ab|].
  apply (@buildcase_twice 7 "DV" 0%nat [g_ab] g_ab 3 "X");
    [reflexivity | exact wf_g_ab | exact fresh_DV_g_ab].
Defined.

(** ** [buildgraph]: what it reads *)

Lemma for_each_ext {S A : Type} (body body' : S -> A -> result S) (l : list A) :
  (forall s x, In x l -> body s x = body' s x) ->
  forall s, for_each l body s = for_each l body' s.
Proof.
  induction l as [|x l IH]; intros H s; [reflexivity|].
  cbn [for_each]. rewrite H by now left.
  destruct (body' s x); [|reflexivity]. cbn [bind].
  apply IH. intros s0 y Hy. apply H. now right.
Qed.

Lemma for_each_raise_kind {S A : Type} (P : exn -> Prop)
      (body : S -> A -> result S) (l : list A) :
  (forall s x e, In x l -> body s x = Raise e -> P e) ->
  forall s e, for_each l body s = Raise e -> P e.
Proof.
  induction l as [|x l IH]; intros H s e He; [discriminate|].
  cbn [for_each] in He. destruct (body s x) as [s'|e'] eqn:E; cbn [bind] in He.
  - eapply IH; [|exact He]. intros s0 y e0 Hy. apply H. now right.
  - injection He as <-. eapply H; [now left | exact E].
Qed.

Lemma mat_get_IndexError (M : matrix) (r c : nat) (e : exn) :
  mat_get M r c = Raise e -> e = IndexError.
Proof.
  unfold mat_get. destruct (nth_error M r) as [row|]; [|congruence].
  destruct (nth_error row c); congruence.
Qed.

Lemma buildgraph_flat (variables : list string) (gainmatrix connections : matrix) :
  buildgraph variables gainmatrix connections =
  for_each (list_prod (enumerate variables) (enumerate variables))
           (fun g p => buildgraph_inner gainmatrix connections
                                        (fst (fst p)) (snd (fst p)) g (snd p))
           empty_graph.
Proof.
  unfold buildgraph.
  apply (for_each_nested (enumerate variables) (enumerate variables)
           (fun cv g rv => buildgraph_inner gainmatrix connections
                                            (fst cv) (snd cv) g rv)).
Qed.

Lemma buildgraph_inner_IndexError gainmatrix connections col colvar g rv e :
  buildgraph_inner gainmatrix connections col colvar g rv = Raise e ->
  e = IndexError.
Proof.
  destruct rv as [row rowvar]. unfold buildgraph_inner.
  destruct (mat_get connections row col) as [c|e1] eqn:E1; cbn [bind].
  - destruct (negb (Qeq_bool c 0)); [|discriminate].
    destruct (mat_get gainmatrix row col) as [w|e2] eqn:E2; cbn [bind];
      [discriminate|].
    intros [= <-]. eapply mat_get_IndexError; eauto.
  - intros [= <-]. eapply mat_get_IndexError; eauto.
Qed.

Lemma buildgraph_kind (variables : list string) (gainmatrix connections : matrix)
      (e : exn) :
  buildgraph variables gainmatrix connections = Raise e -> e = IndexError.
Proof.
  rewrite buildgraph_flat.
  apply (for_each_raise_kind (fun e => e = IndexError)).
  intros s p e0 _. apply buildgraph_inner_IndexError.
Qed.

(** X11: [buildgraph] checks no shapes.  It returns whenever both matrices
    are square of the size of the variable list, even with repeated
    variables; a connection matrix with fewer rows than there are variables
    is an [IndexError], and no other exception ever leaves it. *)
Theorem buildgraph_failures (variables : list string)
        (gainmatrix connections : matrix) :
  (forall e, buildgraph variables gainmatrix connections = Raise e ->
             e = IndexError) /\
  ((length connections < length variables)%nat ->
   buildgraph variables gainmatrix connections = Raise IndexError) /\
  (length gainmatrix = length variables ->
   rect (length variables) gainmatrix ->
   length connections = length variables ->
   rect (length variables) connections ->
   exists g, buildgraph variables gainmatrix connections = Ok g).
Proof.
  assert (Hkind : forall e, buildgraph variables gainmatrix connections = Raise e ->
                            e = IndexError)
    by (intros e; apply buildgraph_kind).
  split; [exact Hkind|]. split.
  - intros Hlt.
    assert (Hr : raises (buildgraph variables gainmatrix connections)).
    { rewrite buildgraph_flat.
      destruct variables as [|v0 vs] eqn:Ev; [simpl in Hlt; lia|].
      rewrite <- Ev in *.
      destruct (nth_error variables (length connections)) as [vk|] eqn:Ek;
        [|apply nth_error_None in Ek; lia].
      apply for_each_raises with (x := ((0%nat, v0), (length connections, vk))).
      - apply in_prod_iff. rewrite !In_enumerate. split; [|exact Ek].
        now rewrite Ev.
      - intros g. cbn [fst snd]. unfold buildgraph_inner, mat_get.
        assert (Hn : nth_error connections (length connections) = None)
          by (apply nth_error_None; lia).
        rewrite Hn. now exists IndexError. }
    destruct Hr as (e & He). rewrite He. f_equal. now apply Hkind.
  - intros Hg Hgr Hc Hcr. rewrite buildgraph_flat.
    destruct (@for_each_total DiGraph _
                (fun _ _ => True)
                (fun p => (fst (fst p) < length variables)%nat /\
                          (fst (snd p) < length variables)%nat)
                (fun g p => buildgraph_inner gainmatrix connections
                                             (fst (fst p)) (snd (fst p)) g (snd p)))
      with (rest := list_prod (enumerate variables) (enumerate variables))
           (done := @nil ((nat * string) * (nat * string)))
           (s := empty_graph)
      as (g & Hg' & _).
    + intros done [[c u] [r v]] s [Hc' Hr'] _. cbn [fst snd] in *.
      unfold buildgraph_inner.
      rewrite (@mat_get_entry connections (length variables) r c Hc Hcr Hr' Hc').
      cbn [bind].
      destruct (negb (Qeq_bool (entry connections r c) 0)); [|eauto].
      rewrite (@mat_get_entry gainmatrix (length variables) r c Hg Hgr Hr' Hc').
      cbn [bind]. eauto.
    + apply Forall_forall. intros [[c u] [r v]] Hp.
      apply in_prod_iff in Hp. rewrite !In_enumerate in Hp.
      cbn [fst snd]. split; apply nth_error_Some; destruct Hp; congruence.
    + exact I.
    + now exists g.
Qed.

Lemma buildgraph_failures_witness :
  (length [[1; 0]] < length vars_ab)%nat /\
  buildgraph vars_ab [[1; 0]] [[1; 0]] = Raise IndexError /\
  length ones_matrix = length vars_ab /\
  rect (length vars_ab) ones_matrix /\
  exists g, buildgraph vars_ab ones_matrix ones_matrix = Ok g.
Proof.
  assert (Hr : rect (length vars_ab) ones_matrix)
    by (repeat constructor).
  split; [simpl; lia|]. split.
  { apply (proj1 (proj2 (buildgraph_failures vars_ab [[1; 0]] [[1; 0]]))).
    simpl; lia. }
  split; [reflexivity|]. split; [exact Hr|].
  apply (proj2 (proj2 (buildgraph_failures vars_ab ones_matrix ones_matrix)));
    (reflexivity || exact Hr).
Defined.

(** X12: [buildgraph] reads a gain only where the connection matrix is not
    zero: two gain matrices that agree at these positions (in value or in
    failing to have the position) give the same result, be it a graph or an
    exception. *)
Theorem buildgraph_gain_masked (variables : list string)
        (gainmatrix gainmatrix' connections : matrix) :
  (forall r c x, mat_get connections r c = Ok x -> ~ x == 0 ->
                 mat_get gainmatrix r c = mat_get gainmatrix' r c) ->
  buildgraph variables gainmatrix connections =
  buildgraph variables gainmatrix' connections.
Proof.
  intros H. unfold buildgraph. apply for_each_ext. intros g [col colvar] _.
  apply for_each_ext. intros g' [row rowvar] _. cbn [fst snd].
  unfold buildgraph_inner.
  destruct (mat_get connections row col) as [x|] eqn:E; [|reflexivity].
  cbn [bind]. destruct (Qeq_bool x 0) eqn:Ex; [reflexivity|].
  cbn [negb]. rewrite (H row col x E); [reflexivity|].
  now apply Qeq_bool_neq.
Qed.

Lemma buildgraph_gain_masked_witness :
  (forall r c x, mat_get conn_ab r c = Ok x -> ~ x == 0 ->
                 mat_get gain_ab r c =
                 mat_get [[9; 9; 9]; [5; 9; 9]; [9; 9; 9]] r c) /\
  buildgraph vars_abc gain_ab conn_ab =
  buildgraph vars_abc [[9; 9; 9]; [5; 9; 9]; [9; 9; 9]] conn_ab.
Proof.
  assert (H : forall r c x, mat_get conn_ab r c = Ok x -> ~ x == 0 ->
                            mat_get gain_ab r c =
                            mat_get [[9; 9; 9]; [5; 9; 9]; [9; 9; 9]] r c).
  { intros [|[|[|r]]] [|[|[|c]]] x Hx Hnz; try discriminate Hx;
      try reflexivity; injection Hx as <-; elim Hnz; reflexivity. }
  split; [exact H|].
  apply (@buildgraph_gain_masked vars_abc gain_ab _ conn_ab H).
Defined.

(** ** [rankforward] and [rankbackward]: the store *)

Lemma store_alloc (h : heap) (g g' : DiGraph) :
  store (h ++ [g]) (length h) g' = h ++ [g'].
Proof. induction h as [|x h IH]; simpl; congruence. Qed.

Lemma deref_app_old (h : heap) (g : DiGraph) (r : ref) :
  (r < length h)%nat -> deref (h ++ [g]) r = deref h r.
Proof. intros Hr. unfold deref. now rewrite nth_error_app1. Qed.

Lemma buildcase_alloc (dummyweight : Q) (name : string) (h : heap) (g : DiGraph) :
  buildcase dummyweight (length h) name (h ++ [g]) =
  (Some (transpose (to_numpy_matrix (augment dummyweight name g) false),
         transpose (to_numpy_matrix (augment dummyweight name g) true),
         nodes (augment dummyweight name g)),
   h ++ [augment dummyweight name g]).
Proof.
  rewrite (@buildcase_eq dummyweight name (h ++ [g]) (length h) g).
  - now rewrite store_alloc.
  - exact (deref_alloc h g).
Qed.

(** X13: [rankforward] and [rankbackward] never touch a graph of the
    caller.  When [buildgraph] fails they fail with its [IndexError] and the
    store is as before; otherwise they return, the store has exactly one
    more object, the graph they built and extended, and the variable list
    they return is the node list of that graph. *)
Theorem rank_directions_store (variables : list string)
        (gainmatrix connections : matrix) (dummyweight : Q) (h : heap) :
  let forward := rankforward variables gainmatrix connections dummyweight h in
  let backward := rankbackward variables gainmatrix connections dummyweight h in
  (forall r, (r < length h)%nat ->
             deref (snd forward) r = deref h r /\
             deref (snd backward) r = deref h r) /\
  match fst forward with
  | Ok (connection, gain, variablelist) =>
      exists g g',
        buildgraph variables gainmatrix connections = Ok g /\
        snd forward = h ++ [g'] /\ wf_graph g' /\ variablelist = nodes g' /\
        forall n, In n (nodes g) -> In n variablelist
  | Raise e =>
      e = IndexError /\ snd forward = h /\
      buildgraph variables gainmatrix connections = Raise e
  end /\
  match fst backward with
  | Ok (connection, gain, variablelist) =>
      exists g g',
        buildgraph variables (transpose gainmatrix) (transpose connections) =
          Ok g /\
        snd backward = h ++ [g'] /\ wf_graph g' /\ variablelist = nodes g' /\
        forall n, In n (nodes g) -> In n variablelist
  | Raise e =>
      e = IndexError /\ snd backward = h /\
      buildgraph variables (transpose gainmatrix) (transpose connections) =
        Raise e
  end.
Proof.
  assert (Hnodes : forall name g n,
             In n (nodes g) -> In n (nodes (augment dummyweight name g))).
  { intros name g n Hn. unfold augment.
    assert (H : forall l st, In n (nodes (fst st)) ->
                  In n (nodes (fst (fold_left (augment_step dummyweight name)
                                              l st)))).
    { induction l as [|x l IH]; intros [g0 c] H0; [exact H0|].
      cbn [fold_left]. apply IH. unfold augment_step.
      destruct (Nat.eqb (out_degree g0 x) 1); [|exact H0].
      cbn [fst]. apply In_nodes_add_edge. now left. }
    now apply H. }
  cbv zeta. unfold rankforward, rankbackward, alloc.
  destruct (buildgraph variables gainmatrix connections) as [g|e] eqn:E;
    destruct (buildgraph variables (transpose gainmatrix)
                         (transpose connections)) as [gb|eb] eqn:Eb;
    rewrite ?buildcase_alloc; cbn [fst snd].
  - split; [intros r Hr; now rewrite !deref_app_old|]. split.
    + exists g, (augment dummyweight "DV_forward" g).
      split; [reflexivity|]. split; [reflexivity|].
      split; [apply wf_augment; eapply buildgraph_wf; eauto|].
      split; [reflexivity | apply Hnodes].
    + exists gb, (augment dummyweight "DV_backward" gb).
      split; [reflexivity|]. split; [reflexivity|].
      split; [apply wf_augment; eapply buildgraph_wf; eauto|].
      split; [reflexivity | apply Hnodes].
  - split; [intros r Hr; now rewrite !deref_app_old|]. split.
    + exists g, (augment dummyweight "DV_forward" g).
      split; [reflexivity|]. split; [reflexivity|].
      split; [apply wf_augment; eapply buildgraph_wf; eauto|].
      split; [reflexivity | apply Hnodes].
    + split; [|auto].
      eapply buildgraph_kind; eauto.
  - split; [intros r Hr; now rewrite !deref_app_old|]. split.
    + split; [|auto].
      eapply buildgraph_kind; eauto.
    + exists gb, (augment dummyweight "DV_backward" gb).
      split; [reflexivity|]. split; [reflexivity|].
      split; [apply wf_augment; eapply buildgraph_wf; eauto|].
      split; [reflexivity | apply Hnodes].
  - split; [auto|]. split.
    + split; [|auto].
      eapply buildgraph_kind; eauto.
    + split; [|auto].
      eapply buildgraph_kind; eauto.
Qed.

Lemma rank_directions_store_witness :
  let forward := rankforward vars_abc gain_ab conn_ab 7 [g_ab] in
  let backward := rankbackward vars_abc gain_ab conn_ab 7 [g_ab] in
  (forall r, (r < length [g_ab])%nat ->
             deref (snd forward) r = deref [g_ab] r /\
             deref (snd backward) r = deref [g_ab] r) /\
  match fst forward with
  | Ok (connection, gain, variablelist) =>
      exists g g',
        buildgraph vars_abc gain_ab conn_ab = Ok g /\
        snd forward = [g_ab] ++ [g'] /\ wf_graph g' /\ variablelist = nodes g' /\
        forall n, In n (nodes g) -> In n variablelist
  | Raise e =>
      e = IndexError /\ snd forward = [g_ab] /\
      buildgraph vars_abc gain_ab conn_ab = Raise e
  end /\
  match fst backward with
  | Ok (connection, gain, variablelist) =>
      exists g g',
        buildgraph vars_abc (transpose gain_ab) (transpose conn_ab) = Ok g /\
        snd backward = [g_ab] ++ [g'] /\ wf_graph g' /\
        variablelist = nodes g' /\
        forall n, In n (nodes g) -> In n variablelist
  | Raise e =>
      e = IndexError /\ snd backward = [g_ab] /\
      buildgraph vars_abc (transpose gain_ab) (transpose conn_ab) = Raise e
  end.
Proof.
  exact (rank_directions_store vars_abc gain_ab conn_ab 7 [g_ab]).
Defined.

(** ** The column normalisation of the weight matrix *)

Lemma sum_abs_nonneg (l : list Q) : 0 <= sum (map Qabs l).
Proof.
  apply sum_nonneg, Forall_forall. intros x Hx.
  apply in_map_iff in Hx. destruct Hx as (y & <- & _). apply Qabs_nonneg.
Qed.

Lemma colabs_nonneg (M : matrix) (c : nat) : 0 <= colabs M c.
Proof. apply sum_abs_nonneg. Qed.

Lemma sum_abs_div (l : list Q) (s : Q) :
  0 <= s -> sum (map Qabs (map (fun x => x / s) l)) == sum (map Qabs l) / s.
Proof.
  intros Hs. rewrite map_map.
  rewrite (@sum_map_ext _ _ (fun x => Qabs x / s)).
  - rewrite <- (map_map Qabs (fun x => x / s)). apply sum_map_div.
  - intros x _. unfold Qdiv. rewrite Qabs_Qmult.
    rewrite (Qabs_pos (/ s)); [reflexivity|]. now apply Qinv_le_0_compat.
Qed.

Lemma normalise_weight_col_spec (M : matrix) (n c : nat) :
  length M = n -> rect n M -> (c < n)%nat ->
  (~ colabs M c == 0 ->
   exists M',
     normalise_weight_col M c = Ok M' /\ length M' = n /\ rect n M' /\
     forall r c', (r < n)%nat ->
                  entry M' r c' =
                  if Nat.eqb c' c then entry M r c / colabs M c
                  else entry M r c') /\
  (colabs M c == 0 -> normalise_weight_col M c = Raise NonFinite).
Proof.
  intros Hl Hr Hc. unfold normalise_weight_col.
  rewrite (get_col_rect Hr Hc). cbn [bind]. fold (colabs M c). split.
  - intros Hnz.
    rewrite (@mapM_Ok _ _ (fun x => pydiv x (colabs M c))
                      (fun x => x / colabs M c))
      by (intros x _; now apply pydiv_nonzero).
    cbn [bind]. eexists. split; [reflexivity|].
    assert (Hlen : length (map (fun x => x / colabs M c) (col M c)) = length M)
      by (unfold col; now rewrite !length_map).
    split; [now rewrite length_set_col|].
    split; [now apply rect_set_col|].
    intros r c' Hrn.
    rewrite (@entry_set_col M n c r c') by (auto; lia).
    destruct (Nat.eqb c' c); [|reflexivity].
    rewrite (nth_map_default (fun x => x / colabs M c) (col M c) 0)
      by (unfold col; rewrite length_map; lia).
    now rewrite nth_col.
  - intros Hz. destruct M as [|row M]; [simpl in Hl; lia|].
    unfold col. cbn [map mapM]. unfold pydiv at 1.
    apply Qeq_bool_iff in Hz. now rewrite Hz.
Qed.

Lemma normalise_weight_prefix (T : matrix) (n : nat) :
  length T = n -> rect n T ->
  forall k, (k <= n)%nat ->
    ((forall c, (c < k)%nat -> ~ colabs T c == 0) /\
     exists M,
       for_each (seq 0 k) normalise_weight_col T = Ok M /\
       length M = n /\ rect n M /\
       forall r c, (r < n)%nat ->
                   entry M r c =
                   if Nat.ltb c k then entry T r c / colabs T c
                   else entry T r c) \/
    ((exists c, (c < k)%nat /\ colabs T c == 0) /\
     for_each (seq 0 k) normalise_weight_col T = Raise NonFinite).
Proof.
  intros Hl Hr. induction k as [|k IH]; intros Hk.
  - left. split; [intros c Hc; lia|]. exists T. repeat split; auto.
  - destruct IH as [(Hnz & M & HM & HlM & HrM & He)|((c & Hc & Hz) & HM)];
      [lia | |].
    + assert (Hcol : col M k = col T k).
      { apply col_ext; [congruence|]. intros r' Hr'n. rewrite He by lia.
        now rewrite Nat.ltb_irrefl. }
      assert (Hk' : (k < n)%nat) by lia.
      destruct (@normalise_weight_col_spec M n k HlM HrM Hk') as [Hok Hbad].
      unfold colabs in Hok, Hbad. rewrite Hcol in Hok, Hbad.
      fold (colabs T k) in Hok, Hbad.
      destruct (Qeq_dec (colabs T k) 0) as [Hz|Hz].
      * right. split; [exists k; split; [lia | exact Hz]|].
        rewrite seq_S, for_each_app, HM. cbn [bind for_each Nat.add].
        now rewrite (Hbad Hz).
      * left. split.
        { intros c Hc. destruct (Nat.eq_dec c k) as [->|]; [exact Hz|].
          apply Hnz. lia. }
        destruct (Hok Hz) as (M' & HM' & Hl' & Hr' & He').
        exists M'. rewrite seq_S, for_each_app, HM. cbn [bind for_each Nat.add].
        rewrite HM'. cbn [bind].
        split; [reflexivity|]. split; [exact Hl'|]. split; [exact Hr'|].
        intros r c Hrn. rewrite He' by exact Hrn.
        destruct (Nat.eqb_spec c k) as [->|Hck].
        { destruct (Nat.ltb_spec k (S k)); [|lia].
          rewrite He by exact Hrn. now rewrite Nat.ltb_irrefl. }
        { rewrite He by exact Hrn.
          destruct (Nat.ltb_spec c k), (Nat.ltb_spec c (S k));
            try reflexivity; lia. }
    + right. split; [exists c; split; [lia | exact Hz]|].
      rewrite seq_S, for_each_app, HM. reflexivity.
Qed.

Lemma colabs_divided (M W0 : matrix) (n c : nat) :
  length M = n -> length W0 = n ->
  (forall r, (r < n)%nat -> entry M r c = entry W0 r c / colabs W0 c) ->
  ~ colabs W0 c == 0 -> colabs M c == 1.
Proof.
  intros HlM HlW Hent Hnz. unfold colabs at 1.
  assert (Hcol : col M c = map (fun x => x / colabs W0 c) (col W0 c)).
  { apply (nth_ext _ _ 0 0).
    - unfold col. rewrite !length_map. congruence.
    - intros r Hrn. unfold col in Hrn. rewrite length_map in Hrn.
      rewrite nth_col, Hent by lia.
      rewrite (nth_map_default (fun x => x / colabs W0 c) (col W0 c) 0)
        by (unfold col; rewrite length_map; lia).
      now rewrite nth_col. }
  rewrite Hcol, sum_abs_div by apply colabs_nonneg.
  fold (colabs W0 c). now field.
Qed.

Lemma normalise_weight_zero (W0 : matrix) (n c : nat) :
  length W0 = n -> rect n W0 -> (c < n)%nat -> colabs W0 c == 0 ->
  normalise_weight W0 n = Raise NonFinite.
Proof.
  intros Hl Hr Hc Hz. unfold normalise_weight.
  destruct (@normalise_weight_prefix W0 n Hl Hr n (le_n n))
    as [(Hnz & _)|(_ & HM)]; [|exact HM].
  elim (Hnz c Hc). exact Hz.
Qed.

Lemma normalise_weight_Ok (W0 : matrix) (n : nat) :
  length W0 = n -> rect n W0 ->
  (forall c, (c < n)%nat -> ~ colabs W0 c == 0) ->
  exists W,
    normalise_weight W0 n = Ok W /\ length W = n /\ rect n W /\
    forall r c, (r < n)%nat -> (c < n)%nat ->
                entry W r c = entry W0 r c / colabs W0 c.
Proof.
  intros Hl Hr Hnz. unfold normalise_weight.
  destruct (@normalise_weight_prefix W0 n Hl Hr n (le_n n))
    as [(_ & M & HM & HlM & HrM & He)|((c & Hc & Hz) & _)].
  - exists M. split; [exact HM|]. split; [exact HlM|]. split; [exact HrM|].
    intros r c Hrn Hcn. rewrite He by exact Hrn.
    now destruct (Nat.ltb_spec c n); [|lia].
  - elim (Hnz c Hc). exact Hz.
Qed.

(** X14: the second normalisation loop of [calc_simple_rank] divides every
    column of the weight matrix by its absolute sum, without the test for
    zero that the first loop has: when no column sum is zero, every column
    of the result has absolute sum 1; a column whose absolute sum is zero
    makes the division fail. *)
Theorem normalise_weight_columns (weightmatrix : matrix) (n : nat) :
  length weightmatrix = n -> rect n weightmatrix ->
  ((forall c, (c < n)%nat -> ~ colabs weightmatrix c == 0) ->
   exists normalised,
     normalise_weight weightmatrix n = Ok normalised /\
     length normalised = n /\ rect n normalised /\
     (forall r c, (r < n)%nat -> (c < n)%nat ->
                  entry normalised r c =
                  entry weightmatrix r c / colabs weightmatrix c) /\
     (forall c, (c < n)%nat -> colabs normalised c == 1)) /\
  ((exists c, (c < n)%nat /\ colabs weightmatrix c == 0) ->
   normalise_weight weightmatrix n = Raise NonFinite).
Proof.
  intros Hl Hr. unfold normalise_weight.
  destruct (@normalise_weight_prefix weightmatrix n Hl Hr n (le_n n))
    as [(Hnz & M & HM & HlM & HrM & He)|((c & Hc & Hz) & HM)].
  - split.
    + intros _. exists M. split; [exact HM|]. split; [exact HlM|].
      split; [exact HrM|].
      assert (Hent : forall r c, (r < n)%nat -> (c < n)%nat ->
                 entry M r c = entry weightmatrix r c / colabs weightmatrix c).
      { intros r c Hrn Hcn. rewrite He by exact Hrn.
        now destruct (Nat.ltb_spec c n); [|lia]. }
      split; [exact Hent|].
      intros c Hc. apply (@colabs_divided M weightmatrix n c); auto.
    + intros (c & Hc & Hz). elim (Hnz c Hc). exact Hz.
  - split.
    + intros Hnz. elim (Hnz c Hc). exact Hz.
    + intros _. exact HM.
Qed.

Lemma normalise_weight_columns_witness :
  length [[1; 0]; [1; 0]] = 2%nat /\ rect 2 [[1; 0]; [1; 0]] /\
  (exists c, (c < 2)%nat /\ colabs [[1; 0]; [1; 0]] c == 0) /\
  normalise_weight [[1; 0]; [1; 0]] 2 = Raise NonFinite /\
  length ones_matrix = 2%nat /\ rect 2 ones_matrix /\
  (forall c, (c < 2)%nat -> ~ colabs ones_matrix c == 0) /\
  exists normalised,
    normalise_weight ones_matrix 2 = Ok normalised /\
    length normalised = 2%nat /\ rect 2 normalised /\
    (forall r c, (r < 2)%nat -> (c < 2)%nat ->
                 entry normalised r c =
                 entry ones_matrix r c / colabs ones_matrix c) /\
    (forall c, (c < 2)%nat -> colabs normalised c == 1).
Proof.
  assert (H3 : rect 2 [[1; 0]; [1; 0]]) by (repeat constructor).
  assert (H2 : rect 2 ones_matrix) by (repeat constructor).
  assert (Hz : exists c, (c < 2)%nat /\ colabs [[1; 0]; [1; 0]] c == 0).
  { exists 1%nat. split; [lia | reflexivity]. }
  assert (Hnz : forall c, (c < 2)%nat -> ~ colabs ones_matrix c == 0).
  { intros [|[|c]] Hc; try lia; vm_compute; discriminate. }
  split; [reflexivity|]. split; [exact H3|]. split; [exact Hz|]. split.
  { apply (proj2 (@normalise_weight_columns [[1; 0]; [1; 0]] 2 eq_refl H3)).
    exact Hz. }
  split; [reflexivity|]. split; [exact H2|]. split; [exact Hnz|].
  apply (proj1 (@normalise_weight_columns ones_matrix 2 eq_refl H2)).
  exact Hnz.
Defined.

(** ** The weight matrix of [calc_simple_rank] *)

Lemma col_seq (M : matrix) (c : nat) :
  col M c = map (fun r => entry M r c) (seq 0 (length M)).
Proof.
  apply (nth_ext _ _ 0 0).
  - unfold col. now rewrite !length_map, length_seq.
  - intros r Hr. unfold col in Hr. rewrite length_map in Hr.
    rewrite nth_col.
    rewrite (nth_map_default (fun r => entry M r c) (seq 0 (length M)) 0%nat)
      by now rewrite length_seq.
    now rewrite seq_nth.
Qed.

Lemma rect_nth (M : matrix) (n r : nat) :
  rect n M -> (r < length M)%nat -> length (nth r M []) = n.
Proof.
  intros Hr Hlt. unfold rect in Hr. rewrite Forall_forall in Hr.
  apply Hr. now apply nth_In.
Qed.

Lemma entry_scale (m : Q) (M : matrix) (n r c : nat) :
  length M = n -> rect n M -> (r < n)%nat -> (c < n)%nat ->
  entry (scale m M) r c = m * entry M r c.
Proof.
  intros Hl Hr Hrn Hcn. unfold entry, scale.
  rewrite (nth_map_default (map (Qmult m)) M []) by lia.
  rewrite (nth_map_default (Qmult m) (nth r M []) 0); [reflexivity|].
  rewrite (rect_nth Hr); lia.
Qed.

Lemma rect_scale (m : Q) (M : matrix) (n : nat) : rect n M -> rect n (scale m M).
Proof.
  unfold rect, scale. rewrite !Forall_forall. intros H row Hrow.
  apply in_map_iff in Hrow. destruct Hrow as (row' & <- & Hin).
  rewrite length_map. now apply H.
Qed.

Lemma rect_resetmatrix (n : nat) : rect n (resetmatrix_of n).
Proof.
  unfold rect, resetmatrix_of. apply Forall_forall. intros row Hrow.
  apply repeat_spec in Hrow. subst. apply repeat_length.
Qed.

Lemma entry_resetmatrix (n r c : nat) :
  (r < n)%nat -> (c < n)%nat ->
  entry (resetmatrix_of n) r c = 1 / inject_Z (Z.of_nat n).
Proof.
  intros Hr Hc. unfold entry, resetmatrix_of.
  rewrite (nth_error_nth _ _ _ (nth_error_repeat _ Hr)).
  now rewrite (nth_error_nth _ _ _ (nth_error_repeat _ Hc)).
Qed.

Lemma bidx_lt (n i : nat) : (i < n)%nat -> bidx n i = i.
Proof.
  intros H. unfold bidx. destruct (Nat.eqb_spec n 1); [lia | reflexivity].
Qed.

Lemma mat_add_square (A B : matrix) (n : nat) :
  length A = n -> rect n A -> length B = n -> rect n B ->
  exists W,
    mat_add A B = Ok W /\ length W = n /\ rect n W /\
    forall r c, (r < n)%nat -> (c < n)%nat ->
                entry W r c = entry A r c + entry B r c.
Proof.
  intros HlA HrA HlB HrB. unfold mat_add, shape0.
  rewrite (shape1_square HlA HrA), (shape1_square HlB HrB), HlA, HlB.
  rewrite !bdim_same. cbn [bind]. eexists. split; [reflexivity|].
  split; [now rewrite length_map, length_seq|]. split.
  - unfold rect. apply Forall_forall. intros row Hrow.
    apply in_map_iff in Hrow. destruct Hrow as (i & <- & _).
    now rewrite length_map, length_seq.
  - intros r c Hr Hc. unfold entry at 1.
    rewrite (nth_map_default _ (seq 0 n) 0%nat) by now rewrite length_seq.
    rewrite (nth_map_default _ (seq 0 n) 0%nat) by now rewrite length_seq.
    rewrite !seq_nth by assumption. cbn [Nat.add].
    now rewrite !bidx_lt.
Qed.

Lemma sum_pos (l : list Q) :
  l <> [] -> (forall x, In x l -> 0 < x) -> 0 < sum l.
Proof.
  destruct l as [|x l]; [congruence|]. intros _ H.
  rewrite sum_cons.
  assert (Hx : 0 < x) by (apply H; now left).
  assert (Hl : 0 <= sum l).
  { apply sum_nonneg, Forall_forall. intros y Hy.
    apply Qlt_le_weak, H. now right. }
  lra.
Qed.

Lemma inject_nat_pos (n : nat) : (0 < n)%nat -> 0 < 1 / inject_Z (Z.of_nat n).
Proof.
  intros Hn. apply Qlt_shift_div_l.
  - change 0 with (inject_Z 0). rewrite <- Zlt_Qlt. lia.
  - lra.
Qed.

Section WeightMatrix.

Variables (gainmatrix : matrix) (n : nat) (m : Q).
Hypothesis Hl : length gainmatrix = n.
Hypothesis Hr : rect n gainmatrix.

Let T := transpose gainmatrix.

Lemma weight_T_shape : length T = n /\ rect n T.
Proof.
  unfold T. split.
  - rewrite length_transpose. now apply shape1_square.
  - rewrite <- Hl. apply rect_transpose.
Qed.

Lemma weight_T_entry r c :
  (r < n)%nat -> entry T r c = entry gainmatrix c r.
Proof.
  intros Hrn. unfold T. apply entry_transpose.
  now rewrite (shape1_square Hl Hr).
Qed.

(** the matrix before the second normalisation, entry by entry *)
Lemma weight_before :
  exists gn W0,
    normalise_gain T (shape0 T) = Ok gn /\
    length gn = n /\ rect n gn /\
    mat_add (scale m gn) (scale (1 - m) (resetmatrix_of (shape0 T))) = Ok W0 /\
    length W0 = n /\ rect n W0 /\
    (forall r c, (r < n)%nat -> entry gn r c = normalised_entry T r c) /\
    forall r c, (r < n)%nat -> (c < n)%nat ->
                entry W0 r c =
                m * normalised_entry T r c +
                (1 - m) * (1 / inject_Z (Z.of_nat n)).
Proof.
  destruct weight_T_shape as [HlT HrT].
  unfold normalise_gain, shape0. rewrite HlT.
  destruct (@normalise_gain_prefix T n HlT HrT n (le_n n))
    as (gn & Hgn & Hlgn & Hrgn & Hegn).
  destruct (@mat_add_square (scale m gn) (scale (1 - m) (resetmatrix_of n)) n)
    as (W0 & HW0 & HlW0 & HrW0 & HeW0).
  - now rewrite length_scale.
  - now apply rect_scale.
  - now rewrite length_scale, length_resetmatrix.
  - apply rect_scale, rect_resetmatrix.
  - exists gn, W0. split; [exact Hgn|]. split; [exact Hlgn|].
    split; [exact Hrgn|]. split; [exact HW0|]. split; [exact HlW0|].
    split; [exact HrW0|].
    assert (Hent : forall r c, (r < n)%nat ->
                               entry gn r c = normalised_entry T r c).
    { intros r c Hrn. rewrite Hegn by exact Hrn.
      destruct (Nat.ltb_spec c n) as [|Hge]; [reflexivity|].
      unfold normalised_entry, colabs, entry.
      assert (E0 : nth c (nth r T []) 0 = 0).
      { apply nth_overflow. rewrite (rect_nth HrT); lia. }
      assert (Ec : col T c = map (fun _ => 0) T).
      { unfold col. apply map_ext_in. intros row Hrow. apply nth_overflow.
        unfold rect in HrT. rewrite Forall_forall in HrT.
        rewrite (HrT row Hrow). lia. }
      rewrite Ec, E0.
      assert (Ez : Qeq_bool (sum (map Qabs (map (fun _ : list Q => 0) T))) 0
                   = true).
      { apply Qeq_bool_iff. clear. induction T as [|x l IH]; [reflexivity|].
        cbn [map]. rewrite sum_cons, IH. reflexivity. }
      now rewrite Ez. }
    split; [exact Hent|].
    intros r c Hrn Hcn. rewrite HeW0 by assumption.
    rewrite (@entry_scale m gn n r c) by assumption.
    rewrite (@entry_scale (1 - m) (resetmatrix_of n) n r c);
      [| apply length_resetmatrix | apply rect_resetmatrix | assumption
       | assumption].
    rewrite entry_resetmatrix by assumption.
    now rewrite Hent.
Qed.

End WeightMatrix.

Lemma sum_zero {A : Type} (f : A -> Q) (l : list A) :
  (forall x, In x l -> f x == 0) -> sum (map f l) == 0.
Proof.
  induction l as [|x l IH]; intros H; [reflexivity|].
  cbn [map]. rewrite sum_cons, IH by (intros y Hy; apply H; now right).
  rewrite (H x) by now left. reflexivity.
Qed.

Lemma colabs_seq (M : matrix) (c : nat) :
  colabs M c = sum (map (fun r => Qabs (entry M r c)) (seq 0 (length M))).
Proof. unfold colabs. now rewrite col_seq, map_map. Qed.

Lemma normalised_entry_nonneg (T : matrix) (r c : nat) :
  0 <= entry T r c -> 0 <= normalised_entry T r c.
Proof.
  intros H. unfold normalised_entry.
  destruct (Qeq_bool (colabs T c) 0); [exact H|].
  apply Qdiv_nonneg; [exact H | apply colabs_nonneg].
Qed.

(** X15: for a square gain matrix without negative entries and a mixing
    weight [0 <= m < 1], the first three steps of [calc_simple_rank] always
    succeed, and the weight matrix they hand to [np.linalg.eig] has only
    positive entries and columns that add up to 1; the ranking that
    [calc_simple_rank] returns is read from the eigen-decomposition of this
    very matrix. *)
Theorem weight_matrix_stochastic
        (eig : matrix -> result (list Cx * list (list Cx)))
        (np_abs : Cx -> Q)
        (eigenvector_centrality : DiGraph -> result (PyDict.dict Q))
        (katz_centrality : DiGraph -> Q -> Q -> Z -> result (PyDict.dict Q))
        (gainmatrix : matrix) (variables : list string) (m : Q) (n : nat) :
  length gainmatrix = n -> rect n gainmatrix ->
  (forall r c, (r < n)%nat -> (c < n)%nat -> 0 <= entry gainmatrix r c) ->
  0 <= m -> m < 1 ->
  exists gn W0 W,
    normalise_gain (transpose gainmatrix) (shape0 (transpose gainmatrix)) =
      Ok gn /\
    mat_add (scale m gn)
            (scale (1 - m) (resetmatrix_of (shape0 (transpose gainmatrix)))) =
      Ok W0 /\
    normalise_weight W0 (shape0 (transpose gainmatrix)) = Ok W /\
    length W = n /\ rect n W /\
    (forall r c, (r < n)%nat -> (c < n)%nat -> 0 < entry W r c) /\
    (forall c, (c < n)%nat -> sum (col W c) == 1) /\
    forall d l,
      calc_simple_rank eig np_abs eigenvector_centrality katz_centrality
                       gainmatrix variables m = Ok (d, l) ->
      exists eigval eigvec k column rn,
        eig W = Ok (eigval, eigvec) /\ argmax eigval = Ok k /\
        get_col eigvec k = Ok column /\
        normalise_rank (map np_abs column) = Ok rn /\
        d = PyDict.of_pairs (combine variables rn).
Proof.
  intros Hl Hr Hpos Hm0 Hm1.
  destruct (weight_T_shape Hl Hr) as [HlT HrT].
  destruct (@weight_before gainmatrix n m Hl Hr)
    as (gn & W0 & Hgn & Hlgn & Hrgn & HW0 & HlW0 & HrW0 & Hegn & HeW0).
  assert (Hp0 : forall r c, (r < n)%nat -> (c < n)%nat -> 0 < entry W0 r c).
  { intros r c Hrn Hcn. rewrite HeW0 by assumption.
    assert (H1 : 0 <= m * normalised_entry (transpose gainmatrix) r c).
    { apply Qmult_le_0_compat; [exact Hm0|].
      apply normalised_entry_nonneg.
      rewrite (weight_T_entry Hl Hr) by assumption. now apply Hpos. }
    assert (H2 : 0 < (1 - m) * (1 / inject_Z (Z.of_nat n))).
    { apply Qmult_lt_0_compat; [lra | apply inject_nat_pos; lia]. }
    lra. }
  assert (Hc0 : forall c, (c < n)%nat -> 0 < colabs W0 c).
  { intros c Hcn. rewrite colabs_seq, HlW0. apply sum_pos.
    - destruct n; [lia | discriminate].
    - intros x Hx. apply in_map_iff in Hx. destruct Hx as (r & <- & Hr').
      apply in_seq in Hr'. rewrite Qabs_pos; [apply Hp0; lia|].
      apply Qlt_le_weak, Hp0; lia. }
  assert (Hnz : forall c, (c < n)%nat -> ~ colabs W0 c == 0).
  { intros c Hcn Hz. specialize (Hc0 c Hcn). rewrite Hz in Hc0.
    now apply Qlt_irrefl in Hc0. }
  destruct (@normalise_weight_Ok W0 n HlW0 HrW0 Hnz)
    as (W & HW & HlW & HrW & HeW).
  assert (HcW : forall c, (c < n)%nat -> colabs W c == 1).
  { intros c Hcn. apply (@colabs_divided W W0 n c); auto. }
  assert (Hshape : shape0 (transpose gainmatrix) = n) by exact HlT.
  assert (HpW : forall r c, (r < n)%nat -> (c < n)%nat -> 0 < entry W r c).
  { intros r c Hrn Hcn. rewrite HeW by assumption.
    apply Qlt_shift_div_l; [now apply Hc0|].
    setoid_replace (0 * colabs W0 c) with 0 by ring. now apply Hp0. }
  exists gn, W0, W. rewrite Hshape in *.
  split; [exact Hgn|]. split; [exact HW0|]. split; [exact HW|].
  split; [exact HlW|]. split; [exact HrW|]. split; [exact HpW|]. split.
  - intros c Hcn. rewrite <- (HcW c Hcn). rewrite colabs_seq, col_seq, HlW.
    apply sum_map_ext. intros r Hr'. apply in_seq in Hr'.
    rewrite Qabs_pos; [reflexivity|]. apply Qlt_le_weak, HpW; lia.
  - intros d l H. apply calc_simple_rank_inv in H. cbv zeta in H.
    destruct H as (gn' & W0' & W' & eigval & eigvec & k & column & rn & wg & gg &
                   Hgn' & HW0' & HW' & Heig & Hk & Hcol & Hrn & Hd & _).
    rewrite Hshape in *.
    rewrite Hgn in Hgn'. injection Hgn' as <-.
    rewrite HW0 in HW0'. injection HW0' as <-.
    rewrite HW in HW'. injection HW' as <-.
    exists eigval, eigvec, k, column, rn.
    split; [|auto].
    unfold np_linalg_eig in Heig.
    destruct (rectb (shape0 W) W); [exact Heig | discriminate].
Qed.

(** X16: without the reset term ([m] equal to 1), a variable whose row of
    the gain matrix is zero leaves a zero column in the weight matrix; the
    second normalisation divides it by its sum, zero, and
    [calc_simple_rank] ends with a number that is not finite instead of a
    ranking. *)
Theorem simple_rank_without_reset
        (eig : matrix -> result (list Cx * list (list Cx)))
        (np_abs : Cx -> Q)
        (eigenvector_centrality : DiGraph -> result (PyDict.dict Q))
        (katz_centrality : DiGraph -> Q -> Q -> Z -> result (PyDict.dict Q))
        (gainmatrix : matrix) (variables : list string) (m : Q) (n : nat) :
  length gainmatrix = n -> rect n gainmatrix -> m == 1 ->
  (exists c, (c < n)%nat /\
             forall r, (r < n)%nat -> entry gainmatrix c r == 0) ->
  calc_simple_rank eig np_abs eigenvector_centrality katz_centrality
                   gainmatrix variables m = Raise NonFinite.
Proof.
  intros Hl Hr Hm (c & Hcn & Hrow).
  destruct (weight_T_shape Hl Hr) as [HlT HrT].
  destruct (@weight_before gainmatrix n m Hl Hr)
    as (gn & W0 & Hgn & Hlgn & Hrgn & HW0 & HlW0 & HrW0 & Hegn & HeW0).
  assert (HcT : colabs (transpose gainmatrix) c == 0).
  { rewrite colabs_seq, HlT. apply sum_zero. intros r Hr'.
    apply in_seq in Hr'.
    rewrite (weight_T_entry Hl Hr) by lia. rewrite Hrow by lia. reflexivity. }
  assert (Hz : colabs W0 c == 0).
  { rewrite colabs_seq, HlW0. apply sum_zero. intros r Hr'.
    apply in_seq in Hr'. rewrite HeW0 by (assumption || lia).
    unfold normalised_entry. apply Qeq_bool_iff in HcT. rewrite HcT.
    rewrite (weight_T_entry Hl Hr) by lia. rewrite Hrow by lia.
    rewrite Hm.
    setoid_replace (1 * 0 + (1 - 1) * (1 / inject_Z (Z.of_nat n))) with 0
      by ring.
    reflexivity. }
  pose proof (@normalise_weight_zero W0 n c HlW0 HrW0 Hcn Hz) as HW.
  unfold calc_simple_rank.
  assert (Hshape : shape0 (transpose gainmatrix) = n) by exact HlT.
  rewrite Hshape in *. rewrite Hgn. cbn [bind]. rewrite HW0. cbn [bind].
  now rewrite HW.
Qed.

Lemma ones_matrix_nonneg :
  forall r c, (r < 2)%nat -> (c < 2)%nat -> 0 <= entry ones_matrix r c.
Proof. intros [|[|r]] [|[|c]] Hr Hc; try lia; discriminate. Qed.

Lemma weight_matrix_stochastic_witness :
  length ones_matrix = 2%nat /\ rect 2 ones_matrix /\
  (forall r c, (r < 2)%nat -> (c < 2)%nat -> 0 <= entry ones_matrix r c) /\
  0 <= 1 # 2 /\ 1 # 2 < 1 /\
  exists gn W0 W,
    normalise_gain (transpose ones_matrix) (shape0 (transpose ones_matrix)) =
      Ok gn /\
    mat_add (scale (1 # 2) gn)
            (scale (1 - (1 # 2))
                   (resetmatrix_of (shape0 (transpose ones_matrix)))) =
      Ok W0 /\
    normalise_weight W0 (shape0 (transpose ones_matrix)) = Ok W /\
    length W = 2%nat /\ rect 2 W /\
    (forall r c, (r < 2)%nat -> (c < 2)%nat -> 0 < entry W r c) /\
    (forall c, (c < 2)%nat -> sum (col W c) == 1) /\
    forall d l,
      simple_rank_demo ones_matrix vars_ab (1 # 2) = Ok (d, l) ->
      exists eigval eigvec k column rn,
        eig_demo W = Ok (eigval, eigvec) /\ argmax eigval = Ok k /\
        get_col eigvec k = Ok column /\
        normalise_rank (map abs_demo column) = Ok rn /\
        d = PyDict.of_pairs (combine vars_ab rn).
Proof.
  assert (H2 : rect 2 ones_matrix) by (repeat constructor).
  split; [reflexivity|]. split; [exact H2|].
  split; [exact ones_matrix_nonneg|].
  split; [discriminate|]. split; [reflexivity|].
  apply (@weight_matrix_stochastic eig_demo abs_demo centrality_demo katz_demo
           ones_matrix vars_ab (1 # 2) 2 eq_refl H2 ones_matrix_nonneg);
    [discriminate | reflexivity].
Defined.

Lemma simple_rank_without_reset_witness :
  length [[1; 1]; [0; 0]] = 2%nat /\ rect 2 [[1; 1]; [0; 0]] /\ 1 == 1 /\
  (exists c, (c < 2)%nat /\
             forall r, (r < 2)%nat -> entry [[1; 1]; [0; 0]] c r == 0) /\
  simple_rank_demo [[1; 1]; [0; 0]] vars_ab 1 = Raise NonFinite.
Proof.
  assert (H2 : rect 2 [[1; 1]; [0; 0]]) by (repeat constructor).
  assert (Hz : exists c, (c < 2)%nat /\
                         forall r, (r < 2)%nat -> entry [[1; 1]; [0; 0]] c r == 0).
  { exists 1%nat. split; [lia|]. intros [|[|r]] Hr; try lia; reflexivity. }
  split; [reflexivity|]. split; [exact H2|]. split; [reflexivity|].
  split; [exact Hz|].
  apply (@simple_rank_without_reset eig_demo abs_demo centrality_demo katz_demo
           [[1; 1]; [0; 0]] vars_ab 1 2 eq_refl H2); [reflexivity | exact Hz].
Defined.

(** ** [gainmatrix_preprocessing] *)


Lemma In_nonzero (M : matrix) (r c : nat) :
  In (r, c) (nonzero M) <->
  exists row x, nth_error M r = Some row /\ nth_error row c = Some x /\
                Qeq_bool x 0 = false.
Proof.
  unfold nonzero, nonzero_row. rewrite in_flat_map. split.
  - intros ([i row] & Hrow & Hin). apply In_enumerate in Hrow.
    apply in_map_iff in Hin. destruct Hin as ([j x] & Heq & Hf).
    cbn [fst snd] in *. injection Heq as <- <-.
    apply filter_In in Hf. destruct Hf as [Hx Hnz]. apply In_enumerate in Hx.
    cbn [snd] in Hnz. apply negb_true_iff in Hnz. eauto.
  - intros (row & x & Hrow & Hx & Hnz). exists (r, row).
    split; [now apply In_enumerate|]. cbn [fst snd].
    apply in_map_iff. exists (c, x). split; [reflexivity|].
    apply filter_In. split; [now apply In_enumerate|].
    cbn [snd]. now rewrite Hnz.
Qed.

Lemma In_nonzero_entry (M : matrix) (r c : nat) :
  In (r, c) (nonzero M) ->
  mat_get M r c = Ok (entry M r c) /\ ~ entry M r c == 0 /\
  (r < length M)%nat /\ (c < length (nth r M []))%nat.
Proof.
  intros H. apply In_nonzero in H. destruct H as (row & x & Hrow & Hx & Hnz).
  unfold mat_get, entry. rewrite Hrow, Hx.
  rewrite (nth_error_nth _ _ [] Hrow), (nth_error_nth _ _ 0 Hx).
  split; [reflexivity|]. split; [now apply Qeq_bool_neq|].
  split; apply nth_error_Some; congruence.
Qed.











(** ** [create_importance_graph] *)

Lemma edge_eqb_spec (e e' : string * string) : reflect (e = e') (edge_eqb e e').
Proof.
  destruct e as [a b], e' as [a' b']. unfold edge_eqb. cbn [fst snd].
  destruct (String.eqb_spec a a') as [->|Ha]; cbn [andb].
  - destruct (String.eqb_spec b b') as [->|Hb]; constructor; congruence.
  - constructor. congruence.
Qed.

Lemma get_attr_set_attr {V : Type} (l : list ((string * string) * V))
      (e e' : string * string) (x : V) :
  get_attr (set_attr l e x) e' = if edge_eqb e e' then Some x else get_attr l e'.
Proof.
  induction l as [|[a y] l IH]; cbn [set_attr get_attr].
  - reflexivity.
  - destruct (edge_eqb_spec a e) as [->|Hae]; cbn [get_attr].
    + destruct (edge_eqb_spec e e'); reflexivity.
    + rewrite IH. destruct (edge_eqb_spec a e') as [->|Hae'].
      * destruct (edge_eqb_spec e e'); [congruence | reflexivity].
      * reflexivity.
Qed.

Lemma openedgelist_mem (g : DiGraph) (u v : string) :
  (if existsb (edge_eqb (u, v)) (map fst (edges g)) then 0%nat else 1%nat) =
  loop_flag g u v.
Proof.
  unfold loop_flag, get_edge. induction (edges g) as [|[[a b] w] es IH];
    cbn [map existsb get_edge_in fst snd]; [reflexivity|].
  unfold same_edge, edge_eqb at 1. cbn [fst snd].
  rewrite (String.eqb_sym u a), (String.eqb_sym v b).
  destruct (String.eqb a u && String.eqb b v); cbn [orb]; [reflexivity|].
  exact IH.
Qed.

Section ImportanceGraph.

Import PyDict.
Variables (variablelist : list string) (gainmatrix : matrix).

(** the graph of the closed loop grows as the open one does *)
Lemma closed_loop_graph (openedgelist : list (string * string))
      (l : list (nat * nat)) : forall c,
  match for_each l (open_body variablelist gainmatrix) (graph c) with
  | Ok g' =>
      exists c',
        for_each l (closed_body variablelist gainmatrix openedgelist) c = Ok c' /\
        graph c' = g' /\ importance c' = importance c
  | Raise e =>
      for_each l (closed_body variablelist gainmatrix openedgelist) c = Raise e
  end.
Proof.
  induction l as [|[row col] l IH]; intros c; cbn [for_each].
  - now exists c.
  - set (Fc := for_each l (closed_body variablelist gainmatrix openedgelist))
      in *.
    set (Fo := for_each l (open_body variablelist gainmatrix)) in *.
    unfold open_body, closed_body.
    destruct (list_getitem variablelist col) as [u|]; cbn [bind]; [|reflexivity].
    destruct (list_getitem variablelist row) as [v|]; cbn [bind]; [|reflexivity].
    destruct (mat_get gainmatrix row col) as [w|]; cbn [bind]; [|reflexivity].
    apply (IH (mkImportanceGraph
                 (add_edge (graph c) u v w)
                 (set_attr (controlloop c) (u, v)
                           (if existsb (edge_eqb (u, v)) openedgelist
                            then 0%nat else 1%nat))
                 (importance c))).
Qed.

(** every edge of the closed graph bears its flag, and only edges do *)
Lemma closed_loop_flags (opengraph : DiGraph) (l : list (nat * nat)) c c' :
  (forall u v, get_attr (controlloop c) (u, v) =
               match get_edge (graph c) u v with
               | Some _ => Some (loop_flag opengraph u v)
               | None => None
               end) ->
  for_each l (closed_body variablelist gainmatrix (map fst (edges opengraph))) c
    = Ok c' ->
  forall u v, get_attr (controlloop c') (u, v) =
              match get_edge (graph c') u v with
              | Some _ => Some (loop_flag opengraph u v)
              | None => None
              end.
Proof.
  intros H0 H.
  apply (@for_each_inv _ _
           (fun c => forall u v,
                get_attr (controlloop c) (u, v) =
                match get_edge (graph c) u v with
                | Some _ => Some (loop_flag opengraph u v)
                | None => None
                end)
           (closed_body variablelist gainmatrix (map fst (edges opengraph)))
           l) with (s := c); [|exact H0|exact H].
  intros s [row col] s' _ Hs Hb a b. unfold closed_body in Hb.
  destruct (list_getitem variablelist col) as [u|]; cbn [bind] in Hb;
    [|discriminate].
  destruct (list_getitem variablelist row) as [v|]; cbn [bind] in Hb;
    [|discriminate].
  destruct (mat_get gainmatrix row col) as [w|]; cbn [bind] in Hb;
    [|discriminate].
  injection Hb as <-. cbn [controlloop graph].
  rewrite get_attr_set_attr, get_edge_add_edge, openedgelist_mem.
  unfold edge_eqb. cbn [fst snd].
  destruct (String.eqb_spec u a) as [->|]; cbn [andb]; [|apply Hs].
  destruct (String.eqb_spec v b) as [->|]; [reflexivity | apply Hs].
Qed.

Lemma add_node_old (g : DiGraph) (n : string) :
  In n (nodes g) -> add_node g n = g.
Proof.
  intros H. unfold add_node. apply has_node_In in H. now rewrite H.
Qed.

Lemma importance_loop_Ok (ranks : dict Q) (l : list string) : forall c,
  (forall n, In n l -> In n (nodes (graph c))) ->
  (forall n, In n l -> get ranks n <> None) ->
  exists c',
    for_each l (importance_body ranks) c = Ok c' /\
    graph c' = graph c /\ controlloop c' = controlloop c /\
    forall n, get (importance c') n =
              if in_dec string_dec n l then get ranks n
              else get (importance c) n.
Proof.
  induction l as [|x l IH]; intros c Hn Hr.
  - exists c. repeat split; reflexivity.
  - cbn [for_each]. unfold importance_body at 1, getitem.
    destruct (get ranks x) as [r|] eqn:Ex; [|elim (Hr x); [now left | exact Ex]].
    cbn [bind]. rewrite add_node_old by (apply Hn; now left).
    destruct (IH (mkImportanceGraph (graph c) (controlloop c)
                                    (set (importance c) x r)))
      as (c' & Hc' & Hg & Hf & Hi).
    + intros n Hin. apply Hn. now right.
    + intros n Hin. apply Hr. now right.
    + exists c'. split; [exact Hc'|]. split; [exact Hg|]. split; [exact Hf|].
      intros n. rewrite Hi. cbn [importance]. rewrite get_set.
      destruct (in_dec string_dec n l) as [Hl|Hl],
               (in_dec string_dec n (x :: l)) as [Hxl|Hxl];
        try reflexivity.
      * elim Hxl. now right.
      * destruct Hxl as [->|]; [|contradiction].
        now rewrite String.eqb_refl.
      * destruct (String.eqb_spec x n) as [->|]; [|reflexivity].
        elim Hxl. now left.
Qed.

Lemma importance_loop_known (ranks : dict Q) (l : list string) : forall c c',
  for_each l (importance_body ranks) c = Ok c' ->
  forall n, In n l -> get ranks n <> None.
Proof.
  induction l as [|x l IH]; intros c c' H n Hn; [contradiction|].
  cbn [for_each] in H. unfold importance_body at 1, getitem in H.
  destruct (get ranks x) as [r|] eqn:Ex; cbn [bind] in H; [|discriminate].
  destruct Hn as [<-|Hn]; [congruence | eapply IH; eauto].
Qed.

Lemma importance_loop_KeyError (ranks : dict Q) (l : list string) c :
  (exists n, In n l /\ get ranks n = None) ->
  for_each l (importance_body ranks) c = Raise KeyError.
Proof.
  intros (n & Hn & Hr).
  apply for_each_first_raise
    with (good := fun n => match get ranks n with
                           | Some _ => true
                           | None => false
                           end).
  - intros s x _ Hx. unfold importance_body, getitem.
    destruct (get ranks x); [cbn [bind]; eauto | discriminate].
  - intros s x _ Hx. unfold importance_body, getitem.
    destruct (get ranks x); [discriminate | reflexivity].
  - exists n. split; [exact Hn|]. now rewrite Hr.
Qed.

End ImportanceGraph.

(** X18: in the graph that [create_importance_graph] returns first, the
    attribute [controlloop] is attached to the edges and to nothing else,
    and it is 1 exactly on the edges that the second graph returned, the
    open one, does not have; the attribute [importance] is attached to the
    nodes and to nothing else, and it is the rank of the node, which the
    ranks therefore hold. *)
Theorem importance_graph_attributes (variablelist : list string)
        (closedconnections openconnections gainmatrix : matrix)
        (ranks : PyDict.dict Q)
        (closedgraph : ImportanceGraph) (opengraph : DiGraph) :
  create_importance_graph variablelist closedconnections openconnections
                          gainmatrix ranks = Ok (closedgraph, opengraph) ->
  (forall u v,
      get_attr (controlloop closedgraph) (u, v) =
      match get_edge (graph closedgraph) u v with
      | Some _ => Some (match get_edge opengraph u v with
                        | Some _ => 0%nat
                        | None => 1%nat
                        end)
      | None => None
      end) /\
  (forall n,
      PyDict.get (importance closedgraph) n =
      if in_dec string_dec n (nodes (graph closedgraph))
      then PyDict.get ranks n else None) /\
  (forall n, In n (nodes (graph closedgraph)) -> PyDict.get ranks n <> None).
Proof.
  intros H. unfold create_importance_graph in H.
  bind_inv H og Eo. bind_inv H c1 Ec. bind_inv H c2 Ei.
  injection H as <- <-.
  pose proof (@importance_loop_known ranks _ _ _ Ei) as Hk.
  destruct (@importance_loop_Ok ranks (nodes (graph c1)) c1 (fun n H => H) Hk)
    as (c2' & Ei' & Hg & Hf & Hi).
  rewrite Ei in Ei'. injection Ei' as <-.
  split; [|split].
  - rewrite Hg, Hf.
    apply (@closed_loop_flags variablelist gainmatrix og
             (nonzero closedconnections)
             (mkImportanceGraph empty_graph [] []) c1); [|exact Ec].
    intros u v. reflexivity.
  - intros n. rewrite Hi, Hg.
    destruct (in_dec string_dec n (nodes (graph c1))); [reflexivity|].
    assert (Hc1 : importance c1 = []).
    { pose proof (@closed_loop_graph variablelist gainmatrix
                    (map fst (edges og)) (nonzero closedconnections)
                    (mkImportanceGraph empty_graph [] [])) as Hcl.
      destruct (for_each (nonzero closedconnections)
                  (open_body variablelist gainmatrix)
                  (graph (mkImportanceGraph empty_graph [] []))) as [g'|e].
      - destruct Hcl as (c' & Hc' & _ & Himp). rewrite Ec in Hc'.
        injection Hc' as <-. exact Himp.
      - rewrite Ec in Hcl. discriminate. }
    now rewrite Hc1.
  - rewrite Hg. exact Hk.
Qed.

Lemma importance_graph_attributes_witness :
  exists closedgraph opengraph,
    create_importance_graph vars_ab conn_demo open_demo ones_matrix ranks_demo =
      Ok (closedgraph, opengraph) /\
    get_edge (graph closedgraph) "b" "a" = Some 1 /\
    get_edge opengraph "b" "a" = None /\
    get_attr (controlloop closedgraph) ("b", "a")%string = Some 1%nat /\
    get_attr (controlloop closedgraph) ("a", "b")%string = Some 0%nat /\
    (forall u v,
        get_attr (controlloop closedgraph) (u, v) =
        match get_edge (graph closedgraph) u v with
        | Some _ => Some (match get_edge opengraph u v with
                          | Some _ => 0%nat
                          | None => 1%nat
                          end)
        | None => None
        end) /\
    (forall n,
        PyDict.get (importance closedgraph) n =
        if in_dec string_dec n (nodes (graph closedgraph))
        then PyDict.get ranks_demo n else None) /\
    (forall n, In n (nodes (graph closedgraph)) ->
               PyDict.get ranks_demo n <> None).
Proof.
  eexists. eexists. split; [vm_compute; reflexivity|].
  split; [reflexivity|]. split; [reflexivity|]. split; [reflexivity|].
  split; [reflexivity|].
  apply (@importance_graph_attributes vars_ab conn_demo open_demo ones_matrix
                                      ranks_demo).
  vm_compute. reflexivity.
Defined.

(** *** The edges of the two graphs *)

Section Positions.

Variables (variablelist : list string) (gainmatrix connections : matrix).
Hypothesis Hnodup : NoDup variablelist.
Hypothesis Hg_rows : length gainmatrix = length variablelist.
Hypothesis Hg_rect : rect (length variablelist) gainmatrix.
Hypothesis Hc_rows : length connections = length variablelist.
Hypothesis Hc_rect : rect (length variablelist) connections.

Lemma position_in_range r c :
  In (r, c) (nonzero connections) ->
  (r < length variablelist)%nat /\ (c < length variablelist)%nat /\
  Qeq_bool (entry connections r c) 0 = false.
Proof.
  intros H. apply In_nonzero_entry in H. destruct H as (_ & Hnz & Hr & Hc).
  rewrite (rect_nth Hc_rect Hr) in Hc. rewrite Hc_rows in Hr.
  split; [exact Hr|]. split; [exact Hc|].
  destruct (Qeq_bool (entry connections r c) 0) eqn:E; [|reflexivity].
  apply Qeq_bool_iff in E. contradiction.
Qed.

Lemma position_item_ok rc :
  In rc (nonzero connections) ->
  item_ok variablelist (position_item variablelist rc) /\
  active connections (position_item variablelist rc).
Proof.
  destruct rc as [r c]. intros H.
  destruct (@position_in_range r c H) as (Hr & Hc & Hnz).
  unfold item_ok, active, position_item. cbn [fst snd].
  split; [|exact Hnz]. split; apply nth_error_nth'; assumption.
Qed.

Lemma open_body_inner g rc :
  In rc (nonzero connections) ->
  open_body variablelist gainmatrix g rc =
  buildgraph_inner gainmatrix connections
                   (fst (fst (position_item variablelist rc)))
                   (snd (fst (position_item variablelist rc))) g
                   (snd (position_item variablelist rc)).
Proof.
  destruct rc as [r c]. intros H.
  destruct (@position_in_range r c H) as (Hr & Hc & Hnz).
  unfold open_body, buildgraph_inner, position_item, list_getitem.
  cbn [fst snd].
  rewrite (@nth_error_nth' _ variablelist c ""%string Hc).
  rewrite (@nth_error_nth' _ variablelist r ""%string Hr). cbn [bind].
  rewrite (@mat_get_entry connections (length variablelist) r c) by assumption.
  cbn [bind]. now rewrite Hnz.
Qed.

Lemma position_loop :
  exists g,
    for_each (nonzero connections) (open_body variablelist gainmatrix)
             empty_graph = Ok g /\
    built variablelist gainmatrix connections
          (map (position_item variablelist) (nonzero connections)) g.
Proof.
  destruct (@for_each_total DiGraph _
              (fun done g => built variablelist gainmatrix connections
                                   (map (position_item variablelist) done) g)
              (fun rc => In rc (nonzero connections))
              (open_body variablelist gainmatrix))
    with (rest := nonzero connections) (done := @nil (nat * nat))
         (s := empty_graph) as (g & Hg & Hb).
  - intros done rc g Hrc Hbuilt. rewrite open_body_inner by exact Hrc.
    rewrite map_app. cbn [map].
    apply built_step; auto. now apply position_item_ok.
  - now apply Forall_forall.
  - apply built_empty.
  - now exists g.
Qed.

(** the loop over the positions and the double loop of [buildgraph] meet
    the same active pairs *)
Lemma position_items_all p :
  active connections p ->
  (In p (map (position_item variablelist) (nonzero connections)) <->
   In p (list_prod (enumerate variablelist) (enumerate variablelist))).
Proof.
  intros Ha. split.
  - intros H. apply in_map_iff in H. destruct H as ([r c] & <- & Hrc).
    destruct (@position_in_range r c Hrc) as (Hr & Hc & _).
    unfold position_item. cbn [fst snd]. apply in_prod_iff.
    rewrite !In_enumerate. split; apply nth_error_nth'; assumption.
  - destruct p as [[c u] [r v]]. intros H. apply in_prod_iff in H.
    rewrite !In_enumerate in H. destruct H as [Hc Hr].
    unfold active in Ha. cbn [fst snd] in Ha.
    apply in_map_iff. exists (r, c). unfold position_item. cbn [fst snd].
    rewrite (@nth_error_nth _ variablelist c u ""%string Hc).
    rewrite (@nth_error_nth _ variablelist r v ""%string Hr).
    split; [reflexivity|].
    assert (Hrn : (r < length variablelist)%nat)
      by (apply nth_error_Some; congruence).
    assert (Hcn : (c < length variablelist)%nat)
      by (apply nth_error_Some; congruence).
    apply In_nonzero.
    destruct (nth_error connections r) as [row|] eqn:Er;
      [|apply nth_error_None in Er; lia].
    assert (Hrow : length row = length variablelist).
    { unfold rect in Hc_rect. rewrite Forall_forall in Hc_rect.
      apply Hc_rect. eapply nth_error_In; eauto. }
    destruct (nth_error row c) as [x|] eqn:Ex;
      [|apply nth_error_None in Ex; lia].
    exists row, x. split; [reflexivity|]. split; [exact Ex|].
    unfold entry in Ha.
    now rewrite (nth_error_nth _ _ [] Er), (nth_error_nth _ _ 0 Ex) in Ha.
Qed.

Lemma built_same done1 done2 g1 g2 :
  built variablelist gainmatrix connections done1 g1 ->
  built variablelist gainmatrix connections done2 g2 ->
  (forall p, active connections p -> (In p done1 <-> In p done2)) ->
  (forall u v, get_edge g1 u v = get_edge g2 u v) /\
  (forall n, In n (nodes g1) <-> In n (nodes g2)).
Proof.
  intros (_ & _ & Hn1 & He1) (_ & _ & Hn2 & He2) Hsame.
  assert (Hsub : forall u v w, get_edge g1 u v = Some w <->
                               get_edge g2 u v = Some w).
  { intros u v w. rewrite He1, He2. split.
    - intros (p & Hp & Ha & H). exists p. split; [now apply Hsame | auto].
    - intros (p & Hp & Ha & H). exists p. split; [now apply Hsame | auto]. }
  split.
  - intros u v. destruct (get_edge g1 u v) as [w|] eqn:E1.
    + symmetry. now apply Hsub.
    + destruct (get_edge g2 u v) as [w|] eqn:E2; [|reflexivity].
      apply Hsub in E2. congruence.
  - intros n. rewrite Hn1, Hn2. split.
    + intros (p & Hp & Ha & H). exists p. split; [now apply Hsame | auto].
    + intros (p & Hp & Ha & H). exists p. split; [now apply Hsame | auto].
Qed.

Lemma position_loop_buildgraph :
  exists g gb,
    for_each (nonzero connections) (open_body variablelist gainmatrix)
             empty_graph = Ok g /\
    buildgraph variablelist gainmatrix connections = Ok gb /\
    (forall u v, get_edge g u v = get_edge gb u v) /\
    (forall n, In n (nodes g) <-> In n (nodes gb)).
Proof.
  destruct position_loop as (g & Hg & Hb).
  destruct (@buildgraph_built variablelist gainmatrix connections)
    as (gb & Hgb & Hbb); auto.
  exists g, gb. split; [exact Hg|]. split; [exact Hgb|].
  apply (@built_same _ _ _ _ Hb Hbb). apply position_items_all.
Qed.

End Positions.

(** X19: for distinct variables and square matrices of their number, the two
    graphs of [create_importance_graph] have the edges, weights and nodes of
    the graphs that [buildgraph] makes of the gain matrix with the closed
    and with the open connections.  The function returns when every node of
    the closed graph has a rank, and raises [KeyError] otherwise. *)
Theorem importance_graph_edges (variablelist : list string)
        (closedconnections openconnections gainmatrix : matrix)
        (ranks : PyDict.dict Q) :
  NoDup variablelist ->
  length gainmatrix = length variablelist ->
  rect (length variablelist) gainmatrix ->
  length closedconnections = length variablelist ->
  rect (length variablelist) closedconnections ->
  length openconnections = length variablelist ->
  rect (length variablelist) openconnections ->
  exists gc go,
    buildgraph variablelist gainmatrix closedconnections = Ok gc /\
    buildgraph variablelist gainmatrix openconnections = Ok go /\
    ((forall n, In n (nodes gc) -> PyDict.get ranks n <> None) ->
     exists closedgraph opengraph,
       create_importance_graph variablelist closedconnections openconnections
                               gainmatrix ranks = Ok (closedgraph, opengraph) /\
       (forall u v, get_edge (graph closedgraph) u v = get_edge gc u v) /\
       (forall n, In n (nodes (graph closedgraph)) <-> In n (nodes gc)) /\
       (forall u v, get_edge opengraph u v = get_edge go u v) /\
       (forall n, In n (nodes opengraph) <-> In n (nodes go))) /\
    ((exists n, In n (nodes gc) /\ PyDict.get ranks n = None) ->
     create_importance_graph variablelist closedconnections openconnections
                             gainmatrix ranks = Raise KeyError).
Proof.
  intros Hnd Hg Hgr Hc Hcr Ho Hor.
  destruct (@position_loop_buildgraph variablelist gainmatrix closedconnections)
    as (g1 & gc & Hg1 & Hgc & He1 & Hn1); auto.
  destruct (@position_loop_buildgraph variablelist gainmatrix openconnections)
    as (g2 & go & Hg2 & Hgo & He2 & Hn2); auto.
  exists gc, go. split; [exact Hgc|]. split; [exact Hgo|].
  pose proof (@closed_loop_graph variablelist gainmatrix
                (map fst (edges g2)) (nonzero closedconnections)
                (mkImportanceGraph empty_graph [] [])) as Hcl.
  cbn [graph] in Hcl. rewrite Hg1 in Hcl.
  destruct Hcl as (c1 & Hc1 & Hgraph & _).
  split.
  - intros Hranks.
    destruct (@importance_loop_Ok ranks (nodes (graph c1)) c1 (fun n H => H))
      as (c2 & Hc2 & Hg2' & _).
    { intros n Hn. apply Hranks. apply Hn1. now rewrite <- Hgraph. }
    exists c2, g2. split.
    + unfold create_importance_graph. rewrite Hg2. cbn [bind].
      rewrite Hc1. cbn [bind]. now rewrite Hc2.
    + rewrite Hg2', Hgraph. auto.
  - intros (n & Hn & Hmiss). unfold create_importance_graph.
    rewrite Hg2. cbn [bind]. rewrite Hc1. cbn [bind].
    rewrite importance_loop_KeyError; [reflexivity|].
    exists n. split; [|exact Hmiss]. rewrite Hgraph. now apply Hn1.
Qed.

Lemma importance_graph_edges_witness :
  NoDup vars_ab /\
  length ones_matrix = length vars_ab /\ rect (length vars_ab) ones_matrix /\
  length conn_demo = length vars_ab /\ rect (length vars_ab) conn_demo /\
  length open_demo = length vars_ab /\ rect (length vars_ab) open_demo /\
  exists gc go,
    buildgraph vars_ab ones_matrix conn_demo = Ok gc /\
    buildgraph vars_ab ones_matrix open_demo = Ok go /\
    ((forall n, In n (nodes gc) -> PyDict.get ranks_demo n <> None) ->
     exists closedgraph opengraph,
       create_importance_graph vars_ab conn_demo open_demo ones_matrix
                               ranks_demo = Ok (closedgraph, opengraph) /\
       (forall u v, get_edge (graph closedgraph) u v = get_edge gc u v) /\
       (forall n, In n (nodes (graph closedgraph)) <-> In n (nodes gc)) /\
       (forall u v, get_edge opengraph u v = get_edge go u v) /\
       (forall n, In n (nodes opengraph) <-> In n (nodes go))) /\
    ((exists n, In n (nodes gc) /\ PyDict.get ranks_demo n = None) ->
     create_importance_graph vars_ab conn_demo open_demo ones_matrix
                             ranks_demo = Raise KeyError).
Proof.
  assert (H1 : rect (length vars_ab) ones_matrix) by (repeat constructor).
  assert (H2 : rect (length vars_ab) conn_demo) by (repeat constructor).
  assert (H3 : rect (length vars_ab) open_demo) by (repeat constructor).
  split; [exact NoDup_vars_ab|]. split; [reflexivity|]. split; [exact H1|].
  split; [reflexivity|]. split; [exact H2|]. split; [reflexivity|].
  split; [exact H3|].
  apply (@importance_graph_edges vars_ab conn_demo open_demo ones_matrix
           ranks_demo NoDup_vars_ab eq_refl H1 eq_refl H2 eq_refl H3).
Defined.

(** ** [plot_transient_importances] *)

Lemma get_set_figure (fs : list (nat * Figure)) (k k' : nat) (f : Figure) :
  get_figure (set_figure fs k f) k' =
  if Nat.eqb k k' then Some f else get_figure fs k'.
Proof.
  induction fs as [|[a x] fs IH]; cbn [set_figure get_figure].
  - reflexivity.
  - destruct (Nat.eqb_spec a k) as [->|Hak]; cbn [get_figure].
    + destruct (Nat.eqb_spec k k'); reflexivity.
    + rewrite IH. destruct (Nat.eqb_spec a k') as [->|Hak'].
      * destruct (Nat.eqb_spec k k'); [congruence | reflexivity].
      * reflexivity.
Qed.

Lemma plt_figure_spec (plt : Pyplot) (num : nat) :
  current (plt_figure plt num) = Some num /\
  (exists fig, get_figure (figures (plt_figure plt num)) num = Some fig /\
               plotted fig = plots_of plt num) /\
  forall k, k <> num ->
            get_figure (figures (plt_figure plt num)) k =
            get_figure (figures plt) k.
Proof.
  unfold plt_figure, plots_of.
  destruct (get_figure (figures plt) num) as [fig|] eqn:E; cbn [current figures].
  - split; [reflexivity|]. split; [|reflexivity]. now exists fig.
  - split; [reflexivity|]. split.
    + exists (mkFigure [] None). rewrite get_set_figure, Nat.eqb_refl. auto.
    + intros k Hk. rewrite get_set_figure.
      destruct (Nat.eqb_spec num k); [congruence | reflexivity].
Qed.

Lemma on_current_spec (plt : Pyplot) (f : Figure -> Figure) (num : nat)
      (fig : Figure) :
  current plt = Some num -> get_figure (figures plt) num = Some fig ->
  current (on_current plt f) = Some num /\
  forall k, get_figure (figures (on_current plt f)) k =
            if Nat.eqb num k then Some (f fig) else get_figure (figures plt) k.
Proof.
  intros Hc Hf. unfold on_current. cbv zeta. rewrite Hc. cbv beta iota.
  rewrite Hc, Hf. cbn [current figures].
  split; [reflexivity|]. intros k. apply get_set_figure.
Qed.

(** a figure is selected, plotted on and given a title *)
Lemma draw_spec (plt : Pyplot) (num : nat) (x : list nat) (y : farray)
      (s : string) :
  let plt' := plt_title (plt_plot (plt_figure plt num) x y) s in
  current plt' = Some num /\
  forall k, get_figure (figures plt') k =
            if Nat.eqb num k
            then Some (mkFigure (plots_of plt num ++ [(x, y)]) (Some s))
            else get_figure (figures plt) k.
Proof.
  cbv zeta.
  destruct (plt_figure_spec plt num) as (Hc & (fig & Hfig & Hp) & Hother).
  destruct (@on_current_spec (plt_figure plt num)
              (fun fig => mkFigure (plotted fig ++ [(x, y)]) (title fig))
              num fig Hc Hfig) as (Hc1 & Hf1).
  fold (plt_plot (plt_figure plt num) x y) in Hc1, Hf1.
  assert (Hfig1 : get_figure (figures (plt_plot (plt_figure plt num) x y)) num =
                  Some (mkFigure (plotted fig ++ [(x, y)]) (title fig)))
    by (rewrite Hf1; now rewrite Nat.eqb_refl).
  destruct (@on_current_spec (plt_plot (plt_figure plt num) x y)
              (fun fig => mkFigure (plotted fig) (Some s))
              num _ Hc1 Hfig1) as (Hc2 & Hf2).
  fold (plt_title (plt_plot (plt_figure plt num) x y) s) in Hc2, Hf2.
  split; [exact Hc2|]. intros k. rewrite Hf2.
  destruct (Nat.eqb_spec num k) as [<-|Hk].
  - cbn [plotted]. now rewrite Hp.
  - rewrite Hf1. destruct (Nat.eqb_spec num k); [congruence|].
    apply Hother. congruence.
Qed.

(** *** The arrays *)

Lemma fentry_nil (r c : nat) : fentry [] r c = NaN.
Proof. unfold fentry. now destruct r, c. Qed.

Lemma nth_nil_NaN (c : nat) : nth c (@nil float) NaN = NaN.
Proof. now destruct c. Qed.

Lemma fshape_row (M : farray) (r c k : nat) :
  fshape r c M -> (k < r)%nat -> length (nth k M []) = c.
Proof.
  intros [Hl Hr] Hk. rewrite Forall_forall in Hr. apply Hr.
  apply nth_In. lia.
Qed.

Lemma fshape_fzeros (r c : nat) : fshape r c (fzeros r c).
Proof.
  unfold fshape, fzeros. split; [apply repeat_length|].
  apply Forall_forall. intros row H. apply repeat_spec in H. subst.
  apply repeat_length.
Qed.

Lemma fentry_fzeros (r c i j : nat) :
  (i < r)%nat -> (j < c)%nat -> fentry (fzeros r c) i j = Val 0.
Proof.
  intros Hi Hj. unfold fentry, fzeros.
  rewrite (nth_error_nth _ _ _ (nth_error_repeat _ Hi)).
  now rewrite (nth_error_nth _ _ _ (nth_error_repeat _ Hj)).
Qed.

Lemma fshape_set_tail_col (M : farray) (T n c : nat) (vals : list float) :
  fshape (S T) n M -> length vals = T -> fshape (S T) n (set_tail_col M c vals).
Proof.
  intros [Hl Hr] Hv. destruct M as [|row0 rest]; [discriminate|].
  cbn [length] in Hl. inversion Hr as [|? ? H0 Hrest]; subst.
  unfold fshape, set_tail_col. split.
  - cbn [length]. rewrite length_map, length_combine. lia.
  - constructor; [reflexivity|]. apply Forall_forall. intros row Hrow.
    apply in_map_iff in Hrow. destruct Hrow as ([r x] & <- & Hin).
    cbn [fst snd]. rewrite length_set_nth.
    rewrite Forall_forall in Hrest. apply Hrest. eapply in_combine_l; eauto.
Qed.

Lemma fentry_set_tail_col (M : farray) (T n c : nat) (vals : list float)
      (r c' : nat) :
  fshape (S T) n M -> length vals = T -> (c < n)%nat ->
  fentry (set_tail_col M c vals) r c' =
  match r with
  | O => fentry M 0 c'
  | S k => if Nat.eqb c' c && Nat.ltb k T then nth k vals NaN
           else fentry M r c'
  end.
Proof.
  intros [Hl Hr] Hv Hc. destruct M as [|row0 rest]; [discriminate|].
  cbn [length] in Hl. inversion Hr as [|? ? H0 Hrest]; subst.
  unfold set_tail_col, fentry. destruct r as [|k]; [reflexivity|].
  cbn [nth]. destruct (Nat.ltb_spec k (length vals)) as [Hk|Hk].
  - rewrite (nth_map_default _ (combine rest vals) ([], NaN))
      by (rewrite length_combine; lia).
    rewrite combine_nth by lia. cbn [fst snd]. rewrite nth_set_nth.
    assert (Hlen : length (nth k rest []) = length row0).
    { rewrite Forall_forall in Hrest. apply Hrest. apply nth_In. lia. }
    rewrite Hlen. destruct (Nat.ltb_spec c (length row0)); [|lia].
    now rewrite !andb_true_r.
  - rewrite andb_false_r.
    rewrite (nth_overflow (map _ _))
      by (rewrite length_map, length_combine; lia).
    rewrite (nth_overflow rest) by lia. reflexivity.
Qed.

Lemma fshape_set_first (M : farray) (T n c : nat) (x : float) :
  fshape (S T) n M -> fshape (S T) n (set_first M c x).
Proof.
  intros [Hl Hr]. destruct M as [|row0 rest]; [discriminate|].
  inversion Hr as [|? ? H0 Hrest]; subst. unfold fshape, set_first.
  split; [exact Hl|]. constructor; [apply length_set_nth | exact Hrest].
Qed.

Lemma fentry_set_first (M : farray) (T n c : nat) (x : float) (r c' : nat) :
  fshape (S T) n M -> (c < n)%nat ->
  fentry (set_first M c x) r c' =
  if Nat.eqb r 0 && Nat.eqb c' c then x else fentry M r c'.
Proof.
  intros [Hl Hr] Hc. destruct M as [|row0 rest]; [discriminate|].
  inversion Hr as [|? ? H0 Hrest]; subst. unfold set_first, fentry.
  destruct r as [|k]; cbn [nth Nat.eqb andb]; [|reflexivity].
  rewrite nth_set_nth. destruct (Nat.ltb_spec c (length row0)); [|lia].
  now rewrite andb_true_r.
Qed.

Lemma nth_get_tail_col (M : farray) (T n c k : nat) :
  fshape (S T) n M -> (k < T)%nat ->
  nth k (get_tail_col M c) NaN = fentry M (S k) c.
Proof.
  intros [Hl Hr] Hk. destruct M as [|row0 rest]; [discriminate|].
  cbn [length] in Hl. unfold get_tail_col, fentry. cbn [tl nth].
  now rewrite (nth_map_default (fun row => nth c row NaN) rest []) by lia.
Qed.

Lemma length_get_tail_col (M : farray) (T n c : nat) :
  fshape (S T) n M -> length (get_tail_col M c) = T.
Proof.
  intros [Hl Hr]. destruct M as [|row0 rest]; [discriminate|].
  cbn [length] in Hl. unfold get_tail_col. cbn [tl]. rewrite length_map. lia.
Qed.

Lemma broadcast_same {A : Type} (n : nat) (vals : list A) :
  length vals = n -> broadcast n vals = Ok vals.
Proof. intros H. unfold broadcast. now rewrite H, Nat.eqb_refl. Qed.

Section PlotLoop.

Import PyDict.
Variables (variables : list string) (transientdict : dict (list float))
          (basevaldict : dict Q) (T : nat).
Hypothesis Hall :
  forall v, In v variables -> plottable transientdict basevaldict T v.

Lemma plot_body_step D A i v :
  fshape (S T) (length variables) D -> fshape (S T) (length variables) A ->
  nth_error variables i = Some v ->
  exists D' A',
    plot_body transientdict basevaldict T (D, A) (i, v) = Ok (D', A') /\
    fshape (S T) (length variables) D' /\
    fshape (S T) (length variables) A' /\
    (forall r c,
        fentry D' r c =
        match r with
        | O => fentry D 0 c
        | S k => if Nat.eqb c i && Nat.ltb k T
                 then nth k (diffvect_of transientdict v) NaN
                 else fentry D r c
        end) /\
    (forall r c,
        fentry A' r c =
        match r with
        | O => if Nat.eqb c i then Val (score basevaldict v) else fentry A 0 c
        | S k => if Nat.eqb c i && Nat.ltb k T
                 then fadd (nth k (diffvect_of transientdict v) NaN)
                           (Val (score basevaldict v))
                 else fentry A r c
        end).
Proof.
  intros HD HA Hi.
  assert (Hin : In v variables) by (eapply nth_error_In; eauto).
  assert (Hlt : (i < length variables)%nat)
    by (apply nth_error_Some; congruence).
  destruct (Hall v Hin) as (Ht & Hlen & Hb).
  unfold plot_body, getitem. unfold diffvect_of in *. unfold score.
  destruct (get transientdict v) as [d|]; [|congruence].
  destruct (get basevaldict v) as [b|]; [|congruence].
  cbn [bind]. rewrite (broadcast_same d Hlen). cbn [bind].
  pose proof (@fshape_set_tail_col D T (length variables) i d HD Hlen) as HD'.
  pose proof (@fshape_set_first A T (length variables) i (Val b) HA) as HA1.
  assert (Hvals : length (map (fun x => fadd x (Val b))
                              (get_tail_col (set_tail_col D i d) i)) = T).
  { rewrite length_map. eapply length_get_tail_col; eauto. }
  pose proof (@fshape_set_tail_col _ T (length variables) i _ HA1 Hvals) as HA'.
  eexists. eexists. split; [reflexivity|]. split; [exact HD'|].
  split; [exact HA'|]. split.
  - intros r c. now apply fentry_set_tail_col with (n := length variables).
  - intros r c.
    rewrite (@fentry_set_tail_col _ T (length variables) i _ r c HA1 Hvals Hlt).
    destruct r as [|k].
    + rewrite (@fentry_set_first A T (length variables) i (Val b) 0 c HA Hlt).
      cbn [Nat.eqb andb]. reflexivity.
    + destruct (Nat.eqb_spec c i) as [->|Hc]; cbn [andb].
      * destruct (Nat.ltb_spec k T) as [Hk|Hk].
        -- rewrite (nth_map_default (fun x => fadd x (Val b)) _ NaN)
             by (erewrite length_get_tail_col; eauto).
           rewrite (@nth_get_tail_col _ T (length variables) i k HD' Hk).
           rewrite (@fentry_set_tail_col D T (length variables) i d (S k) i
                                         HD Hlen Hlt).
           rewrite Nat.eqb_refl. cbn [andb].
           destruct (Nat.ltb_spec k T); [reflexivity | lia].
        -- now rewrite (@fentry_set_first A T (length variables) i (Val b)
                                          (S k) i HA Hlt).
      * now rewrite (@fentry_set_first A T (length variables) i (Val b)
                                       (S k) c HA Hlt).
Qed.

Lemma plot_loop :
  exists D A,
    for_each (enumerate variables) (plot_body transientdict basevaldict T)
             (fzeros (S T) (length variables), fzeros (S T) (length variables))
      = Ok (D, A) /\
    fshape (S T) (length variables) D /\ fshape (S T) (length variables) A /\
    forall i v, nth_error variables i = Some v ->
                column_plotted transientdict basevaldict T D A i v.
Proof.
  destruct (@for_each_total (farray * farray) _
              (fun done st =>
                 fshape (S T) (length variables) (fst st) /\
                 fshape (S T) (length variables) (snd st) /\
                 (forall c, (c < length variables)%nat ->
                            fentry (fst st) 0 c = Val 0) /\
                 Forall (fun p => nth_error variables (fst p) = Some (snd p))
                        done /\
                 forall i v, In (i, v) done ->
                             column_plotted transientdict basevaldict T
                                            (fst st) (snd st) i v)
              (fun p => nth_error variables (fst p) = Some (snd p))
              (plot_body transientdict basevaldict T))
    with (rest := enumerate variables) (done := @nil (nat * string))
         (s := (fzeros (S T) (length variables),
                fzeros (S T) (length variables)))
    as ([D A] & Hloop & HD & HA & _ & _ & Hcols).
  - intros done [j w] [D A] Hj (HD & HA & Hrow0 & Hdone & Hcols).
    cbn [fst snd] in *.
    destruct (@plot_body_step D A j w HD HA Hj)
      as (D' & A' & Hbody & HD' & HA' & HeD & HeA).
    exists (D', A'). split; [exact Hbody|]. cbn [fst snd].
    assert (Hjlt : (j < length variables)%nat)
      by (apply nth_error_Some; congruence).
    split; [exact HD'|]. split; [exact HA'|]. split; [|split].
    + intros c Hc. rewrite HeD. now apply Hrow0.
    + apply Forall_app. split; [exact Hdone|]. now constructor.
    + intros i v Hiv.
      assert (Hnth : nth_error variables i = Some v).
      { apply in_app_or in Hiv. destruct Hiv as [Hiv|[Heq|[]]].
        - rewrite Forall_forall in Hdone. apply (Hdone (i, v) Hiv).
        - now injection Heq as <- <-. }
      destruct (Nat.eq_dec i j) as [->|Hij].
      * assert (v = w) by congruence. subst w.
        unfold column_plotted. rewrite HeD, HeA, Nat.eqb_refl.
        split; [now apply Hrow0|]. split; [reflexivity|].
        intros k Hk. rewrite HeD, HeA, Nat.eqb_refl. cbn [andb].
        destruct (Nat.ltb_spec k T); [split; reflexivity | lia].
      * assert (Hold : In (i, v) done).
        { apply in_app_or in Hiv. destruct Hiv as [|[Heq|[]]]; [assumption|].
          injection Heq as <- <-. congruence. }
        destruct (Hcols i v Hold) as (H0 & H1 & H2).
        unfold column_plotted. rewrite HeD, HeA.
        destruct (Nat.eqb_spec i j); [congruence|].
        split; [exact H0|]. split; [exact H1|].
        intros k Hk. rewrite HeD, HeA.
        destruct (Nat.eqb_spec i j); [congruence|]. cbn [andb].
        now apply H2.
  - apply Forall_forall. intros [i v] Hiv. now apply In_enumerate.
  - cbn [fst snd]. split; [apply fshape_fzeros|].
    split; [apply fshape_fzeros|]. split; [|split].
    + intros c Hc. apply fentry_fzeros; lia.
    + constructor.
    + intros i v [].
  - exists D, A. cbn [fst snd app] in *. split; [exact Hloop|].
    split; [exact HD|]. split; [exact HA|].
    intros i v Hiv. apply Hcols. now apply In_enumerate.
Qed.

End PlotLoop.

Lemma plt_figure_existing (plt : Pyplot) (num : nat) (fig : Figure) :
  get_figure (figures plt) num = Some fig ->
  plt_figure plt num = mkPyplot (figures plt) (Some num).
Proof. intros H. unfold plt_figure. now rewrite H. Qed.

Lemma plot_arrays_Ok (variables : list string)
      (transientdict : PyDict.dict (list float)) (basevaldict : PyDict.dict Q)
      (T : nat) :
  (2 <= length variables)%nat ->
  (forall v, In v variables -> plottable transientdict basevaldict T v) ->
  exists D A,
    plot_arrays variables transientdict basevaldict = Ok (T, D, A) /\
    fshape (S T) (length variables) D /\ fshape (S T) (length variables) A /\
    forall i v, nth_error variables i = Some v ->
                column_plotted transientdict basevaldict T D A i v.
Proof.
  intros Hlen Hall.
  destruct (@plot_loop variables transientdict basevaldict T Hall)
    as (D & A & Hloop & HD & HA & Hcols).
  exists D, A. split; [|auto]. unfold plot_arrays, list_getitem.
  destruct (nth_error variables 1) as [v1|] eqn:E1;
    [|apply nth_error_None in E1; lia].
  cbn [bind].
  destruct (Hall v1) as (Ht & Hl & _); [eapply nth_error_In; eauto|].
  unfold PyDict.getitem. unfold diffvect_of in Hl.
  destruct (PyDict.get transientdict v1) as [d1|]; [|congruence].
  cbn [bind]. rewrite Hl, Hloop. reflexivity.
Qed.

Lemma plot_figures (variables : list string)
      (transientdict : PyDict.dict (list float)) (basevaldict : PyDict.dict Q)
      (plt : Pyplot) (n : nat) (D A : farray) :
  plot_arrays variables transientdict basevaldict = Ok (n, D, A) ->
  exists plt',
    plot_transient_importances variables transientdict basevaldict plt =
      (Ok (1%nat, 2%nat), plt') /\
    current plt' = Some 2%nat /\
    get_figure (figures plt') 1 =
      Some (mkFigure (plots_of plt 1 ++ [(seq 0 (S n), D)])
                     (Some "Relative importance variations over time"%string)) /\
    get_figure (figures plt') 2 =
      Some (mkFigure (plots_of plt 2 ++ [(seq 0 (S n), A)])
                     (Some "Absolute importance scores over time"%string)) /\
    forall k, k <> 1%nat -> k <> 2%nat ->
              get_figure (figures plt') k = get_figure (figures plt) k.
Proof.
  intros Harr. unfold plot_transient_importances. rewrite Harr. cbv zeta.
  set (s1 := "Relative importance variations over time"%string).
  set (s2 := "Absolute importance scores over time"%string).
  set (plt1 := plt_title (plt_plot (plt_figure plt 1) (seq 0 (S n)) D) s1).
  set (plt2 := plt_title (plt_plot (plt_figure plt1 2) (seq 0 (S n)) A) s2).
  destruct (@draw_spec plt 1 (seq 0 (S n)) D s1) as (Hc1 & Hf1).
  fold plt1 in Hc1, Hf1.
  destruct (@draw_spec plt1 2 (seq 0 (S n)) A s2) as (Hc2 & Hf2).
  fold plt2 in Hc2, Hf2.
  assert (Hp2 : plots_of plt1 2 = plots_of plt 2).
  { unfold plots_of. rewrite Hf1. reflexivity. }
  assert (Hg1 : get_figure (figures plt2) 1 =
                Some (mkFigure (plots_of plt 1 ++ [(seq 0 (S n), D)]) (Some s1))).
  { rewrite Hf2. cbn [Nat.eqb]. rewrite Hf1. reflexivity. }
  assert (Hg2 : get_figure (figures plt2) 2 =
                Some (mkFigure (plots_of plt 2 ++ [(seq 0 (S n), A)]) (Some s2))).
  { rewrite Hf2. cbn [Nat.eqb]. now rewrite Hp2. }
  rewrite (plt_figure_existing plt2 1 Hg1).
  rewrite (@plt_figure_existing (mkPyplot (figures plt2) (Some 1%nat)) 2 _ Hg2).
  cbn [figures].
  exists (mkPyplot (figures plt2) (Some 2%nat)).
  split; [reflexivity|]. cbn [current figures]. split; [reflexivity|].
  split; [exact Hg1|]. split; [exact Hg2|].
  intros k Hk1 Hk2. rewrite Hf2.
  destruct (Nat.eqb_spec 2 k); [congruence|]. rewrite Hf1.
  destruct (Nat.eqb_spec 1 k); [congruence | reflexivity].
Qed.

(** X20: [plot_transient_importances] needs two variables at least, for it
    reads the number of differences from the second one: a shorter list is
    an [IndexError] and nothing is drawn.  With two or more variables that
    both dictionaries know, all with the same number of differences, it
    returns figures 1 and 2, having added to each one plot over the bins
    [0 .. n] and set its title; what was plotted on them before stays, and
    other figures are untouched.  In the arrays plotted, the column of a
    variable holds 0 followed by its differences (figure 1), and its base
    value followed by the base value plus each single difference
    (figure 2). *)
Theorem plot_transient_importances_spec (variables : list string)
        (transientdict : PyDict.dict (list float))
        (basevaldict : PyDict.dict Q) (plt : Pyplot) :
  ((length variables < 2)%nat ->
   plot_transient_importances variables transientdict basevaldict plt =
     (Raise IndexError, plt)) /\
  (forall n,
      (2 <= length variables)%nat ->
      (forall v, In v variables -> plottable transientdict basevaldict n v) ->
      exists diffplot absplot plt',
        plot_transient_importances variables transientdict basevaldict plt =
          (Ok (1%nat, 2%nat), plt') /\
        current plt' = Some 2%nat /\
        get_figure (figures plt') 1 =
          Some (mkFigure (plots_of plt 1 ++ [(seq 0 (S n), diffplot)])
                         (Some "Relative importance variations over time"%string)) /\
        get_figure (figures plt') 2 =
          Some (mkFigure (plots_of plt 2 ++ [(seq 0 (S n), absplot)])
                         (Some "Absolute importance scores over time"%string)) /\
        (forall k, k <> 1%nat -> k <> 2%nat ->
                   get_figure (figures plt') k = get_figure (figures plt) k) /\
        fshape (S n) (length variables) diffplot /\
        fshape (S n) (length variables) absplot /\
        forall i v, nth_error variables i = Some v ->
                    column_plotted transientdict basevaldict n
                                   diffplot absplot i v).
Proof.
  split.
  - intros Hlen. unfold plot_transient_importances, plot_arrays, list_getitem.
    destruct (nth_error variables 1) as [v1|] eqn:E1; [|reflexivity].
    assert (1 < length variables)%nat by (apply nth_error_Some; congruence).
    lia.
  - intros n Hlen Hall.
    destruct (@plot_arrays_Ok variables transientdict basevaldict n Hlen Hall)
      as (D & A & Harr & HD & HA & Hcols).
    destruct (@plot_figures variables transientdict basevaldict plt n D A Harr)
      as (plt' & Hcall & Hcur & Hf1 & Hf2 & Hother).
    exists D, A, plt'.
    split; [exact Hcall|]. split; [exact Hcur|]. split; [exact Hf1|].
    split; [exact Hf2|]. split; [exact Hother|]. split; [exact HD|].
    split; [exact HA | exact Hcols].
Qed.

Lemma length_diffs_of (rankingdicts : list (PyDict.dict Q)) (v : string) :
  length (diffs_of rankingdicts v) = (length rankingdicts - 1)%nat.
Proof.
  unfold diffs_of, series. rewrite length_successive_diffs.
  destruct rankingdicts as [|d l]; [reflexivity|].
  cbn [map tl length]. rewrite length_map. lia.
Qed.

(** X21: fed with the result of [calc_transient_importancediffs] for two
    variables or more, [plot_transient_importances] always returns, and the
    curve it plots on figure 2 under the title of absolute importance scores
    starts at the score of the first box and then holds, for box [k + 1],
    that first score plus the one difference between boxes [k + 1] and [k]:
    the differences are not accumulated. *)
Theorem plotted_absolute_scores (rankingdicts : list (PyDict.dict Q))
        (variablelist : list string)
        (transientdict : PyDict.dict (list float))
        (basevaldict : PyDict.dict Q) (plt : Pyplot) :
  calc_transient_importancediffs rankingdicts variablelist =
    Ok (transientdict, basevaldict) ->
  (2 <= length variablelist)%nat ->
  exists absplot plt',
    plot_transient_importances variablelist transientdict basevaldict plt =
      (Ok (1%nat, 2%nat), plt') /\
    get_figure (figures plt') 2 =
      Some (mkFigure (plots_of plt 2 ++ [(seq 0 (length rankingdicts), absplot)])
                     (Some "Absolute importance scores over time"%string)) /\
    forall i v,
      nth_error variablelist i = Some v ->
      fentry absplot 0 i = Val (score (nth 0 rankingdicts []) v) /\
      forall k, (k < length rankingdicts - 1)%nat ->
                fentry absplot (S k) i =
                Val (score (nth (S k) rankingdicts []) v -
                     score (nth k rankingdicts []) v +
                     score (nth 0 rankingdicts []) v).
Proof.
  intros H Hlen. unfold calc_transient_importancediffs in H.
  apply transient_loop in H. destruct H as [H _].
  assert (Hne : rankingdicts <> []).
  { destruct variablelist as [|x l]; [simpl in Hlen; lia|].
    destruct (H x) as ([Hne _] & _); [now left | exact Hne]. }
  assert (HS : S (length rankingdicts - 1) = length rankingdicts).
  { destruct rankingdicts; [congruence | simpl; lia]. }
  assert (Hbase : forall v, In v variablelist ->
                    score basevaldict v = score (nth 0 rankingdicts []) v).
  { intros v Hv. destruct (H v Hv) as (_ & _ & Hb). unfold score at 1.
    rewrite Hb. rewrite <- nth_series.
    destruct rankingdicts; [congruence | reflexivity]. }
  assert (Hall : forall v, In v variablelist ->
                   plottable transientdict basevaldict
                             (length rankingdicts - 1) v).
  { intros v Hv. destruct (H v Hv) as (_ & Ht & Hb).
    unfold plottable, diffvect_of. rewrite Ht, Hb.
    split; [discriminate|]. split; [|discriminate].
    now rewrite length_map, length_diffs_of. }
  destruct (@plot_arrays_Ok variablelist transientdict basevaldict
                            (length rankingdicts - 1) Hlen Hall)
    as (D & A & Harr & _ & _ & Hcols).
  destruct (@plot_figures variablelist transientdict basevaldict plt _ D A Harr)
    as (plt' & Hcall & _ & _ & Hfig2 & _).
  exists A, plt'. split; [exact Hcall|]. rewrite HS in Hfig2.
  split; [exact Hfig2|].
  intros i v Hiv.
  assert (Hv : In v variablelist) by (eapply nth_error_In; eauto).
  destruct (Hcols i v Hiv) as (_ & H0 & Hk).
  split; [now rewrite H0, Hbase|].
  intros k Hklt. destruct (Hk k Hklt) as [_ ->].
  destruct (H v Hv) as (_ & Ht & _). unfold diffvect_of. rewrite Ht.
  destruct (diffs_of_nth rankingdicts v Hklt) as [Hl Hn].
  rewrite nth_map_Val by lia. rewrite Hn, Hbase by exact Hv. reflexivity.
Qed.

Lemma plottable_demo :
  forall v, In v vars_ab ->
            plottable [("a", [Val (-2 # 8); Val (1 # 12)]);
                       ("b", [Val (2 # 8); Val (-1 # 12)])]%string
                      [("a", 1 # 2); ("b", 1 # 2)]%string 2 v.
Proof.
  intros v [<-|[<-|[]]]; (split; [discriminate|]);
    (split; [reflexivity | discriminate]).
Qed.

Lemma plot_transient_importances_spec_witness :
  (length ["a"%string] < 2)%nat /\
  plot_transient_importances ["a"%string]
                             [("a", [Val (-2 # 8); Val (1 # 12)])]%string
                             [("a", 1 # 2)]%string no_plots =
    (Raise IndexError, no_plots) /\
  (2 <= length vars_ab)%nat /\
  (forall v, In v vars_ab ->
             plottable [("a", [Val (-2 # 8); Val (1 # 12)]);
                        ("b", [Val (2 # 8); Val (-1 # 12)])]%string
                       [("a", 1 # 2); ("b", 1 # 2)]%string 2 v) /\
  exists diffplot absplot plt',
    plot_transient_importances vars_ab
                               [("a", [Val (-2 # 8); Val (1 # 12)]);
                                ("b", [Val (2 # 8); Val (-1 # 12)])]%string
                               [("a", 1 # 2); ("b", 1 # 2)]%string no_plots =
      (Ok (1%nat, 2%nat), plt') /\
    current plt' = Some 2%nat /\
    get_figure (figures plt') 1 =
      Some (mkFigure (plots_of no_plots 1 ++ [(seq 0 3, diffplot)])
                     (Some "Relative importance variations over time"%string)) /\
    get_figure (figures plt') 2 =
      Some (mkFigure (plots_of no_plots 2 ++ [(seq 0 3, absplot)])
                     (Some "Absolute importance scores over time"%string)) /\
    (forall k, k <> 1%nat -> k <> 2%nat ->
               get_figure (figures plt') k = get_figure (figures no_plots) k) /\
    fshape 3 (length vars_ab) diffplot /\
    fshape 3 (length vars_ab) absplot /\
    forall i v, nth_error vars_ab i = Some v ->
                column_plotted [("a", [Val (-2 # 8); Val (1 # 12)]);
                                ("b", [Val (2 # 8); Val (-1 # 12)])]%string
                               [("a", 1 # 2); ("b", 1 # 2)]%string 2
                               diffplot absplot i v.
Proof.
  split; [simpl; lia|]. split.
  { apply (proj1 (plot_transient_importances_spec
                    ["a"%string] [("a", [Val (-2 # 8); Val (1 # 12)])]%string
                    [("a", 1 # 2)]%string no_plots)).
    simpl; lia. }
  split; [simpl; lia|]. split; [exact plottable_demo|].
  apply (proj2 (plot_transient_importances_spec
                  vars_ab
                  [("a", [Val (-2 # 8); Val (1 # 12)]);
                   ("b", [Val (2 # 8); Val (-1 # 12)])]%string
                  [("a", 1 # 2); ("b", 1 # 2)]%string no_plots) 2%nat);
    [simpl; lia | exact plottable_demo].
Defined.

Lemma plotted_absolute_scores_witness :
  calc_transient_importancediffs boxes_demo vars_ab =
    Ok ([("a", [Val (-2 # 8); Val (1 # 12)]);
         ("b", [Val (2 # 8); Val (-1 # 12)])]%string,
        [("a", 1 # 2); ("b", 1 # 2)]%string) /\
  (2 <= length vars_ab)%nat /\
  exists absplot plt',
    plot_transient_importances vars_ab
                               [("a", [Val (-2 # 8); Val (1 # 12)]);
                                ("b", [Val (2 # 8); Val (-1 # 12)])]%string
                               [("a", 1 # 2); ("b", 1 # 2)]%string no_plots =
      (Ok (1%nat, 2%nat), plt') /\
    get_figure (figures plt') 2 =
      Some (mkFigure (plots_of no_plots 2 ++
                      [(seq 0 (length boxes_demo), absplot)])
                     (Some "Absolute importance scores over time"%string)) /\
    forall i v,
      nth_error vars_ab i = Some v ->
      fentry absplot 0 i = Val (score (nth 0 boxes_demo []) v) /\
      forall k, (k < length boxes_demo - 1)%nat ->
                fentry absplot (S k) i =
                Val (score (nth (S k) boxes_demo []) v -
                     score (nth k boxes_demo []) v +
                     score (nth 0 boxes_demo []) v).
Proof.
  split; [reflexivity|]. split; [simpl; lia|].
  apply (@plotted_absolute_scores boxes_demo vars_ab _ _ no_plots);
    [reflexivity | simpl; lia].
Defined.

(** ** Compositions *)

Lemma normalise_rankinglist_Ok (rankingdict : PyDict.dict Q)
      (originalvariables : list string) :
  NoDup originalvariables ->
  (forall v, In v originalvariables -> PyDict.get rankingdict v <> None) ->
  ~ sum (map (score rankingdict) originalvariables) == 0 ->
  normalise_rankinglist rankingdict originalvariables =
  Ok (sorted_desc
        (map (fun v => (v, score rankingdict v /
                           sum (map (score rankingdict) originalvariables)))
             originalvariables)).
Proof.
  intros Hnd Hp Ht.
  assert (E : for_each originalvariables (restrict_body rankingdict) [] =
              Ok (map (fun v => (v, score rankingdict v)) originalvariables)).
  { apply (@fill_loop (restrict_body rankingdict) (score rankingdict)
                      originalvariables []); auto.
    intros acc v Hv. apply restrict_body_Ok. now apply Hp. }
  unfold normalise_rankinglist. rewrite E. cbn [bind].
  rewrite values_map_pairs. now rewrite divide_loop_Ok_nil by auto.
Qed.

Lemma Forall2_map_items (f g : string -> Q) (vars : list string) :
  (forall v, In v vars -> f v == g v) ->
  Forall2 same_item (map (fun v => (v, f v)) vars)
          (map (fun v => (v, g v)) vars).
Proof.
  induction vars as [|x l IH]; intros H; cbn [map]; constructor.
  - split; [reflexivity|]. cbn [snd]. apply H. now left.
  - apply IH. intros v Hv. apply H. now right.
Qed.

(** X22: the ranking of [calc_blended_rank] is normalised over its variable
    list already: [normalise_rankinglist], applied to the dictionary it
    returns and the same (non-empty, repetition-free) variable list, returns
    the ranking list of [calc_blended_rank] again, variable by variable with
    the same scores. *)
Theorem blended_rank_already_normalised
        (forwardrank backwardrank : PyDict.dict Q)
        (variablelist : list string) (alpha : Q)
        (d : PyDict.dict Q) (l : list (string * Q)) :
  NoDup variablelist -> variablelist <> [] ->
  calc_blended_rank forwardrank backwardrank variablelist alpha = Ok (d, l) ->
  exists l',
    normalise_rankinglist d variablelist = Ok l' /\ Forall2 same_item l' l.
Proof.
  intros Hnd Hne H.
  apply calc_blended_rank_inv in H; [|exact Hnd].
  destruct H as (_ & Ht & Hd & ->). specialize (Ht Hne).
  set (T := blend_total forwardrank backwardrank alpha variablelist) in *.
  assert (Hscore : forall v, In v variablelist ->
                     score d v = blend forwardrank backwardrank alpha v / T).
  { intros v Hv. rewrite Hd, score_map_pairs.
    now destruct (in_dec string_dec v variablelist). }
  assert (Hsum : sum (map (score d) variablelist) == 1).
  { rewrite (@sum_map_ext _ _ (fun v => blend forwardrank backwardrank alpha v / T))
      by (intros v Hv; now rewrite Hscore).
    rewrite <- (map_map (blend forwardrank backwardrank alpha)
                        (fun x => x / T)).
    rewrite sum_map_div. fold (blend_total forwardrank backwardrank alpha
                                           variablelist).
    fold T. now field. }
  rewrite normalise_rankinglist_Ok.
  - eexists. split; [reflexivity|]. apply sorted_desc_same.
    assert (HF : Forall2 same_item
                   (map (fun v => (v, score d v /
                                      sum (map (score d) variablelist)))
                        variablelist)
                   (map (fun v => (v, blend forwardrank backwardrank alpha v / T))
                        variablelist)).
    { apply Forall2_map_items.
      intros v Hv. rewrite Hsum, Hscore by exact Hv. now field. }
    now rewrite <- Hd in HF.
  - exact Hnd.
  - intros v Hv. rewrite Hd, get_map_pairs by exact Hv. discriminate.
  - rewrite Hsum. discriminate.
Qed.

Lemma blended_rank_already_normalised_witness :
  NoDup vars_ab /\ vars_ab <> [] /\
  calc_blended_rank fwd_demo bwd_demo vars_ab (1 # 2) =
    Ok ([("a", 70400 # 99200); ("b", 57600 # 198400)]%string,
        [("a", 70400 # 99200); ("b", 57600 # 198400)]%string) /\
  exists l',
    normalise_rankinglist [("a", 70400 # 99200); ("b", 57600 # 198400)]%string
                          vars_ab = Ok l' /\
    Forall2 same_item l' [("a", 70400 # 99200); ("b", 57600 # 198400)]%string.
Proof.
  split; [exact NoDup_vars_ab|]. split; [discriminate|].
  split; [reflexivity|].
  apply (@blended_rank_already_normalised fwd_demo bwd_demo vars_ab (1 # 2) _ _
           NoDup_vars_ab); [discriminate | reflexivity].
Defined.

(** ** The scale of the gains *)

Lemma sum_nonneg_zero (l : list Q) :
  Forall (fun x => 0 <= x) l -> sum l == 0 -> forall x, In x l -> x == 0.
Proof.
  induction 1 as [|y l Hy Hl IH]; intros Hs x Hx; [contradiction|].
  rewrite sum_cons in Hs. pose proof (sum_nonneg Hl) as Hl0.
  assert (Hy0 : y == 0) by lra.
  destruct Hx as [<-|Hx]; [exact Hy0|].
  apply IH; [|exact Hx]. lra.
Qed.

Lemma colabs_zero_entry (M : matrix) (r c : nat) :
  colabs M c == 0 -> (r < length M)%nat -> entry M r c == 0.
Proof.
  intros Hz Hr. rewrite colabs_seq in Hz. apply Qabs_zero.
  apply (@sum_nonneg_zero
           (map (fun r => Qabs (entry M r c)) (seq 0 (length M)))).
  - apply Forall_forall. intros x Hx. apply in_map_iff in Hx.
    destruct Hx as (k & <- & _). apply Qabs_nonneg.
  - exact Hz.
  - apply in_map_iff. exists r. split; [reflexivity|]. apply in_seq. lia.
Qed.

Lemma colabs_ext (M N : matrix) (c : nat) :
  length M = length N ->
  (forall r, (r < length M)%nat -> entry M r c == entry N r c) ->
  colabs M c == colabs N c.
Proof.
  intros Hl H. rewrite !colabs_seq, <- Hl. apply sum_map_ext.
  intros r Hr. apply in_seq in Hr. rewrite H by lia. reflexivity.
Qed.

Lemma length_scale_rect (c : Q) (M : matrix) (n : nat) :
  length M = n -> rect n M -> length (scale c M) = n /\ rect n (scale c M).
Proof.
  intros Hl Hr. split; [now rewrite length_scale | now apply rect_scale].
Qed.

Section ScaledGain.

Variables (gainmatrix : matrix) (n : nat) (c : Q).
Hypothesis Hl : length gainmatrix = n.
Hypothesis Hr : rect n gainmatrix.
Hypothesis Hc : 0 < c.

Let T := transpose gainmatrix.
Let T' := transpose (scale c gainmatrix).

Lemma scaled_T_entry r k :
  (r < n)%nat -> (k < n)%nat -> entry T' r k = c * entry T r k.
Proof.
  intros Hrn Hkn. unfold T, T'.
  destruct (length_scale_rect c Hl Hr) as [Hl' Hr'].
  rewrite (weight_T_entry Hl' Hr') by assumption.
  rewrite (weight_T_entry Hl Hr) by assumption.
  now apply entry_scale with (n := n).
Qed.

Lemma scaled_T_colabs k : (k < n)%nat -> colabs T' k == c * colabs T k.
Proof.
  intros Hkn.
  destruct (length_scale_rect c Hl Hr) as [Hl' Hr'].
  destruct (weight_T_shape Hl Hr) as [HlT _].
  destruct (weight_T_shape Hl' Hr') as [HlT' _].
  fold T in HlT. fold T' in HlT'.
  rewrite !colabs_seq, HlT, HlT'.
  rewrite (@sum_map_ext _ _ (fun r => c * Qabs (entry T r k))).
  - rewrite <- (map_map (fun r => Qabs (entry T r k)) (Qmult c)).
    apply sum_map_mult.
  - intros r Hr'0. apply in_seq in Hr'0.
    rewrite scaled_T_entry by lia.
    rewrite Qabs_Qmult, (Qabs_pos c); [reflexivity|]. now apply Qlt_le_weak.
Qed.

Lemma scaled_normalised_entry r k :
  (r < n)%nat -> (k < n)%nat ->
  normalised_entry T' r k == normalised_entry T r k.
Proof.
  intros Hrn Hkn. unfold normalised_entry.
  pose proof (scaled_T_colabs Hkn) as Hcol.
  destruct (weight_T_shape Hl Hr) as [HlT _]. fold T in HlT.
  rewrite scaled_T_entry by assumption.
  destruct (Qeq_bool (colabs T k) 0) eqn:E, (Qeq_bool (colabs T' k) 0) eqn:E'.
  - apply Qeq_bool_iff in E.
    rewrite (@colabs_zero_entry T r k E) by lia. ring.
  - apply Qeq_bool_iff in E. apply Qeq_bool_neq in E'.
    elim E'. rewrite Hcol, E. ring.
  - apply Qeq_bool_iff in E'. apply Qeq_bool_neq in E.
    elim E. rewrite Hcol in E'.
    apply Qmult_integral in E'. destruct E' as [E'|E']; [|exact E'].
    rewrite E' in Hc. now apply Qlt_irrefl in Hc.
  - apply Qeq_bool_neq in E. rewrite Hcol. field. split; [exact E|].
    intros Hc0. rewrite Hc0 in Hc. now apply Qlt_irrefl in Hc.
Qed.

End ScaledGain.

(** X23: the weight matrix of [calc_simple_rank] does not depend on the
    scale of the gains.  When the first three steps succeed on a square gain
    matrix, they succeed on that matrix multiplied by a positive factor, and
    the weight matrix handed to [np.linalg.eig] has the same entries. *)
Theorem weight_matrix_scale_invariant (gainmatrix : matrix) (n : nat)
        (m c : Q) (gn W0 W : matrix) :
  length gainmatrix = n -> rect n gainmatrix -> 0 < c ->
  normalise_gain (transpose gainmatrix) (shape0 (transpose gainmatrix)) =
    Ok gn ->
  mat_add (scale m gn)
          (scale (1 - m) (resetmatrix_of (shape0 (transpose gainmatrix)))) =
    Ok W0 ->
  normalise_weight W0 (shape0 (transpose gainmatrix)) = Ok W ->
  exists gn' W0' W',
    normalise_gain (transpose (scale c gainmatrix))
                   (shape0 (transpose (scale c gainmatrix))) = Ok gn' /\
    mat_add (scale m gn')
            (scale (1 - m)
                   (resetmatrix_of (shape0 (transpose (scale c gainmatrix))))) =
      Ok W0' /\
    normalise_weight W0' (shape0 (transpose (scale c gainmatrix))) = Ok W' /\
    length W' = n /\ rect n W' /\
    forall r k, (r < n)%nat -> (k < n)%nat -> entry W' r k == entry W r k.
Proof.
  intros Hl Hr Hc Hgn HW0 HW.
  destruct (length_scale_rect c Hl Hr) as [Hl' Hr'].
  destruct (weight_T_shape Hl Hr) as [HlT _].
  destruct (weight_T_shape Hl' Hr') as [HlT' _].
  assert (Hs : shape0 (transpose gainmatrix) = n) by exact HlT.
  assert (Hs' : shape0 (transpose (scale c gainmatrix)) = n) by exact HlT'.
  destruct (@weight_before gainmatrix n m Hl Hr)
    as (gn1 & W1 & Hgn1 & _ & _ & HW1 & HlW0 & HrW0 & _ & HeW0).
  rewrite Hgn in Hgn1. injection Hgn1 as <-.
  rewrite HW0 in HW1. injection HW1 as <-.
  destruct (@weight_before (scale c gainmatrix) n m Hl' Hr')
    as (gn' & W0' & Hgn' & _ & _ & HW0' & HlW0' & HrW0' & _ & HeW0').
  rewrite Hs in *. rewrite Hs' in *.
  assert (Hent0 : forall r k, (r < n)%nat -> (k < n)%nat ->
                              entry W0' r k == entry W0 r k).
  { intros r k Hrn Hkn. rewrite HeW0, HeW0' by assumption.
    now rewrite (scaled_normalised_entry Hl Hr Hc Hrn Hkn). }
  assert (Hcol : forall k, (k < n)%nat -> colabs W0' k == colabs W0 k).
  { intros k Hkn. apply colabs_ext; [congruence|].
    intros r Hrn. apply Hent0; [lia | exact Hkn]. }
  assert (Hnz : forall k, (k < n)%nat -> ~ colabs W0 k == 0).
  { intros k Hkn Hz.
    rewrite (@normalise_weight_zero W0 n k HlW0 HrW0 Hkn Hz) in HW.
    discriminate. }
  destruct (@normalise_weight_Ok W0 n HlW0 HrW0 Hnz)
    as (W1 & HW1 & _ & _ & HeW).
  rewrite HW in HW1. injection HW1 as <-.
  destruct (@normalise_weight_Ok W0' n HlW0' HrW0')
    as (W' & HW' & HlW' & HrW' & HeW').
  { intros k Hkn. rewrite (Hcol k Hkn). now apply Hnz. }
  exists gn', W0', W'. split; [exact Hgn'|]. split; [exact HW0'|].
  split; [exact HW'|]. split; [exact HlW'|]. split; [exact HrW'|].
  intros r k Hrn Hkn. rewrite HeW, HeW' by assumption.
  now rewrite (Hent0 r k Hrn Hkn), (Hcol k Hkn).
Qed.

Lemma weight_matrix_scale_invariant_witness :
  length ones_matrix = 2%nat /\ rect 2 ones_matrix /\ 0 < 3 /\
  normalise_gain (transpose ones_matrix) (shape0 (transpose ones_matrix)) =
    Ok half_matrix /\
  exists W0 W,
    mat_add (scale (1 # 2) half_matrix)
            (scale (1 - (1 # 2))
                   (resetmatrix_of (shape0 (transpose ones_matrix)))) = Ok W0 /\
    normalise_weight W0 (shape0 (transpose ones_matrix)) = Ok W /\
    exists gn' W0' W',
      normalise_gain (transpose (scale 3 ones_matrix))
                     (shape0 (transpose (scale 3 ones_matrix))) = Ok gn' /\
      mat_add (scale (1 # 2) gn')
              (scale (1 - (1 # 2))
                     (resetmatrix_of
                        (shape0 (transpose (scale 3 ones_matrix))))) = Ok W0' /\
      normalise_weight W0' (shape0 (transpose (scale 3 ones_matrix))) = Ok W' /\
      length W' = 2%nat /\ rect 2 W' /\
      forall r k, (r < 2)%nat -> (k < 2)%nat -> entry W' r k == entry W r k.
Proof.
  assert (H2 : rect 2 ones_matrix) by (repeat constructor).
  split; [reflexivity|]. split; [exact H2|]. split; [reflexivity|].
  split; [reflexivity|].
  eexists. eexists. split; [vm_compute; reflexivity|].
  split; [vm_compute; reflexivity|].
  eapply (@weight_matrix_scale_invariant ones_matrix 2 (1 # 2) 3 half_matrix);
    [reflexivity | exact H2 | reflexivity | reflexivity
     | vm_compute; reflexivity | vm_compute; reflexivity].
Defined.

(** ** [buildcase]: the order of the variables *)





